(** * gswap-sdk: a shallow embedding of the reconciliation core and of the
      canonicalisation / math layer, with the properties of its specification.

    The file follows the TypeScript sources:
    - [GSwapSDKError]                 src/classes/gswap_sdk_error.ts
    - [TransactionWaiter]             src/classes/tx_waiter.ts
    - [compareTokens], [getTokenOrdering]        src/utils/token.ts
    - [validateNumericAmount] and friends        src/utils/validation.ts
    - [calculateTicksForPrice], [calculatePriceForTicks]   src/classes/pools.ts
    - [quoteExactInput], [quoteExactOutput]      src/classes/quoting.ts
    - [calculateOptimalPositionSize]             src/classes/positions.ts

    Definitions come first; the theorems follow in the second half. *)

From stdpp Require Import gmap strings list fin_maps pretty.
From Stdlib Require Import ZArith NArith Lia.

Open Scope Z_scope.

(* ===================================================================== *)
(** * Part I: definitions                                                  *)
(* ===================================================================== *)

(** ** Decimal numbers: the part of bignumber.js the SDK uses

    A [BigNumber] is NaN, an infinity, or a finite signed decimal
    [± coef / 10^dp]; zero keeps its sign, as in the library.  The
    configuration is the library's default: [DECIMAL_PLACES = 20] and
    [ROUNDING_MODE = ROUND_HALF_UP], which govern [div] and [sqrt]; sums and
    products are exact.  The library's exponent limit (1e9) is not
    modelled. *)
Inductive BigNumber : Type :=
  | BNaN
  | BInfinity (neg : bool)
  | BFinite (neg : bool) (coef : N) (dp : N).

Definition DECIMAL_PLACES : N := 20.

(** [BigNumber(z)] for an integer [z]. *)
Definition bigOfZ (z : Z) : BigNumber := BFinite (z <? 0) (Z.abs_N z) 0.

(** The signed coefficient of a finite number. *)
Definition signed (neg : bool) (coef : N) : Z :=
  if neg then - Z.of_N coef else Z.of_N coef.

Definition isNaN (x : BigNumber) : bool :=
  match x with BNaN => true | _ => false end.

Definition isFinite (x : BigNumber) : bool :=
  match x with BFinite _ _ _ => true | _ => false end.

Definition isZero (x : BigNumber) : bool :=
  match x with BFinite _ c _ => (c =? 0)%N | _ => false end.

(** [isNegative] and [isPositive] look at the sign only: [-0] is negative,
    [0] is positive, NaN is neither. *)
Definition isNegative (x : BigNumber) : bool :=
  match x with BNaN => false | BInfinity s => s | BFinite s _ _ => s end.

Definition isPositive (x : BigNumber) : bool :=
  match x with BNaN => false | BInfinity s => negb s | BFinite s _ _ => negb s end.

(** [x.comparedTo(y)]: [None] (null) when either is NaN. *)
Definition comparedTo (x y : BigNumber) : option comparison :=
  match x, y with
  | BNaN, _ | _, BNaN => None
  | BInfinity sx, BInfinity sy =>
      Some (if sx then (if sy then Eq else Lt) else (if sy then Gt else Eq))
  | BInfinity sx, BFinite _ _ _ => Some (if sx then Lt else Gt)
  | BFinite _ _ _, BInfinity sy => Some (if sy then Gt else Lt)
  | BFinite sx cx dx, BFinite sy cy dy =>
      Some (signed sx cx * Z.of_N (10 ^ dy) ?= signed sy cy * Z.of_N (10 ^ dx))
  end.

Definition isGreaterThan (x y : BigNumber) : bool :=
  match comparedTo x y with Some Gt => true | _ => false end.

Definition isLessThan (x y : BigNumber) : bool :=
  match comparedTo x y with Some Lt => true | _ => false end.

Definition abs (x : BigNumber) : BigNumber :=
  match x with
  | BNaN => BNaN
  | BInfinity _ => BInfinity false
  | BFinite _ c d => BFinite false c d
  end.

(** [x.times(y)]: exact; NaN for [0 * Infinity]; the sign of the result is
    the product of the signs, also for a zero result. *)
Definition times (x y : BigNumber) : BigNumber :=
  match x, y with
  | BNaN, _ | _, BNaN => BNaN
  | BInfinity sx, BInfinity sy => BInfinity (xorb sx sy)
  | BInfinity sx, BFinite sy cy _ => if (cy =? 0)%N then BNaN else BInfinity (xorb sx sy)
  | BFinite sx cx _, BInfinity sy => if (cx =? 0)%N then BNaN else BInfinity (xorb sx sy)
  | BFinite sx cx dx, BFinite sy cy dy => BFinite (xorb sx sy) (cx * cy) (dx + dy)
  end.

(** [x.div(y)]: the quotient rounded half-up at [DECIMAL_PLACES] decimal
    places; NaN for [0/0] and [Infinity/Infinity], an infinity for a non-zero
    number over zero. *)
Definition div (x y : BigNumber) : BigNumber :=
  match x, y with
  | BNaN, _ | _, BNaN => BNaN
  | BInfinity _, BInfinity _ => BNaN
  | BInfinity sx, BFinite sy _ _ => BInfinity (xorb sx sy)
  | BFinite sx _ _, BInfinity sy => BFinite (xorb sx sy) 0 0
  | BFinite sx cx dx, BFinite sy cy dy =>
      if (cy =? 0)%N then
        if (cx =? 0)%N then BNaN else BInfinity (xorb sx sy)
      else if (cx =? 0)%N then BFinite (xorb sx sy) 0 0
      else
        let num := (cx * 10 ^ (DECIMAL_PLACES + dy))%N in
        let den := (cy * 10 ^ dx)%N in
        BFinite (xorb sx sy) ((2 * num + den) / (2 * den)) DECIMAL_PLACES
  end.

(** [x.minus(y)]: exact.  A zero difference is [+0], except [(-0) - (+0)]. *)
Definition minus (x y : BigNumber) : BigNumber :=
  match x, y with
  | BNaN, _ | _, BNaN => BNaN
  | BInfinity sx, BInfinity sy => if eqb sx sy then BNaN else BInfinity sx
  | BInfinity sx, BFinite _ _ _ => BInfinity sx
  | BFinite _ _ _, BInfinity sy => BInfinity (negb sy)
  | BFinite sx cx dx, BFinite sy cy dy =>
      let d := N.max dx dy in
      let v := signed sx cx * Z.of_N (10 ^ (d - dx)) - signed sy cy * Z.of_N (10 ^ (d - dy)) in
      if v =? 0
      then BFinite (sx && (cx =? 0)%N && negb sy && (cy =? 0)%N) 0 0
      else BFinite (v <? 0) (Z.abs_N v) d
  end.

(** [x.sqrt()]: the square root correctly rounded (half-up) at
    [DECIMAL_PLACES] decimal places; NaN for a negative number; a zero is
    returned as it is. *)
Definition sqrt (x : BigNumber) : BigNumber :=
  match x with
  | BNaN => BNaN
  | BInfinity s => if s then BNaN else BInfinity false
  | BFinite s c d =>
      if (c =? 0)%N then x
      else if s then BNaN
      else
        let num := (c * 10 ^ (2 * DECIMAL_PLACES - d))%N in
        let den := (10 ^ (d - 2 * DECIMAL_PLACES))%N in
        let r := N.sqrt (num / den) in
        let up := ((4 * r * r + 4 * r + 1) * den <=? 4 * num)%N in
        BFinite false (if up then r + 1 else r) DECIMAL_PLACES
  end.

(** [BigNumber(10).pow(n)] for an integer [n]: exact for [n >= 0]; for a
    negative [n] the library computes [10^|n|] and divides one by it. *)
Definition powTen (n : Z) : BigNumber :=
  if n <? 0 then div (bigOfZ 1) (BFinite false (10 ^ Z.to_N (- n)) 0)
  else BFinite false (10 ^ Z.to_N n) 0.

(** [BigNumber(x.toFixed(dp, BigNumber.ROUND_DOWN))]: the digits after the
    [dp]-th decimal place are dropped (rounding towards zero).  [toFixed]
    prints the sign of a number that was not zero, even if it rounds to
    zero, and no sign for a zero. *)
Definition toFixedRoundDown (dp : N) (x : BigNumber) : BigNumber :=
  match x with
  | BNaN => BNaN
  | BInfinity s => BInfinity s
  | BFinite s c d =>
      BFinite (s && negb (c =? 0)%N) (c * 10 ^ (dp - d) / 10 ^ (d - dp)) dp
  end.

(** The largest [dp] that [toFixed] accepts. *)
Definition MAX_DP : Z := 1000000000.

(** ** JavaScript values, completions and SDK errors *)

(** The values stored in a [Record<string, unknown>]: primitives, and the
    one kind of object the SDK puts there, a token class key. *)
Inductive JsValue : Type :=
  | VUndefined
  | VNull
  | VBool (b : bool)
  | VNum (z : Z)
  | VStr (s : string)
  | VBigNumber (b : BigNumber)
  | VClassKey (collection category type additionalKey : string).

(** [Record<string, unknown>] *)
Abbreviation JsRecord := (gmap string JsValue).

(** class GSwapSDKError extends Error: message, code, optional details. *)
Record GSwapSDKError : Type := mkError {
  message : string;
  code : string;
  details : option JsRecord;
}.

(** What a call can throw: an SDK error, or any other JavaScript error
    (for which [err instanceof GSwapSDKError] is false). *)
Inductive Thrown : Type :=
  | SdkError (e : GSwapSDKError)
  | OtherError (msg : string).

(** The completion of a call: a normal return or a throw. *)
Inductive Completion (A : Type) : Type :=
  | Return (a : A)
  | Throw (e : Thrown).
Arguments Return {A} a.
Arguments Throw {A} e.

(** Sequencing: a throw skips the rest. *)
#[global] Instance Completion_bind : MBind Completion := λ A B f c,
  match c with
  | Return a => f a
  | Throw e => Throw e
  end.

Definition isSdkErrorWithCode (c : string) (t : Thrown) : bool :=
  match t with
  | SdkError e => bool_decide (code e = c)
  | OtherError _ => false
  end.

(** GSwapSDKError.transactionWaitTimeoutError *)
Definition transactionWaitTimeoutError (txId : string) : GSwapSDKError :=
  mkError "Transaction wait timed out." "TRANSACTION_WAIT_TIMEOUT"
          (Some {[ "txId" := VStr txId ]}).

(** GSwapSDKError.transactionWaitFailedError: the details are
    [{ txId, transactionHash, ...rest }], [rest] being [detail] without its
    [transactionId] key; the spread comes last, so its keys win. *)
Definition transactionWaitFailedError (txId : string) (detail : JsRecord) : GSwapSDKError :=
  let transactionHash :=
    match detail !! "transactionId" with
    | Some (VStr h) => VStr h
    | _ => VUndefined
    end in
  let rest := delete "transactionId" detail in
  mkError "Transaction wait failed." "TRANSACTION_WAIT_FAILED"
          (Some (rest ∪ <["txId" := VStr txId]> {[ "transactionHash" := transactionHash ]})).

(** The two errors the waiter builds inline. *)
Definition transactionIdAlreadyRegisteredError (txId : string) : GSwapSDKError :=
  mkError "Transaction ID is already registered" "TRANSACTION_ID_ALREADY_REGISTERED"
          (Some {[ "txId" := VStr txId ]}).

Definition transactionIdNotRegisteredError (txId : string) : GSwapSDKError :=
  mkError "Transaction ID is not registered for waiting" "TRANSACTION_ID_NOT_REGISTERED"
          (Some {[ "txId" := VStr txId ]}).

(** ** The Outcome Registry: class TransactionWaiter (tx_waiter.ts) *)

(** The value an outcome promise resolves with. *)
Record WaitResult : Type := mkWaitResult {
  txId : string;
  transactionHash : string;
  Data : JsRecord;
}.

(** The [data] argument of [notifySuccess]. *)
Record SuccessData : Type := mkSuccessData {
  transactionId : string;
  successData : JsRecord;
}.

Inductive Settlement : Type :=
  | Fulfilled (r : WaitResult)
  | Rejected (e : GSwapSDKError).

(** A Promise object on the heap.  [settled] is its state ([None] while
    pending); [settleCalls] counts how often its [resolve] or [reject]
    function has been invoked.  As in JavaScript only the first invocation
    changes the state. *)
Record PromiseCell : Type := mkCell {
  settled : option Settlement;
  settleCalls : nat;
}.

(** A value of the map [promiseInfoForTxId].  [promise] is the address of the
    Promise object (whose [resolve]/[reject] functions the entry holds),
    [timeoutId] the handle returned by [setTimeout]. *)
Record PromiseInfo : Type := mkInfo {
  promise : nat;
  waited : bool;
  timeoutId : nat;
}.

(** The waiter object together with the part of the runtime it touches: the
    heap of Promise objects and the table of pending timers.  A pending timer
    remembers the [txId] its callback closes over and its delay. *)
Record State : Type := mkState {
  enabled : bool;
  promiseInfoForTxId : gmap string PromiseInfo;
  promises : gmap nat PromiseCell;
  timers : gmap nat (string * Z);
  nextPromise : nat;
  nextTimer : nat;
}.

(** [new TransactionWaiter()]: [enabled = false], an empty map. *)
Definition init : State := mkState false ∅ ∅ ∅ 0%nat 0%nat.

Definition withEnabled (b : bool) (s : State) : State :=
  mkState b (promiseInfoForTxId s) (promises s) (timers s) (nextPromise s) (nextTimer s).

Definition withInfos (m : gmap string PromiseInfo) (s : State) : State :=
  mkState (enabled s) m (promises s) (timers s) (nextPromise s) (nextTimer s).

Definition withPromises (h : gmap nat PromiseCell) (s : State) : State :=
  mkState (enabled s) (promiseInfoForTxId s) h (timers s) (nextPromise s) (nextTimer s).

Definition withTimers (t : gmap nat (string * Z)) (s : State) : State :=
  mkState (enabled s) (promiseInfoForTxId s) (promises s) t (nextPromise s) (nextTimer s).

(** Invoking the [resolve] / [reject] function of promise [p] with outcome
    [o]: the first invocation settles the promise, later ones are ignored by
    the runtime (they are still counted). *)
Definition settleCell (o : Settlement) (c : PromiseCell) : PromiseCell :=
  mkCell (match settled c with None => Some o | Some old => Some old end)
         (S (settleCalls c)).

Definition settle (p : nat) (o : Settlement) (s : State) : State :=
  withPromises (alter (settleCell o) p (promises s)) s.

Definition resolve (p : nat) (r : WaitResult) : State → State := settle p (Fulfilled r).
Definition reject (p : nat) (e : GSwapSDKError) : State → State := settle p (Rejected e).

(** [clearTimeout(id)] *)
Definition clearTimeout (t : nat) (s : State) : State :=
  withTimers (delete t (timers s)) s.

(** The message of the error used when the waiter is disabled. *)
Definition disabledDetail : JsRecord :=
  {[ "message" := VStr "Transaction waiter disabled" ]}.

(** The body of the [for ... of this.promiseInfoForTxId.entries()] loop of
    [setEnabled]. *)
Definition disableEntry (txId : string) (promiseInfo : PromiseInfo) (s : State) : State :=
  reject (promise promiseInfo) (transactionWaitFailedError txId disabledDetail)
         (clearTimeout (timeoutId promiseInfo) s).

(** [setEnabled(enabled)].  The loop visits every entry once; the visiting
    order (insertion order in JavaScript) does not influence the result. *)
Definition setEnabled (en : bool) (s : State) : State :=
  let s1 := withEnabled en s in
  if en then s1
  else withInfos ∅ (map_fold disableEntry s1 (promiseInfoForTxId s1)).

(** The best-effort result used for an outcome nobody waited for. *)
Definition echoResult (id : string) : WaitResult := mkWaitResult id id ∅.

(** The callback handed to [setTimeout] by [registerTxId]. *)
Definition timeoutCallback (id : string) (s : State) : State :=
  match promiseInfoForTxId s !! id with
  | Some promiseInfo =>
      let s1 :=
        if waited promiseInfo
        then reject (promise promiseInfo) (transactionWaitTimeoutError id) s
        else resolve (promise promiseInfo) (echoResult id) s in
      withInfos (delete id (promiseInfoForTxId s1)) s1
  | None => s
  end.

(** [registerTxId(txId, timeoutMs)] *)
Definition registerTxId (id : string) (timeoutMs : Z) (s : State) : Completion unit * State :=
  match promiseInfoForTxId s !! id with
  | Some _ => (Throw (SdkError (transactionIdAlreadyRegisteredError id)), s)
  | None =>
      if negb (enabled s) then (Return tt, s)
      else
        let p := nextPromise s in
        let t := nextTimer s in
        (Return tt,
         mkState (enabled s)
                 (<[id := mkInfo p false t]> (promiseInfoForTxId s))
                 (<[p := mkCell None 0]> (promises s))
                 (<[t := (id, timeoutMs)]> (timers s))
                 (S p) (S t))
  end.

(** [wait(txId)]: returns the promise of the entry. *)
Definition wait (id : string) (s : State) : Completion nat * State :=
  match promiseInfoForTxId s !! id with
  | None => (Throw (SdkError (transactionIdNotRegisteredError id)), s)
  | Some promiseInfo =>
      (Return (promise promiseInfo),
       withInfos (<[id := mkInfo (promise promiseInfo) true (timeoutId promiseInfo)]>
                    (promiseInfoForTxId s)) s)
  end.

(** [notifySuccess(txId, data)] *)
Definition notifySuccess (id : string) (data : SuccessData) (s : State) : State :=
  match promiseInfoForTxId s !! id with
  | None => s
  | Some promiseInfo =>
      let s1 := clearTimeout (timeoutId promiseInfo) s in
      let s2 := resolve (promise promiseInfo)
                        (mkWaitResult id (transactionId data) (successData data)) s1 in
      withInfos (delete id (promiseInfoForTxId s2)) s2
  end.

(** [notifyFailure(txId, detail)] *)
Definition notifyFailure (id : string) (detail : JsRecord) (s : State) : State :=
  match promiseInfoForTxId s !! id with
  | None => s
  | Some promiseInfo =>
      let s1 := clearTimeout (timeoutId promiseInfo) s in
      let s2 :=
        if waited promiseInfo
        then reject (promise promiseInfo) (transactionWaitFailedError id detail) s1
        else resolve (promise promiseInfo) (echoResult id) s1 in
      withInfos (delete id (promiseInfoForTxId s2)) s2
  end.

(** The runtime fires timer [t]: a pending timer is removed from the table
    and its callback runs; a cleared (or already fired) timer does nothing. *)
Definition fireTimer (t : nat) (s : State) : State :=
  match timers s !! t with
  | Some (id, _) => timeoutCallback id (withTimers (delete t (timers s)) s)
  | None => s
  end.

(** Everything that can happen to the registry. *)
Inductive Event : Type :=
  | EvSetEnabled (en : bool)
  | EvRegister (id : string) (timeoutMs : Z)
  | EvWait (id : string)
  | EvNotifySuccess (id : string) (data : SuccessData)
  | EvNotifyFailure (id : string) (detail : JsRecord)
  | EvTimer (t : nat).

(** One event; a call that throws leaves the state as it is. *)
Definition step (s : State) (ev : Event) : State :=
  match ev with
  | EvSetEnabled en => setEnabled en s
  | EvRegister id ms => snd (registerTxId id ms s)
  | EvWait id => snd (wait id s)
  | EvNotifySuccess id data => notifySuccess id data s
  | EvNotifyFailure id detail => notifyFailure id detail s
  | EvTimer t => fireTimer t s
  end.

Definition run (evs : list Event) (s : State) : State := fold_left step evs s.
Arguments run : simpl never.

(** The states the registry can be in. *)
Definition reachable (s : State) : Prop := ∃ evs, s = run evs init.

(** The events on one tracking id after its registration; [Timeout] is the
    firing of the timer started by that registration. *)
Inductive IdEvent : Type :=
  | Wait
  | NotifySuccess (data : SuccessData)
  | NotifyFailure (detail : JsRecord)
  | Timeout.

Definition isTerminal (e : IdEvent) : bool :=
  match e with
  | Wait => false
  | _ => true
  end.

Definition isWait (e : IdEvent) : bool :=
  match e with
  | Wait => true
  | _ => false
  end.

Definition toEvent (id : string) (t : nat) (e : IdEvent) : Event :=
  match e with
  | Wait => EvWait id
  | NotifySuccess data => EvNotifySuccess id data
  | NotifyFailure detail => EvNotifyFailure id detail
  | Timeout => EvTimer t
  end.

(** The table of section 4.5: how the outcome settles on a terminal event,
    depending on whether the caller has called [wait] before. *)
Definition expectedOutcome (id : string) (awaited : bool) (e : IdEvent) : Settlement :=
  match e with
  | NotifySuccess data => Fulfilled (mkWaitResult id (transactionId data) (successData data))
  | NotifyFailure detail =>
      if awaited then Rejected (transactionWaitFailedError id detail)
      else Fulfilled (echoResult id)
  | Timeout =>
      if awaited then Rejected (transactionWaitTimeoutError id)
      else Fulfilled (echoResult id)
  | Wait => Fulfilled (echoResult id)
  end.

(** The invariant of the registry that the proofs maintain:
    - a live entry owns a pending promise nobody has settled, and a pending
      timer whose callback closes over the entry's id;
    - two live entries never share a promise;
    - every promise was allocated, and its settle functions were invoked at
      most once (never, exactly when it is still pending);
    - every pending timer belongs to a live entry;
    - a disabled registry has no entries. *)
Record Inv (s : State) : Prop := mkInv {
  inv_live : ∀ id info, promiseInfoForTxId s !! id = Some info →
    promises s !! promise info = Some (mkCell None 0) ∧
    ∃ ms, timers s !! timeoutId info = Some (id, ms);
  inv_distinct : ∀ id1 id2 i1 i2,
    promiseInfoForTxId s !! id1 = Some i1 → promiseInfoForTxId s !! id2 = Some i2 →
    promise i1 = promise i2 → id1 = id2;
  inv_cells : ∀ p c, promises s !! p = Some c →
    (p < nextPromise s)%nat ∧ (settleCalls c ≤ 1)%nat ∧
    (settleCalls c = 0%nat ↔ settled c = None);
  inv_timers : ∀ t id ms, timers s !! t = Some (id, ms) →
    (t < nextTimer s)%nat ∧
    ∃ info, promiseInfoForTxId s !! id = Some info ∧ timeoutId info = t;
  inv_disabled : enabled s = false → promiseInfoForTxId s = ∅;
}.

(** The terminal transition of the entry [info] of [id] with outcome [o]:
    its timer leaves the table, its promise is settled, the entry is
    deleted.  Every path of the source that ends an entry has this shape. *)
Definition terminate (id : string) (info : PromiseInfo) (o : Settlement) (s : State) : State :=
  let s2 := settle (promise info) o (clearTimeout (timeoutId info) s) in
  withInfos (delete id (promiseInfoForTxId s2)) s2.

(** Two concrete histories, used to instantiate the theorems: a connected
    registry with one outstanding entry, and one with two entries of which
    the first is awaited. *)
Definition oneOutstanding : State :=
  run [EvSetEnabled true; EvRegister "tx-1" 30000] init.

Definition twoOutstanding : State :=
  run [EvSetEnabled true; EvRegister "tx-1" 30000; EvRegister "tx-2" 500; EvWait "tx-1"] init.

(** ** Token Canonicalizer (src/utils/token.ts) *)

(** interface GalaChainTokenClassKey *)
Record GalaChainTokenClassKey : Type := mkClassKey {
  collection : string;
  category : string;
  type : string;
  additionalKey : string;
}.

(** A token argument: [GalaChainTokenClassKey | string]. *)
Inductive Token : Type :=
  | TokenString (s : string)
  | TokenKey (k : GalaChainTokenClassKey).

(** [stringifyTokenClassKey(tokenClassKey, separator = '|')] *)
Definition stringifyTokenClassKey (tokenClassKey : Token) (separator : string) : string :=
  match tokenClassKey with
  | TokenString s => s
  | TokenKey k =>
      collection k +:+ separator +:+ category k +:+ separator +:+ type k
        +:+ separator +:+ additionalKey k
  end.

Definition tokenValue (t : Token) : JsValue :=
  match t with
  | TokenString s => VStr s
  | TokenKey k => VClassKey (collection k) (category k) (type k) (additionalKey k)
  end.

(** GSwapSDKError.incorrectTokenOrderingError *)
Definition incorrectTokenOrderingError (specifiedToken0 specifiedToken1 : Token) : GSwapSDKError :=
  mkError "Token ordering is incorrect. token0 should sort below token1."
          "INCORRECT_TOKEN_ORDERING"
          (Some (<["specifiedToken0" := tokenValue specifiedToken0]>
                   {[ "specifiedToken1" := tokenValue specifiedToken1 ]})).

(** The object [getTokenOrdering] returns. *)
Record TokenOrdering (A : Type) : Type := mkOrdering {
  token0 : Token;
  token1 : Token;
  zeroForOne : bool;
  token0Attributes : A;
  token1Attributes : A;
}.
Arguments mkOrdering {A}.
Arguments token0 {A}.
Arguments token1 {A}.
Arguments zeroForOne {A}.
Arguments token0Attributes {A}.
Arguments token1Attributes {A}.

Section TokenOrderingCode.

(** [String.prototype.localeCompare] is the platform's collation: it is not
    part of the SDK, and the code only looks at the sign of its result. *)
Variable localeCompare : string → string → Z.

(** [compareTokens(first, second)] *)
Definition compareTokens (first second : Token) : Z :=
  localeCompare (stringifyTokenClassKey first "|") (stringifyTokenClassKey second "|").

(** [getTokenOrdering(first, second, assertCorrectness, token1Data, token2Data)] *)
Definition getTokenOrdering {A : Type} (first second : Token) (assertCorrectness : bool)
    (token1Data token2Data : A) : Completion (TokenOrdering A) :=
  let zeroForOne := compareTokens first second <? 0 in
  if zeroForOne then
    Return (mkOrdering first second zeroForOne token1Data token2Data)
  else if assertCorrectness then
    Throw (SdkError (incorrectTokenOrderingError first second))
  else
    Return (mkOrdering second first zeroForOne token2Data token1Data).

End TokenOrderingCode.

(** A collation to run the code with: code-unit lexicographic comparison. *)
Definition codeUnitCompare (a b : string) : Z :=
  match String.compare a b with
  | Lt => -1
  | Eq => 0
  | Gt => 1
  end.

(** Two different class keys with the same canonical string. *)
Definition keyAB_C : Token := TokenKey (mkClassKey "A|B" "C" "none" "none").
Definition keyA_BC : Token := TokenKey (mkClassKey "A" "B|C" "none" "none").

(** ** Input validation (src/utils/validation.ts)

    A numeric argument ([string | number | BigNumber]) is represented by the
    decimal [BigNumber(argument)] the functions start by building; an integer
    argument ([number]) by a [Z] -- a non-integer number fails the
    [Number.isInteger] checks. *)

Definition validationError (msg : string) (d : JsRecord) : Thrown :=
  SdkError (mkError msg "VALIDATION_ERROR" (Some d)).

Definition numericAmountDetails (parameterName : string) (amount : BigNumber)
    (reason : string) : JsRecord :=
  <["type" := VStr "INVALID_NUMERIC_AMOUNT"]>
    (<["parameterName" := VStr parameterName]>
      (<["value" := VBigNumber amount]> {[ "reason" := VStr reason ]})).

(** [validateNumericAmount(amount, parameterName, allowZero = false)] *)
Definition validateNumericAmount (amount : BigNumber) (parameterName : string)
    (allowZero : bool) : Completion unit :=
  let bnAmount := amount in
  if negb (isFinite bnAmount) then
    Throw (validationError ("Invalid " +:+ parameterName +:+ ": must be a finite number")
             (numericAmountDetails parameterName amount "not_finite"))
  else if negb allowZero && isZero bnAmount then
    Throw (validationError ("Invalid " +:+ parameterName +:+ ": must be positive")
             (numericAmountDetails parameterName amount "zero_not_allowed"))
  else if isNegative bnAmount then
    Throw (validationError
             ("Invalid " +:+ parameterName +:+ ": must be "
                +:+ (if allowZero then "non-negative" else "positive"))
             (numericAmountDetails parameterName amount "negative"))
  else Return tt.

(** [BigNumber(1e18)], the ceiling that stands in for an unbounded upper
    price. *)
Definition upperPriceCeiling : BigNumber := BFinite false (10 ^ 18) 0.

(** [validatePriceValues(spotPrice, lowerPrice, upperPrice)] *)
Definition validatePriceValues (spotPrice lowerPrice upperPrice : BigNumber) : Completion unit :=
  let bnSpotPrice := spotPrice in
  let bnLowerPrice := lowerPrice in
  let bnUpperPrice := if isFinite upperPrice then upperPrice else upperPriceCeiling in
  if negb (isFinite bnSpotPrice) || negb (isFinite bnLowerPrice) || negb (isFinite bnUpperPrice)
     || negb (isPositive bnSpotPrice) || negb (isPositive bnLowerPrice)
     || negb (isPositive bnUpperPrice)
  then
    Throw (validationError "Invalid price values: all prices must be finite and positive"
             (<["type" := VStr "INVALID_PRICE_VALUES"]>
               (<["spotPrice" := VBigNumber spotPrice]>
                 (<["lowerPrice" := VBigNumber lowerPrice]>
                   {[ "upperPrice" := VBigNumber upperPrice ]}))))
  else if isGreaterThan bnLowerPrice bnUpperPrice then
    Throw (validationError
             "Invalid price range: lower price must be less than or equal to upper price"
             (<["type" := VStr "INVALID_PRICE_RANGE"]>
               (<["lowerPrice" := VBigNumber lowerPrice]>
                 {[ "upperPrice" := VBigNumber upperPrice ]})))
  else Return tt.

(** [validateTokenDecimals(decimals, parameterName)] *)
Definition validateTokenDecimals (decimals : Z) (parameterName : string) : Completion unit :=
  if decimals <? 0 then
    Throw (validationError
             ("Invalid " +:+ parameterName +:+ ": must be a non-negative integer")
             (<["type" := VStr "INVALID_TOKEN_DECIMALS"]>
               (<["parameterName" := VStr parameterName]> {[ "value" := VNum decimals ]})))
  else Return tt.

(** [validateTickSpacing(tickSpacing)] *)
Definition validateTickSpacing (tickSpacing : Z) : Completion unit :=
  if tickSpacing <=? 0 then
    Throw (validationError "Invalid tick spacing: must be a positive integer"
             (<["type" := VStr "INVALID_TICK_SPACING"]> {[ "value" := VNum tickSpacing ]}))
  else Return tt.

(** ** Tick/Price Converter: class Pools (src/classes/pools.ts) *)

(** A JavaScript number: NaN, an infinity, a signed zero, or a non-zero
    double [± mantissa * 2^exponent]. *)
Inductive JsNumber : Type :=
  | NumNaN
  | NumInfinity (neg : bool)
  | NumZero (neg : bool)
  | NumDouble (neg : bool) (mantissa : positive) (exponent : Z).

Definition MIN_TICK : Z := -886800.
Definition MAX_TICK : Z := 886800.

Section PoolsCode.

(** The floating-point steps are parameters of the model:
    - [nearestDouble neg coef dp] is the double nearest to the non-zero
      decimal [± coef / 10^dp] (a zero or an infinity when it is out of the
      range of doubles);
    - [roundedLogRatio p] is the integer
      [Math.round(Math.log(p) / Math.log(1.0001))] of a positive double [p];
    - [numberPowTick tick] is [BigNumber(Math.pow(1.0001, tick))]. *)
Variable nearestDouble : bool → N → N → JsNumber.
Variable roundedLogRatio : JsNumber → Z.
Variable numberPowTick : Z → BigNumber.

(** [x.toNumber()] *)
Definition toNumber (x : BigNumber) : JsNumber :=
  match x with
  | BNaN => NumNaN
  | BInfinity s => NumInfinity s
  | BFinite s c d => if (c =? 0)%N then NumZero s else nearestDouble s c d
  end.

(** [calculateTicksForPrice(price, tickSpacing)].  On integers
    [Math.floor(a / b) * b] is computed exactly. *)
Definition calculateTicksForPrice (price : BigNumber) (tickSpacing : Z) : Completion Z :=
  _ ← validateNumericAmount price "price" true;
  _ ← validateTickSpacing tickSpacing;
  let priceNumber := toNumber price in
  match priceNumber with
  | NumZero _ => Return (-886800)
  | NumInfinity false => Return 886800
  | _ =>
      let uncoercedTicks := roundedLogRatio priceNumber in
      let ticks := uncoercedTicks / tickSpacing * tickSpacing in
      Return (Z.min (Z.max ticks (-886800)) 886800)
  end.

(** [calculatePriceForTicks(tick)] *)
Definition calculatePriceForTicks (tick : Z) : BigNumber :=
  if tick =? -886800 then BFinite false 0 0
  else if tick =? 886800 then BInfinity false
  else numberPowTick tick.

End PoolsCode.

(** ** Quote Aggregator: class Quoting (src/classes/quoting.ts) *)

(** enum FEE_TIER *)
Inductive FEE_TIER : Type :=
  | PERCENT_00_05
  | PERCENT_00_30
  | PERCENT_01_00.

Definition feeValue (f : FEE_TIER) : Z :=
  match f with
  | PERCENT_00_05 => 500
  | PERCENT_00_30 => 3000
  | PERCENT_01_00 => 10000
  end.

(** interface GetQuoteResult *)
Record GetQuoteResult : Type := mkQuote {
  amount0 : BigNumber;
  amount1 : BigNumber;
  currentPoolSqrtPrice : BigNumber;
  newPoolSqrtPrice : BigNumber;
  inTokenAmount : BigNumber;
  outTokenAmount : BigNumber;
  currentPrice : BigNumber;
  newPrice : BigNumber;
  priceImpact : BigNumber;
  feeTier : Z;
}.

(** GSwapSDKError.noPoolAvailableError *)
Definition noPoolAvailableError (tokenIn tokenOut : Token) (fee : option Z) : GSwapSDKError :=
  let message :=
    match fee with
    | Some f => "No pool available for the specified token pair at fee tier " +:+ pretty f
    | None => "No pools available for the specified token pair"
    end in
  mkError message "NO_POOL_AVAILABLE"
          (Some (<["tokenIn" := tokenValue tokenIn]>
                  (<["tokenOut" := tokenValue tokenOut]>
                    {[ "fee" := match fee with Some f => VNum f | None => VUndefined end ]}))).

(** The test of the [catch] clause:
    [err instanceof GSwapSDKError &&
     (err.code === 'CONFLICT' || err.code === 'OBJECT_NOT_FOUND')]. *)
Definition isPoolAbsent (err : Thrown) : bool :=
  isSdkErrorWithCode "CONFLICT" err || isSdkErrorWithCode "OBJECT_NOT_FOUND" err.

(** [Promise.all] over promises that have settled at the given times: it
    rejects with the reason of the promise that rejected first (the earlier
    index on equal times), and otherwise fulfils with the values in index
    order. *)
Fixpoint firstRejection {A} (l : list (nat * Completion A)) : option (nat * Thrown) :=
  match l with
  | [] => None
  | (t, Throw e) :: rest =>
      match firstRejection rest with
      | Some (t', e') => if (t' <? t)%nat then Some (t', e') else Some (t, e)
      | None => Some (t, e)
      end
  | (_, Return _) :: rest => firstRejection rest
  end.

Fixpoint fulfilledValues {A} (l : list (nat * Completion A)) : list A :=
  match l with
  | [] => []
  | (_, Return a) :: rest => a :: fulfilledValues rest
  | (_, Throw _) :: rest => fulfilledValues rest
  end.

Definition promiseAll {A} (l : list (nat * Completion A)) : Completion (list A) :=
  match firstRejection l with
  | Some (_, e) => Throw e
  | None => Return (fulfilledValues l)
  end.

(** [array.reduce(f)] without an initial value, on a non-empty array. *)
Definition reduce {A} (f : A → A → A) (first : A) (rest : list A) : A :=
  fold_left f rest first.

(** [results.filter((quote) => quote !== undefined)] *)
Definition definedQuotes (results : list (option GetQuoteResult)) : list GetQuoteResult :=
  omap id results.

Section QuotingCode.

(** The request for one fee tier, [getSingleQuote(tokenIn, tokenOut, fee,
    amount, isExactInput)], goes to the network and to the pricing oracle:
    its completion is a parameter, and so is the time at which the request of
    each tier settles. *)
Variable getSingleQuote : Token → Token → FEE_TIER → BigNumber → bool → Completion GetQuoteResult.
Variable settlesAt : FEE_TIER → nat.

Definition getSingleQuoteExactInput (tokenIn tokenOut : Token) (fee : FEE_TIER)
    (amountIn : BigNumber) : Completion GetQuoteResult :=
  getSingleQuote tokenIn tokenOut fee amountIn true.

Definition getSingleQuoteExactOutput (tokenIn tokenOut : Token) (amountOut : BigNumber)
    (fee : FEE_TIER) : Completion GetQuoteResult :=
  getSingleQuote tokenIn tokenOut fee amountOut false.

(** The body of the [allFees.map(async (feeTier) => { try ... catch ... })]
    callback, given the completion of the tier's request. *)
Definition catchPoolAbsent (request : Completion GetQuoteResult)
    : Completion (option GetQuoteResult) :=
  match request with
  | Return quote => Return (Some quote)
  | Throw err => if isPoolAbsent err then Return None else Throw err
  end.

Definition allFees : list FEE_TIER := [PERCENT_00_05; PERCENT_00_30; PERCENT_01_00].

(** [quoteExactInput(tokenIn, tokenOut, amountIn, fee?)] *)
Definition quoteExactInput (tokenIn tokenOut : Token) (amountIn : BigNumber)
    (fee : option FEE_TIER) : Completion GetQuoteResult :=
  _ ← validateNumericAmount amountIn "amountIn" false;
  match fee with
  | Some fee => getSingleQuoteExactInput tokenIn tokenOut fee amountIn
  | None =>
      let quotePromises :=
        map (λ feeTier,
               (settlesAt feeTier,
                catchPoolAbsent (getSingleQuoteExactInput tokenIn tokenOut feeTier amountIn)))
            allFees in
      results ← promiseAll quotePromises;
      match definedQuotes results with
      | [] => Throw (SdkError (noPoolAvailableError tokenIn tokenOut None))
      | first :: rest =>
          Return (reduce (λ best current,
                            if isGreaterThan (outTokenAmount current) (outTokenAmount best)
                            then current else best) first rest)
      end
  end.

(** [quoteExactOutput(tokenIn, tokenOut, amountOut, fee?)] *)
Definition quoteExactOutput (tokenIn tokenOut : Token) (amountOut : BigNumber)
    (fee : option FEE_TIER) : Completion GetQuoteResult :=
  _ ← validateNumericAmount amountOut "amountOut" false;
  match fee with
  | Some fee => getSingleQuoteExactOutput tokenIn tokenOut amountOut fee
  | None =>
      let quotePromises :=
        map (λ feeTier,
               (settlesAt feeTier,
                catchPoolAbsent (getSingleQuoteExactOutput tokenIn tokenOut amountOut feeTier)))
            allFees in
      results ← promiseAll quotePromises;
      match definedQuotes results with
      | [] => Throw (SdkError (noPoolAvailableError tokenIn tokenOut None))
      | first :: rest =>
          Return (reduce (λ best current,
                            if isLessThan (inTokenAmount current) (inTokenAmount best)
                            then current else best) first rest)
      end
  end.

End QuotingCode.

(** ** Paired-liquidity amounts: Positions.calculateOptimalPositionSize
       (src/classes/positions.ts) *)

Section PositionsCode.

(** [numberPowTen n] is [BigNumber(10 ** n)]: the power is computed in
    floating point before it becomes a decimal. *)
Variable numberPowTen : Z → BigNumber.

(** [calculateOptimalPositionSize(tokenAmount, spotPrice, lowerPrice,
    upperPrice, tokenDecimals, otherTokenDecimals)] *)
Definition calculateOptimalPositionSize (tokenAmount spotPrice lowerPrice upperPrice : BigNumber)
    (tokenDecimals otherTokenDecimals : Z) : Completion BigNumber :=
  _ ← validateNumericAmount tokenAmount "tokenAmount" false;
  _ ← validatePriceValues spotPrice lowerPrice upperPrice;
  _ ← validateTokenDecimals tokenDecimals "tokenDecimals";
  _ ← validateTokenDecimals otherTokenDecimals "otherTokenDecimals";
  let bnTokenAmount := tokenAmount in
  let bnSpotPrice := spotPrice in
  let bnLowerPrice := lowerPrice in
  let bnUpperPrice := if isFinite upperPrice then upperPrice else upperPriceCeiling in
  let liquidityAmount :=
    div (times (times (times bnTokenAmount (numberPowTen (tokenDecimals - otherTokenDecimals)))
                      (sqrt bnSpotPrice))
               (sqrt bnUpperPrice))
        (minus (sqrt bnUpperPrice) (sqrt bnSpotPrice)) in
  let yAmount := times liquidityAmount (minus (sqrt bnSpotPrice) (sqrt bnLowerPrice)) in
  let untruncated := div yAmount (powTen (tokenDecimals - otherTokenDecimals)) in
  if MAX_DP <? otherTokenDecimals
  then Throw (OtherError "[BigNumber Error] Argument out of range")
  else Return (toFixedRoundDown (Z.to_N otherTokenDecimals) untruncated).

End PositionsCode.





(** Decimal literals used in the examples: [BigNumber("0.5")] and so on. *)
Definition decimal (coef dp : N) : BigNumber := BFinite false coef dp.

(** The quotes among the completions of the per-tier requests, in the order
    of the tiers. *)
Definition returnedQuotes (requests : list (Completion GetQuoteResult)) : list GetQuoteResult :=
  omap (λ r, match r with Return q => Some q | Throw _ => None end) requests.

(** A request that either returned a quote or failed with a pool-absent
    error. *)
Definition quoteOrAbsent (r : Completion GetQuoteResult) : Prop :=
  match r with
  | Return _ => True
  | Throw e => isPoolAbsent e = true
  end.

(** The part that [quoteExactInput] and [quoteExactOutput] have in common
    when no fee tier is given: the per-tier requests are caught, awaited
    together, filtered, and reduced with [pick]. *)
Definition bestOfAllTiers (settlesAt : FEE_TIER → nat)
    (pick : GetQuoteResult → GetQuoteResult → GetQuoteResult)
    (tokenIn tokenOut : Token) (request : FEE_TIER → Completion GetQuoteResult)
    (tiers : list FEE_TIER) : Completion GetQuoteResult :=
  results ← promiseAll (map (λ feeTier, (settlesAt feeTier, catchPoolAbsent (request feeTier)))
                            tiers);
  match definedQuotes results with
  | [] => Throw (SdkError (noPoolAvailableError tokenIn tokenOut None))
  | first :: rest => Return (reduce pick first rest)
  end.

(** The two reducers. *)
Definition pickGreatestOutput (best current : GetQuoteResult) : GetQuoteResult :=
  if isGreaterThan (outTokenAmount current) (outTokenAmount best) then current else best.

Definition pickLeastInput (best current : GetQuoteResult) : GetQuoteResult :=
  if isLessThan (inTokenAmount current) (inTokenAmount best) then current else best.

(** Quotes to run the aggregator on: only the amounts differ. *)
Definition quoteWith (inAmount outAmount : Z) (fee : FEE_TIER) : GetQuoteResult :=
  mkQuote (bigOfZ inAmount) (bigOfZ (- outAmount)) (bigOfZ 1) (bigOfZ 1)
          (bigOfZ inAmount) (bigOfZ outAmount) (bigOfZ 1) (bigOfZ 1) (bigOfZ 0)
          (feeValue fee).

Definition objectNotFound : Thrown :=
  SdkError (mkError "GalaChain Error OBJECT_NOT_FOUND" "OBJECT_NOT_FOUND" None).

(** Exact input: the tiers quote outputs 10, 12 and 12.  Exact output: they
    need inputs 18, 22 and 18.  Each time two tiers tie on the best amount. *)
Definition tiedRequests (tokenIn tokenOut : Token) (fee : FEE_TIER) (amount : BigNumber)
    (isExactInput : bool) : Completion GetQuoteResult :=
  match fee with
  | PERCENT_00_05 => Return (if isExactInput then quoteWith 5 10 fee else quoteWith 18 7 fee)
  | PERCENT_00_30 => Return (if isExactInput then quoteWith 5 12 fee else quoteWith 22 7 fee)
  | PERCENT_01_00 => Return (if isExactInput then quoteWith 5 12 fee else quoteWith 18 7 fee)
  end.

(** A quote built from a gateway answer whose amounts were not numbers. *)
Definition quoteWithoutAmounts (fee : FEE_TIER) : GetQuoteResult :=
  mkQuote BNaN BNaN (bigOfZ 1) (bigOfZ 1) BNaN BNaN (bigOfZ 1) (bigOfZ 1) (bigOfZ 0)
          (feeValue fee).

(** Tier 0.05% answers without numbers, tier 0.30% quotes output 10 for
    input 5, tier 1.00% has no pool. *)
Definition amountsMissing (tokenIn tokenOut : Token) (fee : FEE_TIER) (amount : BigNumber)
    (isExactInput : bool) : Completion GetQuoteResult :=
  match fee with
  | PERCENT_00_05 => Return (quoteWithoutAmounts fee)
  | PERCENT_00_30 => Return (quoteWith 5 10 fee)
  | PERCENT_01_00 => Throw objectNotFound
  end.

(** No tier has a pool. *)
Definition noPools (tokenIn tokenOut : Token) (fee : FEE_TIER) (amount : BigNumber)
    (isExactInput : bool) : Completion GetQuoteResult :=
  Throw objectNotFound.

(** The 0.30% tier answers with an HTTP error, after the others. *)
Definition httpError : Thrown :=
  SdkError (mkError "Unexpected HTTP Error 500" "HTTP_ERROR" None).

Definition oneTierFails (tokenIn tokenOut : Token) (fee : FEE_TIER) (amount : BigNumber)
    (isExactInput : bool) : Completion GetQuoteResult :=
  match fee with
  | PERCENT_00_05 => Throw objectNotFound
  | PERCENT_00_30 => Throw httpError
  | PERCENT_01_00 => Return (quoteWith 5 12 fee)
  end.

Definition tierOrder (fee : FEE_TIER) : nat :=
  match fee with
  | PERCENT_00_05 => 1
  | PERCENT_00_30 => 3
  | PERCENT_01_00 => 2
  end.

(** ** Confirmation Channel: class Events (src/classes/events.ts) *)

(** GSwapSDKError.noSignerError and .socketConnectionRequiredError *)
Definition noSignerError : GSwapSDKError :=
  mkError "This method requires a signer. Please provide a signer to the GSwap constructor."
          "NO_SIGNER" None.

Definition socketConnectionRequiredError : GSwapSDKError :=
  mkError "This method requires a socket connection. Did you call connectSocket()?"
          "SOCKET_CONNECTION_REQUIRED" None.

(** A message of the confirmation transport, by its [status]: the two the
    handler acts on carry the [data] it forwards; any other status (PENDING
    included) is only logged. *)
Inductive BundlerResponse : Type :=
  | PROCESSED (data : SuccessData)
  | FAILED (data : JsRecord)
  | OTHER (status : string).

Module Events.

(** The promise held in [connectionPromise]: still pending, or rejected.
    (A fulfilled one is never held: the field is cleared by the call that
    awaited it.) *)
Inductive Attempt : Type :=
  | Pending
  | Failed (reason : Thrown).

(** The [Events] object, and what [isConnected()] answers for each client
    constructed so far.  Clients are named by the order of construction. *)
Record t : Type := mk {
  globalSocketClient : option nat;
  globalWaitHelper : State;
  connectionPromise : option (nat * Attempt);
  isConnected : gmap nat bool;
  nextClient : nat;
}.

(** [new Events()] *)
Definition instance : t := mk None init None ∅ 0%nat.

Definition withWaitHelper (w : State) (ev : t) : t :=
  mk (globalSocketClient ev) w (connectionPromise ev) (isConnected ev) (nextClient ev).

(** [eventSocketConnected()] *)
Definition eventSocketConnected (ev : t) : bool :=
  match globalSocketClient ev with
  | Some c => default false (isConnected ev !! c)
  | None => false
  end.

(** What a call of [connectEventSocket] does before it first suspends. *)
Inductive ConnectCall : Type :=
  | ReturnsStoredPromise (client : nat) (a : Attempt)
  | ReturnsClient (client : nat)
  | StartsAttempt (client : nat).

(** [connectEventSocket()], up to its [await]: a stored promise is returned
    as it is; a connected client is returned; otherwise a client is
    constructed and the promise of its connection is stored. *)
Definition connectEventSocket (ev : t) : ConnectCall * t :=
  match connectionPromise ev with
  | Some (c, a) => (ReturnsStoredPromise c a, ev)
  | None =>
      match globalSocketClient ev with
      | Some c =>
          if default false (isConnected ev !! c) then (ReturnsClient c, ev)
          else
            let client := nextClient ev in
            (StartsAttempt client,
             mk (globalSocketClient ev) (globalWaitHelper ev) (Some (client, Pending))
                (<[client := false]> (isConnected ev)) (S client))
      | None =>
          let client := nextClient ev in
          (StartsAttempt client,
           mk (globalSocketClient ev) (globalWaitHelper ev) (Some (client, Pending))
              (<[client := false]> (isConnected ev)) (S client))
      end
  end.

(** The pending attempt settles and the call that started it resumes after
    its [await].  On success the client is installed, the field is cleared
    and the waiter enabled; on failure the call throws at the [await], so the
    rejected promise stays in [connectionPromise]. *)
Definition connectSettles (outcome : Completion unit) (ev : t) : t :=
  match connectionPromise ev with
  | Some (client, Pending) =>
      match outcome with
      | Return _ =>
          mk (Some client) (setEnabled true (globalWaitHelper ev)) None
             (<[client := true]> (isConnected ev)) (nextClient ev)
      | Throw reason =>
          mk (globalSocketClient ev) (globalWaitHelper ev) (Some (client, Failed reason))
             (isConnected ev) (nextClient ev)
      end
  | _ => ev
  end.

(** The transport drops the connection of a client by itself. *)
Definition socketDrops (client : nat) (ev : t) : t :=
  mk (globalSocketClient ev) (globalWaitHelper ev) (connectionPromise ev)
     (<[client := false]> (isConnected ev)) (nextClient ev).

(** [disconnectEventSocket()] *)
Definition disconnectEventSocket (ev : t) : t :=
  match globalSocketClient ev with
  | Some c =>
      mk None (setEnabled false (globalWaitHelper ev)) (connectionPromise ev)
         (<[c := false]> (isConnected ev)) (nextClient ev)
  | None => ev
  end.

(** [registerTxId(txId, timeoutMs)] *)
Definition registerTxId (id : string) (timeoutMs : Z) (ev : t) : Completion unit * t :=
  let '(r, w) := registerTxId id timeoutMs (globalWaitHelper ev) in
  (r, withWaitHelper w ev).

(** [wait(txId)] *)
Definition wait (id : string) (ev : t) : Completion nat * t :=
  if negb (eventSocketConnected ev)
  then (Throw (SdkError socketConnectionRequiredError), ev)
  else let '(r, w) := wait id (globalWaitHelper ev) in (r, withWaitHelper w ev).

(** [internalHandleSocketMessage(txId, response)] *)
Definition internalHandleSocketMessage (id : string) (response : BundlerResponse) (ev : t) : t :=
  match response with
  | PROCESSED data => withWaitHelper (notifySuccess id data (globalWaitHelper ev)) ev
  | FAILED data => withWaitHelper (notifyFailure id data (globalWaitHelper ev)) ev
  | OTHER _ => ev
  end.

(** Everything that can happen to the channel. *)
Inductive Event : Type :=
  | Connect
  | ConnectSettles (outcome : Completion unit)
  | SocketDrops (client : nat)
  | Disconnect
  | Register (id : string) (timeoutMs : Z)
  | Wait (id : string)
  | Message (id : string) (response : BundlerResponse)
  | Timer (timer : nat).

Definition step (ev : t) (e : Event) : t :=
  match e with
  | Connect => snd (connectEventSocket ev)
  | ConnectSettles outcome => connectSettles outcome ev
  | SocketDrops c => socketDrops c ev
  | Disconnect => disconnectEventSocket ev
  | Register id ms => snd (registerTxId id ms ev)
  | Wait id => snd (wait id ev)
  | Message id response => internalHandleSocketMessage id response ev
  | Timer timer => withWaitHelper (fireTimer timer (globalWaitHelper ev)) ev
  end.

Definition run (es : list Event) (ev : t) : t := fold_left step es ev.
Arguments run : simpl never.

Definition reachable (ev : t) : Prop := ∃ es, ev = run es instance.

End Events.

(** ** Submission Gateway: class Bundler (src/classes/bundler.ts) and
       class PendingTransaction (src/classes/pending_transaction.ts) *)

Module TransactionPendingResponse.
(** interface TransactionPendingResponse: [data] is the tracking id. *)
Record t : Type := mk {
  data : string;
  message : string;
  error : bool;
}.
End TransactionPendingResponse.

Module PendingTransaction.
(** class PendingTransaction; its [waitDelegate] is always
    [() => Events.instance.wait(response.data)]. *)
Record t : Type := mk {
  transactionId : string;
  message : string;
  error : bool;
}.

(** [wait()] *)
Definition wait (tx : t) (ev : Events.t) : Completion nat * Events.t :=
  Events.wait (transactionId tx) ev.
End PendingTransaction.

Module Bundler.

(** [sendBundlerRequest(method, body, stringsInstructions)] on the shared
    [Events] instance.  Signing and the HTTP request are external: [signing]
    is the completion of [signer.signObject], [posting] that of
    [httpClient.sendPostRequest]. *)
Definition sendBundlerRequest (hasSigner : bool) (transactionWaitTimeoutMs : Z)
    (signing : Completion unit) (posting : Completion TransactionPendingResponse.t)
    (ev : Events.t) : Completion PendingTransaction.t * Events.t :=
  if negb hasSigner then (Throw (SdkError noSignerError), ev)
  else
    match signing with
    | Throw e => (Throw e, ev)
    | Return _ =>
        match posting with
        | Throw e => (Throw e, ev)
        | Return response =>
            match Events.registerTxId (TransactionPendingResponse.data response)
                    transactionWaitTimeoutMs ev with
            | (Throw e, ev') => (Throw e, ev')
            | (Return _, ev') =>
                (Return (PendingTransaction.mk
                           (TransactionPendingResponse.data response)
                           (TransactionPendingResponse.message response)
                           (TransactionPendingResponse.error response)), ev')
            end
        end
    end.

End Bundler.

(** A channel whose socket is connected, for the examples. *)
Definition connectedChannel : Events.t :=
  Events.run [Events.Connect; Events.ConnectSettles (Return tt)] Events.instance.

Definition examplePosting : Completion TransactionPendingResponse.t :=
  Return (TransactionPendingResponse.mk "tx-9" "Transaction submitted" false).

(** ** Parsing token class keys (src/utils/token.ts) *)

(** [s.split(sep)] for a one-character separator: the pieces between the
    separators, at least one. *)
Fixpoint split (sep : Ascii.ascii) (s : string) : list string :=
  match s with
  | EmptyString => [EmptyString]
  | String c rest =>
      if Ascii.eqb c sep then EmptyString :: split sep rest
      else match split sep rest with
           | piece :: pieces => String c piece :: pieces
           | [] => [String c EmptyString]
           end
  end.

(** [pieces.join(sep)] *)
Fixpoint join (sep : Ascii.ascii) (pieces : list string) : string :=
  match pieces with
  | [] => EmptyString
  | [piece] => piece
  | piece :: rest => piece +:+ String sep (join sep rest)
  end.

Fixpoint contains (c : Ascii.ascii) (s : string) : bool :=
  match s with
  | EmptyString => false
  | String c' rest => Ascii.eqb c' c || contains c rest
  end.

(** The character ['|'] (code 124). *)
Definition pipe : Ascii.ascii := Ascii.Ascii false false true true true true true false.

(** [!s] for a string [s]: only the empty string is falsy. *)
Definition isEmptyString (s : string) : bool :=
  match s with
  | EmptyString => true
  | String _ _ => false
  end.

Definition invalidTokenClassKeyError (tokenClassKey : string) : GSwapSDKError :=
  mkError "Invalid token class key" "INVALID_TOKEN_CLASS_KEY"
          (Some {[ "tokenClassKey" := VStr tokenClassKey ]}).

(** [parseTokenClassKey(tokenClassKey)]: an object is copied field by field;
    a string is split at ['|'] and its first four pieces are taken, each of
    which must exist and be non-empty. *)
Definition parseTokenClassKey (tokenClassKey : Token) : Completion GalaChainTokenClassKey :=
  match tokenClassKey with
  | TokenKey k => Return (mkClassKey (collection k) (category k) (type k) (additionalKey k))
  | TokenString s =>
      match split pipe s with
      | collection :: category :: type :: additionalKey :: _ =>
          if isEmptyString collection || isEmptyString category || isEmptyString type
             || isEmptyString additionalKey
          then Throw (SdkError (invalidTokenClassKeyError s))
          else Return (mkClassKey collection category type additionalKey)
      | _ => Throw (SdkError (invalidTokenClassKeyError s))
      end
  end.

(** A class key whose fields can be written in the string form: none is
    empty, none contains the separator. *)
Definition plainField (s : string) : bool :=
  negb (isEmptyString s) && negb (contains pipe s).

Definition plainKey (k : GalaChainTokenClassKey) : bool :=
  plainField (collection k) && plainField (category k) && plainField (type k)
  && plainField (additionalKey k).

(** ** More of the Tick/Price Converter and of the validation *)

Section SpotPriceCode.

Variable localeCompare : string → string → Z.

(** [calculateSpotPrice(inToken, outToken, poolSqrtPrice)];
    [BigNumber(x).pow(2)] is the exact square. *)
Definition calculateSpotPrice (inToken outToken : Token) (poolSqrtPrice : BigNumber)
    : Completion BigNumber :=
  _ ← validateNumericAmount poolSqrtPrice "poolSqrtPrice" false;
  ordering ← getTokenOrdering localeCompare inToken outToken false tt tt;
  let poolPrice := times poolSqrtPrice poolSqrtPrice in
  if zeroForOne ordering then Return poolPrice
  else Return (div (bigOfZ 1) poolPrice).

End SpotPriceCode.

(** [validateTickRange(tickLower, tickUpper)], on integers. *)
Definition validateTickRange (tickLower tickUpper : Z) : Completion unit :=
  if tickUpper <=? tickLower then
    Throw (validationError "Invalid tick range: tickLower must be less than tickUpper"
             (<["type" := VStr "INVALID_TICK_RANGE"]>
               (<["tickLower" := VNum tickLower]> {[ "tickUpper" := VNum tickUpper ]})))
  else if (tickLower <? -886800) || (886800 <? tickUpper) then
    Throw (validationError "Invalid tick range: ticks must be between -886800 and 886800"
             (<["type" := VStr "INVALID_TICK_BOUNDS"]>
               (<["tickLower" := VNum tickLower]>
                 (<["tickUpper" := VNum tickUpper]>
                   (<["minTick" := VNum (-886800)]> {[ "maxTick" := VNum 886800 ]})))))
  else Return tt.

(** [validateFee(fee)], on integers. *)
Definition validateFee (fee : Z) : Completion unit :=
  if fee <? 0 then
    Throw (validationError "Invalid fee: must be a non-negative integer"
             (<["type" := VStr "INVALID_FEE"]> {[ "value" := VNum fee ]}))
  else Return tt.

(** The [type] entry of the details of a validation error. *)
Definition validationType {A} (c : Completion A) : option JsValue :=
  match c with
  | Throw (SdkError e) => d ← details e; d !! "type"
  | _ => None
  end.

(** [validateWalletAddress(address)].  [String.prototype.trim] is the
    platform's; the code only asks whether its result is empty. *)
Definition validateWalletAddress (trim : string → string) (address : option string)
    : Completion unit :=
  match address with
  | None =>
      Throw (validationError "No wallet address provided"
               (<["type" := VStr "MISSING_WALLET_ADDRESS"]>
                 {[ "hint" := VStr "Either provide a wallet address to the function you are calling, or set one when instantiating GSwapSDK" ]}))
  | Some a =>
      if isEmptyString a || isEmptyString (trim a) then
        Throw (validationError "Invalid wallet address: must be a non-empty string"
                 (<["type" := VStr "INVALID_WALLET_ADDRESS"]> {[ "value" := VStr a ]}))
      else Return tt
  end.

(** [x ?? y] on optional values. *)
Definition nullish {A : Type} (x y : option A) : option A :=
  match x with
  | Some a => Some a
  | None => y
  end.

(** [`${x}`] for an optional string: [undefined] prints as "undefined". *)
Definition templateString (x : option string) : string :=
  match x with
  | Some s => s
  | None => "undefined"
  end.

(** ** One tier's quote: Quoting.getSingleQuote (src/classes/quoting.ts) *)

Module QuoteExactAmountResponse.
(** interface QuoteExactAmountResponse *)
Record t : Type := mk {
  amount0 : BigNumber;
  amount1 : BigNumber;
  currentSqrtPrice : BigNumber;
  newSqrtPrice : BigNumber;
}.
End QuoteExactAmountResponse.

Module QuoteExactAmountRequest.
(** The body of the [/QuoteExactAmount] request: the fields of the ordering,
    the fee and the amount (sent as the decimal string [toFixed()] prints). *)
Record t : Type := mk {
  ordering : TokenOrdering unit;
  fee : FEE_TIER;
  amount : BigNumber;
}.
End QuoteExactAmountRequest.

Section SingleQuoteCode.

Variable localeCompare : string → string → Z.

(** [sendQuoteRequest('/QuoteExactAmount', body)]: the HTTP exchange with the
    gateway; it returns the response's four numbers or throws. *)
Variable sendQuoteRequest : QuoteExactAmountRequest.t → Completion QuoteExactAmountResponse.t.

(** [getSingleQuote(tokenIn, tokenOut, fee, amount, isExactInput)] *)
Definition getSingleQuote (tokenIn tokenOut : Token) (fee : FEE_TIER) (amount : BigNumber)
    (isExactInput : bool) : Completion GetQuoteResult :=
  tokenInClass ← parseTokenClassKey tokenIn;
  tokenOutClass ← parseTokenClassKey tokenOut;
  ordering ← getTokenOrdering localeCompare (TokenKey tokenInClass) (TokenKey tokenOutClass)
                false tt tt;
  let formattedAmount := if isExactInput then amount else times amount (bigOfZ (-1)) in
  response ← sendQuoteRequest (QuoteExactAmountRequest.mk ordering fee formattedAmount);
  let tokenInAmount :=
    if zeroForOne ordering then QuoteExactAmountResponse.amount0 response
    else QuoteExactAmountResponse.amount1 response in
  let tokenOutAmount :=
    if zeroForOne ordering then QuoteExactAmountResponse.amount1 response
    else QuoteExactAmountResponse.amount0 response in
  let currentPrice :=
    times (QuoteExactAmountResponse.currentSqrtPrice response)
          (QuoteExactAmountResponse.currentSqrtPrice response) in
  let newPrice :=
    times (QuoteExactAmountResponse.newSqrtPrice response)
          (QuoteExactAmountResponse.newSqrtPrice response) in
  let currentPrice :=
    if negb (zeroForOne ordering) then div (bigOfZ 1) currentPrice else currentPrice in
  let newPrice :=
    if negb (zeroForOne ordering) then div (bigOfZ 1) newPrice else newPrice in
  let priceImpact := div (minus newPrice currentPrice) currentPrice in
  Return (mkQuote (QuoteExactAmountResponse.amount0 response)
                  (QuoteExactAmountResponse.amount1 response)
                  (QuoteExactAmountResponse.currentSqrtPrice response)
                  (QuoteExactAmountResponse.newSqrtPrice response)
                  (abs tokenInAmount) (abs tokenOutAmount)
                  currentPrice newPrice priceImpact (feeValue fee)).

End SingleQuoteCode.

(** A token argument whose string form is the one of its parsed class key:
    every object, and every string of exactly four non-empty pieces. *)
Definition canonicalToken (t : Token) : bool :=
  match parseTokenClassKey t with
  | Return k => String.eqb (stringifyTokenClassKey (TokenKey k) "|") (stringifyTokenClassKey t "|")
  | Throw _ => false
  end.

(** ** Swaps.swap (src/classes/swaps.ts) *)

Definition MIN_SQRT_PRICE_LIMIT : string := "0.000000000000000000094212147".
Definition MAX_SQRT_PRICE_LIMIT : string := "18446050999999999999".

(** The [amount] argument of [swap]:
    [{ exactIn, amountOutMinimum? } | { exactOut, amountInMaximum? }]. *)
Inductive SwapAmount : Type :=
  | ExactIn (exactIn : BigNumber) (amountOutMinimum : option BigNumber)
  | ExactOut (exactOut : BigNumber) (amountInMaximum : option BigNumber).

Module SwapDto.
(** The object [toSign] of [swap]; the amounts are sent as strings. *)
Record t : Type := mk {
  token0 : GalaChainTokenClassKey;
  token1 : GalaChainTokenClassKey;
  fee : Z;
  amount : BigNumber;
  zeroForOne : bool;
  sqrtPriceLimit : string;
  recipient : string;
  amountOutMinimum : option BigNumber;
  amountInMaximum : option BigNumber;
}.
End SwapDto.

Section SwapsCode.

Context {R : Type}.
Variable localeCompare : string → string → Z.
Variable trim : string → string.

(** [this.bundlerService.sendBundlerRequest(method, toSign, stringsInstructions)] *)
Variable sendBundlerRequest : string → SwapDto.t → list string → Completion R.

(** [swap(walletAddress, tokenIn, tokenOut, fee, amount)] *)
Definition swap (walletAddress : string) (tokenIn tokenOut : Token) (fee : Z)
    (amount : SwapAmount) : Completion R :=
  _ ← validateWalletAddress trim (Some walletAddress);
  _ ← validateFee fee;
  _ ← match amount with
      | ExactIn exactIn amountOutMinimum =>
          _ ← validateNumericAmount exactIn "exactIn" false;
          match amountOutMinimum with
          | Some m => validateNumericAmount m "amountOutMinimum" true
          | None => Return tt
          end
      | ExactOut exactOut amountInMaximum =>
          _ ← validateNumericAmount exactOut "exactOut" false;
          match amountInMaximum with
          | Some m => validateNumericAmount m "amountInMaximum" false
          | None => Return tt
          end
      end;
  ordering ← getTokenOrdering localeCompare tokenIn tokenOut false tt tt;
  let zeroForOne' :=
    String.eqb (stringifyTokenClassKey tokenIn "|")
               (stringifyTokenClassKey (token0 ordering) "|") in
  let rawAmount :=
    match amount with
    | ExactIn exactIn _ => exactIn
    | ExactOut exactOut _ => times exactOut (bigOfZ (-1))
    end in
  let rawAmountOutMinimum :=
    match amount with
    | ExactIn _ (Some m) => Some (times m (bigOfZ (-1)))
    | ExactIn _ None => None
    | ExactOut exactOut _ => Some (times exactOut (bigOfZ (-1)))
    end in
  let rawAmountInMaximum :=
    match amount with
    | ExactIn exactIn _ => Some exactIn
    | ExactOut _ amountInMaximum => amountInMaximum
    end in
  token0Class ← parseTokenClassKey (token0 ordering);
  token1Class ← parseTokenClassKey (token1 ordering);
  let toSign :=
    SwapDto.mk token0Class token1Class fee rawAmount zeroForOne'
      (if zeroForOne ordering then MIN_SQRT_PRICE_LIMIT else MAX_SQRT_PRICE_LIMIT)
      walletAddress rawAmountOutMinimum rawAmountInMaximum in
  let token0StringKey := stringifyTokenClassKey (token0 ordering) "$" in
  let token1StringKey := stringifyTokenClassKey (token1 ordering) "$" in
  let poolString :=
    "$pool$" +:+ token0StringKey +:+ "$" +:+ token1StringKey +:+ "$" +:+ pretty fee in
  let tokenBalance0 := "$tokenBalance$" +:+ token0StringKey +:+ "$" +:+ walletAddress in
  let tokenBalance1 := "$tokenBalance$" +:+ token1StringKey +:+ "$" +:+ walletAddress in
  let tokenBalance0Pool := "$tokenBalance$" +:+ token0StringKey +:+ "$" +:+ poolString in
  let tokenBalance1Pool := "$tokenBalance$" +:+ token1StringKey +:+ "$" +:+ poolString in
  let stringsInstructions :=
    [poolString; tokenBalance0; tokenBalance1; tokenBalance0Pool; tokenBalance1Pool] in
  sendBundlerRequest "Swap" toSign stringsInstructions.

End SwapsCode.

(** A bundler service that hands back the call it was given. *)
Definition recordCall {P : Type} (method : string) (toSign : P) (stringsInstructions : list string)
    : Completion (string * P * list string) :=
  Return (method, toSign, stringsInstructions).

(** ** Adding liquidity: Positions.addLiquidityByTicks and
       Positions.addLiquidityByPrice (src/classes/positions.ts) *)

Module AddLiquidityByTicksArgs.
Record t : Type := mk {
  walletAddress : option string;
  positionId : string;
  token0 : Token;
  token1 : Token;
  fee : Z;
  tickLower : Z;
  tickUpper : Z;
  amount0Desired : BigNumber;
  amount1Desired : BigNumber;
  amount0Min : BigNumber;
  amount1Min : BigNumber;
}.
End AddLiquidityByTicksArgs.

Module AddLiquidityByPriceArgs.
Record t : Type := mk {
  walletAddress : option string;
  positionId : string;
  token0 : Token;
  token1 : Token;
  fee : Z;
  tickSpacing : Z;
  minPrice : BigNumber;
  maxPrice : BigNumber;
  amount0Desired : BigNumber;
  amount1Desired : BigNumber;
  amount0Min : BigNumber;
  amount1Min : BigNumber;
}.
End AddLiquidityByPriceArgs.

Module AddLiquidityDto.
(** The object [toSign] of the two functions; the amounts are sent as
    strings. *)
Record t : Type := mk {
  token0 : Token;
  token1 : Token;
  fee : Z;
  owner : option string;
  tickLower : Z;
  tickUpper : Z;
  amount0Desired : BigNumber;
  amount1Desired : BigNumber;
  amount0Min : BigNumber;
  amount1Min : BigNumber;
  positionId : string;
}.
End AddLiquidityDto.

Section AddLiquidityCode.

Context {R : Type}.
Variable localeCompare : string → string → Z.
Variable trim : string → string.
Variable nearestDouble : bool → N → N → JsNumber.
Variable roundedLogRatio : JsNumber → Z.

(** [this.options?.walletAddress] *)
Variable defaultWalletAddress : option string.

(** [this.bundlerService.sendBundlerRequest(method, toSign, stringsInstructions)] *)
Variable sendBundlerRequest : string → AddLiquidityDto.t → list string → Completion R.

(** The [stringsInstructions] both functions build. *)
Definition liquidityInstructions (token0 token1 : Token) (fee : Z)
    (walletAddress : option string) : list string :=
  let token0StringKey := stringifyTokenClassKey token0 "$" in
  let token1StringKey := stringifyTokenClassKey token1 "$" in
  let poolString :=
    "$pool$" +:+ token0StringKey +:+ "$" +:+ token1StringKey +:+ "$" +:+ pretty fee in
  let userPositionString := "$userPosition$" +:+ templateString walletAddress in
  let tokenBalance0 :=
    "$tokenBalance$" +:+ token0StringKey +:+ "$" +:+ templateString walletAddress in
  let tokenBalance1 :=
    "$tokenBalance$" +:+ token1StringKey +:+ "$" +:+ templateString walletAddress in
  let tokenBalance0Pool := "$tokenBalance$" +:+ token0StringKey +:+ "$" +:+ poolString in
  let tokenBalance1Pool := "$tokenBalance$" +:+ token1StringKey +:+ "$" +:+ poolString in
  [poolString; userPositionString; tokenBalance0; tokenBalance1; tokenBalance0Pool;
   tokenBalance1Pool].

(** [addLiquidityByTicks(args)] *)
Definition addLiquidityByTicks (args : AddLiquidityByTicksArgs.t) : Completion R :=
  let walletAddress :=
    nullish (AddLiquidityByTicksArgs.walletAddress args) defaultWalletAddress in
  _ ← validateWalletAddress trim walletAddress;
  _ ← validateFee (AddLiquidityByTicksArgs.fee args);
  _ ← validateTickRange (AddLiquidityByTicksArgs.tickLower args)
                        (AddLiquidityByTicksArgs.tickUpper args);
  _ ← validateNumericAmount (AddLiquidityByTicksArgs.amount0Desired args) "amount0Desired" false;
  _ ← validateNumericAmount (AddLiquidityByTicksArgs.amount1Desired args) "amount1Desired" false;
  _ ← validateNumericAmount (AddLiquidityByTicksArgs.amount0Min args) "amount0Min" true;
  _ ← validateNumericAmount (AddLiquidityByTicksArgs.amount1Min args) "amount1Min" true;
  token0TokenClassKey ← parseTokenClassKey (AddLiquidityByTicksArgs.token0 args);
  token1TokenClassKey ← parseTokenClassKey (AddLiquidityByTicksArgs.token1 args);
  ordering ← getTokenOrdering localeCompare (TokenKey token0TokenClassKey)
                (TokenKey token1TokenClassKey) true
                (AddLiquidityByTicksArgs.amount0Desired args, AddLiquidityByTicksArgs.amount0Min args)
                (AddLiquidityByTicksArgs.amount1Desired args, AddLiquidityByTicksArgs.amount1Min args);
  let toSign :=
    AddLiquidityDto.mk (token0 ordering) (token1 ordering) (AddLiquidityByTicksArgs.fee args)
      (AddLiquidityByTicksArgs.walletAddress args)
      (AddLiquidityByTicksArgs.tickLower args) (AddLiquidityByTicksArgs.tickUpper args)
      (fst (token0Attributes ordering)) (fst (token1Attributes ordering))
      (snd (token0Attributes ordering)) (snd (token1Attributes ordering))
      (AddLiquidityByTicksArgs.positionId args) in
  sendBundlerRequest "AddLiquidity" toSign
    (liquidityInstructions (token0 ordering) (token1 ordering) (AddLiquidityByTicksArgs.fee args)
       (AddLiquidityByTicksArgs.walletAddress args)).

(** [addLiquidityByPrice(args)] *)
Definition addLiquidityByPrice (args : AddLiquidityByPriceArgs.t) : Completion R :=
  let walletAddress :=
    nullish (AddLiquidityByPriceArgs.walletAddress args) defaultWalletAddress in
  _ ← validateWalletAddress trim walletAddress;
  _ ← validateFee (AddLiquidityByPriceArgs.fee args);
  _ ← validateTickSpacing (AddLiquidityByPriceArgs.tickSpacing args);
  _ ← validateNumericAmount (AddLiquidityByPriceArgs.minPrice args) "minPrice" true;
  _ ← validateNumericAmount (AddLiquidityByPriceArgs.maxPrice args) "maxPrice" false;
  _ ← validateNumericAmount (AddLiquidityByPriceArgs.amount0Desired args) "amount0Desired" false;
  _ ← validateNumericAmount (AddLiquidityByPriceArgs.amount1Desired args) "amount1Desired" false;
  _ ← validateNumericAmount (AddLiquidityByPriceArgs.amount0Min args) "amount0Min" true;
  _ ← validateNumericAmount (AddLiquidityByPriceArgs.amount1Min args) "amount1Min" true;
  if isGreaterThan (AddLiquidityByPriceArgs.minPrice args) (AddLiquidityByPriceArgs.maxPrice args)
  then Throw (OtherError "Invalid price range: minPrice must be less than or equal to maxPrice")
  else
  token0TokenClassKey ← parseTokenClassKey (AddLiquidityByPriceArgs.token0 args);
  token1TokenClassKey ← parseTokenClassKey (AddLiquidityByPriceArgs.token1 args);
  ordering ← getTokenOrdering localeCompare (TokenKey token0TokenClassKey)
                (TokenKey token1TokenClassKey) true
                (AddLiquidityByPriceArgs.amount0Desired args, AddLiquidityByPriceArgs.amount0Min args)
                (AddLiquidityByPriceArgs.amount1Desired args, AddLiquidityByPriceArgs.amount1Min args);
  minPriceTicks ← calculateTicksForPrice nearestDouble roundedLogRatio
                     (AddLiquidityByPriceArgs.minPrice args)
                     (AddLiquidityByPriceArgs.tickSpacing args);
  maxPriceTicks ← calculateTicksForPrice nearestDouble roundedLogRatio
                     (AddLiquidityByPriceArgs.maxPrice args)
                     (AddLiquidityByPriceArgs.tickSpacing args);
  let tickLower := if zeroForOne ordering then minPriceTicks else maxPriceTicks * -1 in
  let tickUpper := if zeroForOne ordering then maxPriceTicks else minPriceTicks * -1 in
  let toSign :=
    AddLiquidityDto.mk (token0 ordering) (token1 ordering) (AddLiquidityByPriceArgs.fee args)
      (AddLiquidityByPriceArgs.walletAddress args) tickLower tickUpper
      (fst (token0Attributes ordering)) (fst (token1Attributes ordering))
      (snd (token0Attributes ordering)) (snd (token1Attributes ordering))
      (AddLiquidityByPriceArgs.positionId args) in
  sendBundlerRequest "AddLiquidity" toSign
    (liquidityInstructions (token0 ordering) (token1 ordering) (AddLiquidityByPriceArgs.fee args)
       (AddLiquidityByPriceArgs.walletAddress args)).

End AddLiquidityCode.

(** A gateway answer for the examples: 100 of token0 in, 45 of token1 out,
    square-root price 2.5 before and 2.4 after. *)
Definition exampleResponse (request : QuoteExactAmountRequest.t)
    : Completion QuoteExactAmountResponse.t :=
  Return (QuoteExactAmountResponse.mk (bigOfZ 100) (bigOfZ (-45)) (decimal 25 1) (decimal 24 1)).

(** Arguments for the examples: 100 GALA and 50 SILK between two prices,
    for a wallet given in the call or left to the SDK's default. *)
Definition exampleByPrice (walletAddress : option string) (minPrice maxPrice : BigNumber)
    : AddLiquidityByPriceArgs.t :=
  AddLiquidityByPriceArgs.mk walletAddress "" (TokenString "GALA|Unit|none|none")
    (TokenString "SILK|Unit|none|none") 500 200 minPrice maxPrice
    (bigOfZ 100) (bigOfZ 50) (bigOfZ 95) (decimal 475 1).

(* ===================================================================== *)
(** * Part II: theorems                                                    *)
(* ===================================================================== *)

(** ** The Outcome Registry *)

Section WaiterInvariant.

Lemma Inv_init : Inv init.
Proof.
  split; simpl; intros; try done; by rewrite ?lookup_empty in *.
Qed.

Lemma Inv_registerTxId id ms s : Inv s → Inv (snd (registerTxId id ms s)).
Proof.
  intros HI. unfold registerTxId.
  destruct (promiseInfoForTxId s !! id) as [old|] eqn:Hid; [done|].
  destruct (enabled s) eqn:Hen; simpl; [|done].
  assert (Hfresh : ∀ id' info, promiseInfoForTxId s !! id' = Some info →
            promise info ≠ nextPromise s ∧ timeoutId info ≠ nextTimer s ∧ id' ≠ id).
  { intros id' info Hl. destruct (inv_live s HI _ _ Hl) as [Hp [ms' Ht]].
    apply (inv_cells s HI) in Hp as [Hp _]. apply (inv_timers s HI) in Ht as [Ht _].
    repeat split; try lia. intros ->. congruence. }
  split; simpl.
  - intros id' info Hl. apply lookup_insert_Some in Hl as [[<- <-]|[Hne Hl]]; simpl.
    + rewrite !lookup_insert_eq. eauto.
    + destruct (Hfresh _ _ Hl) as (Hp & Ht & _).
      rewrite !lookup_insert_ne by done. by apply (inv_live s HI).
  - intros id1 id2 i1 i2 H1 H2 Hp.
    apply lookup_insert_Some in H1 as [[<- <-]|[Hne1 H1]];
      apply lookup_insert_Some in H2 as [[<- <-]|[Hne2 H2]]; simpl in *; try done.
    + destruct (Hfresh _ _ H2) as (? & _). congruence.
    + destruct (Hfresh _ _ H1) as (? & _). congruence.
    + by apply (inv_distinct s HI _ _ _ _ H1 H2).
  - intros p c Hl. apply lookup_insert_Some in Hl as [[<- <-]|[Hne Hl]]; simpl.
    + repeat split; auto with lia.
    + destruct (inv_cells s HI _ _ Hl) as (? & ? & ?). repeat split; auto with lia; tauto.
  - intros t id' ms' Hl. apply lookup_insert_Some in Hl as [[<- Heq]|[Hne Hl]].
    + injection Heq as <- <-. split; [lia|]. exists (mkInfo (nextPromise s) false (nextTimer s)).
      by rewrite lookup_insert_eq.
    + destruct (inv_timers s HI _ _ _ Hl) as (? & info & Hi & Ht). split; [lia|].
      exists info. split; [|done]. rewrite lookup_insert_ne; [done|]. intros <-. congruence.
  - congruence.
Qed.

Lemma Inv_wait id s : Inv s → Inv (snd (wait id s)).
Proof.
  intros HI. unfold wait.
  destruct (promiseInfoForTxId s !! id) as [info|] eqn:Hid; [|done]. simpl.
  split; simpl.
  - intros id' info' Hl. apply lookup_insert_Some in Hl as [[<- <-]|[Hne Hl]]; simpl.
    + by apply (inv_live s HI).
    + by apply (inv_live s HI).
  - intros id1 id2 i1 i2 H1 H2 Hp.
    apply lookup_insert_Some in H1 as [[<- <-]|[Hne1 H1]];
      apply lookup_insert_Some in H2 as [[<- <-]|[Hne2 H2]]; simpl in *; try done.
    + by apply (inv_distinct s HI _ _ _ _ Hid H2).
    + by apply (inv_distinct s HI _ _ _ _ H1 Hid).
    + by apply (inv_distinct s HI _ _ _ _ H1 H2).
  - apply (inv_cells s HI).
  - intros t id' ms Hl. destruct (inv_timers s HI _ _ _ Hl) as (? & info' & Hi & Ht).
    split; [done|]. destruct (decide (id' = id)) as [->|Hne].
    + rewrite lookup_insert_eq. eexists; split; [done|]. simpl. congruence.
    + rewrite lookup_insert_ne by done. eauto.
  - intros Hen. apply (inv_disabled s HI) in Hen. rewrite Hen in Hid.
    by rewrite lookup_empty in Hid.
Qed.

Lemma Inv_terminate id info o s :
  Inv s → promiseInfoForTxId s !! id = Some info → Inv (terminate id info o s).
Proof.
  intros HI Hid. destruct (inv_live s HI _ _ Hid) as [Hcell [ms0 Htimer]].
  split; simpl.
  - intros id' info' Hl. apply lookup_delete_Some in Hl as [Hne Hl].
    destruct (inv_live s HI _ _ Hl) as [Hp [ms' Ht]]. split.
    + rewrite lookup_alter_ne; [done|]. intros Heq.
      apply Hne. by apply (inv_distinct s HI _ _ _ _ Hid Hl).
    + exists ms'. rewrite lookup_delete_ne; [done|]. intros Heq.
      rewrite Heq in Htimer. congruence.
  - intros id1 id2 i1 i2 H1 H2.
    apply lookup_delete_Some in H1 as [_ H1]. apply lookup_delete_Some in H2 as [_ H2].
    by apply (inv_distinct s HI).
  - intros p c Hl. destruct (decide (promise info = p)) as [<-|Hne].
    + rewrite lookup_alter_eq, Hcell in Hl. injection Hl as <-. simpl.
      apply (inv_cells s HI) in Hcell as [? _]. repeat split; auto with lia; done.
    + rewrite lookup_alter_ne in Hl by done. by apply (inv_cells s HI).
  - intros t id' ms Hl. apply lookup_delete_Some in Hl as [Hne Hl].
    destruct (inv_timers s HI _ _ _ Hl) as (? & info' & Hi & Ht). split; [done|].
    exists info'. split; [|done]. rewrite lookup_delete_ne; [done|].
    intros <-. assert (info' = info) by congruence. subst. done.
  - intros Hen. apply (inv_disabled s HI) in Hen. rewrite Hen in Hid.
    by rewrite lookup_empty in Hid.
Qed.

End WaiterInvariant.

Section WaiterSteps.

(** The three paths that end an entry are instances of [terminate]. *)
Lemma notifySuccess_live id data info s :
  promiseInfoForTxId s !! id = Some info →
  notifySuccess id data s =
    terminate id info (Fulfilled (mkWaitResult id (transactionId data) (successData data))) s.
Proof. intros H. unfold notifySuccess. by rewrite H. Qed.

Lemma notifyFailure_live id detail info s :
  promiseInfoForTxId s !! id = Some info →
  notifyFailure id detail s =
    terminate id info (if waited info then Rejected (transactionWaitFailedError id detail)
                       else Fulfilled (echoResult id)) s.
Proof. intros H. unfold notifyFailure. rewrite H. by destruct (waited info). Qed.

Lemma fireTimer_live t id ms info s :
  timers s !! t = Some (id, ms) →
  promiseInfoForTxId s !! id = Some info → timeoutId info = t →
  fireTimer t s =
    terminate id info (if waited info then Rejected (transactionWaitTimeoutError id)
                       else Fulfilled (echoResult id)) s.
Proof.
  intros Ht Hid <-. unfold fireTimer, timeoutCallback. rewrite Ht. simpl. rewrite Hid.
  by destruct (waited info).
Qed.

(** Events for an id without a live entry do nothing. *)
Lemma notifySuccess_absent id data s :
  promiseInfoForTxId s !! id = None → notifySuccess id data s = s.
Proof. intros H. unfold notifySuccess. by rewrite H. Qed.

Lemma notifyFailure_absent id detail s :
  promiseInfoForTxId s !! id = None → notifyFailure id detail s = s.
Proof. intros H. unfold notifyFailure. by rewrite H. Qed.

Lemma timeoutCallback_absent id s :
  promiseInfoForTxId s !! id = None → timeoutCallback id s = s.
Proof. intros H. unfold timeoutCallback. by rewrite H. Qed.

Lemma fireTimer_absent t s : timers s !! t = None → fireTimer t s = s.
Proof. intros H. unfold fireTimer. by rewrite H. Qed.

Lemma wait_absent id s :
  promiseInfoForTxId s !! id = None →
  wait id s = (Throw (SdkError (transactionIdNotRegisteredError id)), s).
Proof. intros H. unfold wait. by rewrite H. Qed.

(** What the loop of [setEnabled(false)] does to the heap and to the timer
    table, entry by entry. *)
Lemma disable_loop s :
  Inv s →
  let r := map_fold disableEntry (withEnabled false s) (promiseInfoForTxId s) in
  enabled r = false ∧ nextPromise r = nextPromise s ∧ nextTimer r = nextTimer s ∧
  (∀ t, (∀ id info, promiseInfoForTxId s !! id = Some info → timeoutId info ≠ t) →
        timers r !! t = timers s !! t) ∧
  (∀ id info, promiseInfoForTxId s !! id = Some info → timers r !! timeoutId info = None) ∧
  (∀ p, (∀ id info, promiseInfoForTxId s !! id = Some info → promise info ≠ p) →
        promises r !! p = promises s !! p) ∧
  (∀ id info, promiseInfoForTxId s !! id = Some info →
        promises r !! promise info =
          Some (mkCell (Some (Rejected (transactionWaitFailedError id disabledDetail))) 1)).
Proof.
  intros HI.
  set (m0 := promiseInfoForTxId s).
  set (P := λ (r : State) (m : gmap string PromiseInfo), m ⊆ m0 →
    enabled r = false ∧ nextPromise r = nextPromise s ∧ nextTimer r = nextTimer s ∧
    (∀ t, (∀ id info, m !! id = Some info → timeoutId info ≠ t) →
          timers r !! t = timers s !! t) ∧
    (∀ id info, m !! id = Some info → timers r !! timeoutId info = None) ∧
    (∀ p, (∀ id info, m !! id = Some info → promise info ≠ p) →
          promises r !! p = promises s !! p) ∧
    (∀ id info, m !! id = Some info →
          promises r !! promise info =
            Some (mkCell (Some (Rejected (transactionWaitFailedError id disabledDetail))) 1))).
  assert (HP : ∀ m, P (map_fold disableEntry (withEnabled false s) m) m).
  { apply map_fold_weak_ind; unfold P.
    - intros _. simpl. repeat split; try done; intros * H; by rewrite lookup_empty in H.
    - intros i x m r Hi IH Hsub.
      assert (Hm : m ⊆ m0).
      { etrans; [|exact Hsub]. by apply insert_subseteq. }
      assert (Hx : m0 !! i = Some x).
      { eapply lookup_weaken; [|exact Hsub]. by rewrite lookup_insert_eq. }
      destruct (IH Hm) as (He & Hnp & Hnt & Ht1 & Ht2 & Hp1 & Hp2). clear IH.
      simpl. repeat split; try done.
      + intros t Hno. assert (timeoutId x ≠ t).
        { apply (Hno i). by rewrite lookup_insert_eq. }
        rewrite lookup_delete_ne by done. apply Ht1. intros id info Hl.
        apply (Hno id). rewrite lookup_insert_ne; [done|]. intros <-. congruence.
      + intros id info Hl. apply lookup_insert_Some in Hl as [[<- <-]|[Hne Hl]].
        * by rewrite lookup_delete_eq.
        * apply lookup_delete_None. right. by apply (Ht2 id).
      + intros p Hno. assert (promise x ≠ p).
        { apply (Hno i). by rewrite lookup_insert_eq. }
        rewrite lookup_alter_ne by done. apply Hp1. intros id info Hl.
        apply (Hno id). rewrite lookup_insert_ne; [done|]. intros <-. congruence.
      + assert (Hxfresh : ∀ id info, m !! id = Some info → promise info ≠ promise x).
        { intros id info Hl Heq.
          assert (id = i); [|congruence].
          eapply (inv_distinct s HI); [|exact Hx|exact Heq].
          by eapply lookup_weaken. }
        intros id info Hl. apply lookup_insert_Some in Hl as [[<- <-]|[Hne Hl]].
        * rewrite lookup_alter_eq, (Hp1 _ Hxfresh).
          destruct (inv_live s HI _ _ Hx) as [-> _]. done.
        * rewrite lookup_alter_ne; [by apply (Hp2 id)|].
          intros Heq. by apply (Hxfresh _ _ Hl). }
  intros r. by apply (HP m0).
Qed.

Lemma setEnabled_true s : setEnabled true s = withEnabled true s.
Proof. done. Qed.

Lemma Inv_setEnabled en s : Inv s → Inv (setEnabled en s).
Proof.
  intros HI. destruct en.
  - rewrite setEnabled_true. split; simpl; try apply HI. done.
  - destruct (disable_loop s HI) as (He & Hnp & Hnt & Ht1 & Ht2 & Hp1 & Hp2).
    unfold setEnabled. simpl.
    set (r := map_fold disableEntry (withEnabled false s) (promiseInfoForTxId s)) in *.
    split; simpl; try (intros *; by rewrite ?lookup_empty).
    + intros p c Hl. rewrite Hnp.
      destruct (promises s !! p) as [c0|] eqn:Hc0.
      * destruct (inv_cells s HI _ _ Hc0) as (Hlt & Hle & Hiff). split; [done|].
        destruct (decide (settled c0 = None)) as [Hpend|Hset].
        -- (* a pending cell either belonged to an entry, or is unchanged *)
           destruct (decide (∃ id info, promiseInfoForTxId s !! id = Some info
                                         ∧ promise info = p)) as [Hex|Hnex].
           ++ destruct Hex as (id & info & Hi & <-). rewrite (Hp2 _ _ Hi) in Hl.
              injection Hl as <-. simpl. split; [lia|]. split; done.
           ++ rewrite Hp1 in Hl by (intros id info Hi Heq; apply Hnex; eauto).
              assert (c = c0) by congruence. subst. done.
        -- rewrite Hp1 in Hl.
           ++ assert (c = c0) by congruence. subst. done.
           ++ intros id info Hi <-. destruct (inv_live s HI _ _ Hi) as [Hcell _].
              rewrite Hcell in Hc0. injection Hc0 as <-. done.
      * rewrite Hp1 in Hl; [congruence|].
        intros id info Hi <-. destruct (inv_live s HI _ _ Hi) as [Hcell _]. congruence.
    + intros t id ms Hl. exfalso.
      destruct (timers s !! t) as [[id' ms']|] eqn:Hts.
      * destruct (inv_timers s HI _ _ _ Hts) as (_ & info & Hi & <-).
        rewrite (Ht2 _ _ Hi) in Hl. done.
      * rewrite Ht1 in Hl; [congruence|].
        intros id' info Hi <-. destruct (inv_live s HI _ _ Hi) as [_ [ms' Hti]]. congruence.
Qed.

Lemma Inv_fireTimer t s : Inv s → Inv (fireTimer t s).
Proof.
  intros HI. destruct (timers s !! t) as [[id ms]|] eqn:Ht.
  - destruct (inv_timers s HI _ _ _ Ht) as (_ & info & Hi & Hti).
    rewrite (fireTimer_live _ _ _ _ _ Ht Hi Hti). by apply Inv_terminate.
  - by rewrite fireTimer_absent.
Qed.

Lemma Inv_step s ev : Inv s → Inv (step s ev).
Proof.
  intros HI. destruct ev as [en|id ms|id|id data|id detail|t]; simpl.
  - by apply Inv_setEnabled.
  - by apply Inv_registerTxId.
  - by apply Inv_wait.
  - destruct (promiseInfoForTxId s !! id) as [info|] eqn:Hi.
    + rewrite (notifySuccess_live _ _ _ _ Hi). by apply Inv_terminate.
    + by rewrite notifySuccess_absent.
  - destruct (promiseInfoForTxId s !! id) as [info|] eqn:Hi.
    + rewrite (notifyFailure_live _ _ _ _ Hi). by apply Inv_terminate.
    + by rewrite notifyFailure_absent.
  - by apply Inv_fireTimer.
Qed.

Lemma run_nil s : run [] s = s.
Proof. done. Qed.

Lemma run_cons ev evs s : run (ev :: evs) s = run evs (step s ev).
Proof. done. Qed.

Lemma Inv_run evs s : Inv s → Inv (run evs s).
Proof.
  revert s. induction evs as [|ev evs IH]; intros s HI; [done|].
  rewrite run_cons. apply IH. by apply Inv_step.
Qed.

Lemma reachable_Inv s : reachable s → Inv s.
Proof. intros [evs ->]. apply Inv_run, Inv_init. Qed.

Lemma reachable_init : reachable init.
Proof. by exists []. Qed.

Lemma reachable_step s ev : reachable s → reachable (step s ev).
Proof.
  intros [evs ->]. exists (evs ++ [ev]). unfold run. by rewrite fold_left_app.
Qed.

Lemma run_app evs1 evs2 s : run (evs1 ++ evs2) s = run evs2 (run evs1 s).
Proof. unfold run. apply fold_left_app. Qed.

End WaiterSteps.

Section WaiterProperties.

(** A settled promise is out of the registry's reach: no event changes it. *)
Lemma settled_cell_step s ev p c :
  Inv s → promises s !! p = Some c → settled c ≠ None →
  promises (step s ev) !! p = Some c.
Proof.
  intros HI Hc Hset.
  assert (Hnot : ∀ id info, promiseInfoForTxId s !! id = Some info → promise info ≠ p).
  { intros id info Hi <-. destruct (inv_live s HI _ _ Hi) as [Hcell _].
    rewrite Hcell in Hc. injection Hc as <-. done. }
  assert (Hterm : ∀ id info o, promiseInfoForTxId s !! id = Some info →
            promises (terminate id info o s) !! p = Some c).
  { intros id info o Hi. simpl. rewrite lookup_alter_ne; [done|]. by apply (Hnot id). }
  destruct ev as [en|id ms|id|id data|id detail|t]; simpl.
  - destruct en; [done|].
    destruct (disable_loop s HI) as (_ & _ & _ & _ & _ & Hp1 & _).
    unfold setEnabled. simpl. simpl in Hp1. by rewrite Hp1.
  - unfold registerTxId. destruct (promiseInfoForTxId s !! id); [done|].
    destruct (enabled s); simpl; [|done].
    rewrite lookup_insert_ne; [done|]. apply (inv_cells s HI) in Hc. lia.
  - unfold wait. by destruct (promiseInfoForTxId s !! id).
  - destruct (promiseInfoForTxId s !! id) as [info|] eqn:Hi.
    + rewrite (notifySuccess_live _ _ _ _ Hi). by apply Hterm.
    + by rewrite notifySuccess_absent.
  - destruct (promiseInfoForTxId s !! id) as [info|] eqn:Hi.
    + rewrite (notifyFailure_live _ _ _ _ Hi). by apply Hterm.
    + by rewrite notifyFailure_absent.
  - destruct (timers s !! t) as [[id ms]|] eqn:Ht.
    + destruct (inv_timers s HI _ _ _ Ht) as (_ & info & Hi & Hti).
      rewrite (fireTimer_live _ _ _ _ _ Ht Hi Hti). by apply Hterm.
    + by rewrite fireTimer_absent.
Qed.

Lemma settled_cell_run evs s p c :
  Inv s → promises s !! p = Some c → settled c ≠ None →
  promises (run evs s) !! p = Some c.
Proof.
  revert s. induction evs as [|ev evs IH]; intros s HI Hc Hset; [done|].
  rewrite run_cons. apply IH; [by apply Inv_step | by apply settled_cell_step | done].
Qed.

(** Calls to [wait] on a live entry only raise its [waited] flag. *)
Lemma run_waits id ms p t pre s w :
  forallb (λ e, negb (isTerminal e)) pre = true →
  promiseInfoForTxId s !! id = Some (mkInfo p w t) →
  promises s !! p = Some (mkCell None 0) →
  timers s !! t = Some (id, ms) →
  let s' := run (toEvent id t <$> pre) s in
  promiseInfoForTxId s' !! id = Some (mkInfo p (w || existsb isWait pre) t) ∧
  promises s' !! p = Some (mkCell None 0) ∧
  timers s' !! t = Some (id, ms).
Proof.
  revert s w. induction pre as [|e pre IH]; intros s w Hpre Hi Hp Ht.
  - simpl. rewrite run_nil. by rewrite orb_false_r.
  - simpl in Hpre. apply andb_prop in Hpre as [He Hpre].
    destruct e; try done. rewrite fmap_cons. cbn zeta. rewrite run_cons.
    assert (Hw : step s (toEvent id t Wait) =
                 withInfos (<[id := mkInfo p true t]> (promiseInfoForTxId s)) s).
    { simpl. unfold wait. by rewrite Hi. }
    rewrite Hw.
    destruct (IH (withInfos (<[id := mkInfo p true t]> (promiseInfoForTxId s)) s) true)
      as (H1 & H2 & H3); simpl; try done.
    + by rewrite lookup_insert_eq.
    + simpl in H1. rewrite H1, H2, H3. by rewrite orb_true_r.
Qed.

(** Once the entry of [id] and its timer are gone, the events of [id] are
    no-ops. *)
Lemma run_after_terminal id t post s :
  promiseInfoForTxId s !! id = None → timers s !! t = None →
  run (toEvent id t <$> post) s = s.
Proof.
  intros Hi Ht. induction post as [|e post IH]; [done|].
  rewrite fmap_cons, run_cons.
  assert (step s (toEvent id t e) = s) as ->; [|done].
  destruct e; simpl.
  - by rewrite wait_absent.
  - by apply notifySuccess_absent.
  - by apply notifyFailure_absent.
  - by apply fireTimer_absent.
Qed.

(** The terminal step on a live, pending entry. *)
Lemma terminal_step id ms p t w e s :
  isTerminal e = true →
  promiseInfoForTxId s !! id = Some (mkInfo p w t) →
  promises s !! p = Some (mkCell None 0) →
  timers s !! t = Some (id, ms) →
  let s' := step s (toEvent id t e) in
  promises s' !! p = Some (mkCell (Some (expectedOutcome id w e)) 1) ∧
  promiseInfoForTxId s' !! id = None ∧
  timers s' !! t = None.
Proof.
  intros He Hi Hp Ht. destruct e; try done; simpl.
  - rewrite (notifySuccess_live _ _ _ _ Hi). simpl.
    by rewrite lookup_alter_eq, Hp, !lookup_delete_eq.
  - rewrite (notifyFailure_live _ _ _ _ Hi). simpl.
    rewrite lookup_alter_eq, Hp, !lookup_delete_eq. by destruct w.
  - rewrite (fireTimer_live _ _ _ _ _ Ht Hi eq_refl). simpl.
    rewrite lookup_alter_eq, Hp, !lookup_delete_eq. by destruct w.
Qed.

End WaiterProperties.

Section WaiterClaims.

(** C1 (unawaited-resolution policy).  For every tracking id with a live
    entry in a reachable registry, the outcome promise is still pending, and
    - if the caller has not called [wait] ([waited = false]), the timeout
      (the callback itself, or the runtime firing the entry's timer) and a
      FAILED notification both resolve it with the best-effort result
      [{ txId, transactionHash: txId, Data: {} }];
    - if the caller has called [wait], the timeout rejects it with
      TRANSACTION_WAIT_TIMEOUT and a FAILED notification rejects it with
      TRANSACTION_WAIT_FAILED, whose details carry every field of the remote
      detail other than [transactionId];
    - [wait] returns that promise and raises the flag. *)
Theorem unawaited_resolution_policy (s : State) (id : string) (info : PromiseInfo) :
  reachable s → promiseInfoForTxId s !! id = Some info →
  let p := promise info in
  let echo := mkCell (Some (Fulfilled (mkWaitResult id id ∅))) 1 in
  promises s !! p = Some (mkCell None 0) ∧
  (waited info = false →
     promises (timeoutCallback id s) !! p = Some echo ∧
     promises (fireTimer (timeoutId info) s) !! p = Some echo ∧
     ∀ detail, promises (notifyFailure id detail s) !! p = Some echo) ∧
  (waited info = true →
     promises (timeoutCallback id s) !! p
       = Some (mkCell (Some (Rejected (transactionWaitTimeoutError id))) 1) ∧
     promises (fireTimer (timeoutId info) s) !! p
       = Some (mkCell (Some (Rejected (transactionWaitTimeoutError id))) 1) ∧
     ∀ detail, promises (notifyFailure id detail s) !! p
       = Some (mkCell (Some (Rejected (transactionWaitFailedError id detail))) 1)) ∧
  code (transactionWaitTimeoutError id) = "TRANSACTION_WAIT_TIMEOUT" ∧
  (∀ detail, code (transactionWaitFailedError id detail) = "TRANSACTION_WAIT_FAILED" ∧
     ∃ d, details (transactionWaitFailedError id detail) = Some d ∧
          ∀ k v, k ≠ "transactionId" → detail !! k = Some v → d !! k = Some v) ∧
  fst (wait id s) = Return p ∧
  promiseInfoForTxId (snd (wait id s)) !! id = Some (mkInfo p true (timeoutId info)).
Proof.
  intros Hr Hi p echo. subst p echo. pose proof (reachable_Inv s Hr) as HI.
  destruct (inv_live s HI _ _ Hi) as [Hcell [ms Ht]].
  assert (Hcb : ∀ o, promises (terminate id info o s) !! promise info = Some (mkCell (Some o) 1)).
  { intros o. simpl. by rewrite lookup_alter_eq, Hcell. }
  assert (Htc : timeoutCallback id s =
    let s1 := settle (promise info) (if waited info then Rejected (transactionWaitTimeoutError id)
                        else Fulfilled (echoResult id)) s in
    withInfos (delete id (promiseInfoForTxId s1)) s1).
  { unfold timeoutCallback. rewrite Hi. by destruct (waited info). }
  split; [done|]. split; [|split; [|split; [done|split]]].
  - intros Hw. split; [|split].
    + rewrite Htc, Hw. simpl. by rewrite lookup_alter_eq, Hcell.
    + rewrite (fireTimer_live _ _ _ _ _ Ht Hi eq_refl), Hw. apply Hcb.
    + intros detail. rewrite (notifyFailure_live _ _ _ _ Hi), Hw. apply Hcb.
  - intros Hw. split; [|split].
    + rewrite Htc, Hw. simpl. by rewrite lookup_alter_eq, Hcell.
    + rewrite (fireTimer_live _ _ _ _ _ Ht Hi eq_refl), Hw. apply Hcb.
    + intros detail. rewrite (notifyFailure_live _ _ _ _ Hi), Hw. apply Hcb.
  - intros detail. split; [done|]. eexists. split; [done|].
    intros k v Hk Hd. apply lookup_union_Some_l. by rewrite lookup_delete_ne.
  - unfold wait. rewrite Hi. simpl. by rewrite lookup_insert_eq.
Qed.

Lemma unawaited_resolution_policy_witness :
  promises (timeoutCallback "tx-1" oneOutstanding) !! 0%nat
    = Some (mkCell (Some (Fulfilled (mkWaitResult "tx-1" "tx-1" ∅))) 1) ∧
  promises (timeoutCallback "tx-1" (snd (wait "tx-1" oneOutstanding))) !! 0%nat
    = Some (mkCell (Some (Rejected (transactionWaitTimeoutError "tx-1"))) 1).
Proof.
  assert (R1 : reachable oneOutstanding).
  { exists [EvSetEnabled true; EvRegister "tx-1" 30000]. reflexivity. }
  assert (R2 : reachable (snd (wait "tx-1" oneOutstanding))).
  { exists [EvSetEnabled true; EvRegister "tx-1" 30000; EvWait "tx-1"]. reflexivity. }
  assert (L1 : promiseInfoForTxId oneOutstanding !! "tx-1" = Some (mkInfo 0 false 0)).
  { vm_compute. reflexivity. }
  assert (L2 : promiseInfoForTxId (snd (wait "tx-1" oneOutstanding)) !! "tx-1"
               = Some (mkInfo 0 true 0)).
  { vm_compute. reflexivity. }
  pose proof (unawaited_resolution_policy _ _ _ R1 L1) as (_ & H1 & _).
  pose proof (unawaited_resolution_policy _ _ _ R2 L2) as (_ & _ & H2 & _).
  split.
  - exact (proj1 (H1 eq_refl)).
  - exact (proj1 (H2 eq_refl)).
Defined.

(** C2 (settles exactly once).  Register [id] on a connected registry and
    let any events for that id follow: calls to [wait] ([pre]), then a first
    terminal event [e] (notify-success, notify-failure or the timeout), then
    anything ([post]).  Up to [e] the promise is pending and the entry live;
    [e] settles the promise, by one call, as the table of section 4.5 says,
    removes the entry and its timer; the later events of the id leave the
    whole state untouched; and whatever events follow, for whatever ids, the
    promise keeps that one settlement. *)
Theorem outcome_settles_exactly_once
    (s : State) (id : string) (ms : Z) (pre post : list IdEvent) (e : IdEvent) :
  reachable s → enabled s = true → promiseInfoForTxId s !! id = None →
  forallb (λ x, negb (isTerminal x)) pre = true → isTerminal e = true →
  let p := nextPromise s in
  let t := nextTimer s in
  let registered := snd (registerTxId id ms s) in
  let live := run (toEvent id t <$> pre) registered in
  let ended := step live (toEvent id t e) in
  let final := run (toEvent id t <$> post) ended in
  promises live !! p = Some (mkCell None 0) ∧
  promiseInfoForTxId live !! id = Some (mkInfo p (existsb isWait pre) t) ∧
  promises ended !! p = Some (mkCell (Some (expectedOutcome id (existsb isWait pre) e)) 1) ∧
  promiseInfoForTxId ended !! id = None ∧
  timers ended !! t = None ∧
  final = ended ∧
  ∀ evs, promises (run evs ended) !! p = promises ended !! p.
Proof.
  intros Hr Hen Hi Hpre He p t registered live ended final.
  assert (Hreg : registered =
    mkState (enabled s) (<[id := mkInfo p false t]> (promiseInfoForTxId s))
            (<[p := mkCell None 0]> (promises s)) (<[t := (id, ms)]> (timers s))
            (S p) (S t)).
  { unfold registered, registerTxId. by rewrite Hi, Hen. }
  destruct (run_waits id ms p t pre registered false Hpre) as (L1 & L2 & L3).
  { rewrite Hreg. simpl. by rewrite lookup_insert_eq. }
  { rewrite Hreg. simpl. by rewrite lookup_insert_eq. }
  { rewrite Hreg. simpl. by rewrite lookup_insert_eq. }
  simpl in L1. fold live in L1, L2, L3.
  destruct (terminal_step id ms p t _ e live He L1 L2 L3) as (T1 & T2 & T3).
  fold ended in T1, T2, T3.
  assert (HIe : Inv ended).
  { apply Inv_step, Inv_run. unfold registered. apply Inv_registerTxId.
    by apply reachable_Inv. }
  repeat split; try done.
  - by apply run_after_terminal.
  - intros evs. rewrite T1. by apply settled_cell_run.
Qed.

Lemma outcome_settles_exactly_once_witness :
  let s := setEnabled true init in
  let ended := step (run [EvWait "tx-1"] (snd (registerTxId "tx-1" 30000 s))) (EvTimer 0) in
  promises ended !! 0%nat
    = Some (mkCell (Some (Rejected (transactionWaitTimeoutError "tx-1"))) 1) ∧
  promiseInfoForTxId ended !! "tx-1" = None.
Proof.
  intros s ended.
  assert (R : reachable s).
  { exists [EvSetEnabled true]. reflexivity. }
  assert (E : enabled s = true) by reflexivity.
  assert (L : promiseInfoForTxId s !! "tx-1" = None).
  { vm_compute. reflexivity. }
  pose proof (outcome_settles_exactly_once s "tx-1" 30000 [Wait]
                [NotifySuccess (mkSuccessData "0xabc" ∅); Timeout; Wait] Timeout
                R E L eq_refl eq_refl) as (_ & _ & H3 & H4 & _).
  split; [exact H3 | exact H4].
Defined.

(** C5 (bulk shutdown).  [setEnabled(false)] on a reachable registry leaves
    the map empty and no timer pending, and every entry that was outstanding
    -- awaited or not -- has its promise, pending until then, rejected by one
    call with the TRANSACTION_WAIT_FAILED error "Transaction waiter disabled";
    the entries own pairwise different promises (N entries, N rejections),
    and promises of no outstanding entry are untouched. *)
Theorem disable_rejects_all_and_clears (s : State) :
  reachable s →
  let s' := setEnabled false s in
  enabled s' = false ∧
  promiseInfoForTxId s' = ∅ ∧
  timers s' = ∅ ∧
  (∀ id info, promiseInfoForTxId s !! id = Some info →
     promises s !! promise info = Some (mkCell None 0) ∧
     promises s' !! promise info
       = Some (mkCell (Some (Rejected (transactionWaitFailedError id disabledDetail))) 1) ∧
     code (transactionWaitFailedError id disabledDetail) = "TRANSACTION_WAIT_FAILED") ∧
  (∀ id1 id2 i1 i2, promiseInfoForTxId s !! id1 = Some i1 →
     promiseInfoForTxId s !! id2 = Some i2 → promise i1 = promise i2 → id1 = id2) ∧
  (∀ p, (∀ id info, promiseInfoForTxId s !! id = Some info → promise info ≠ p) →
     promises s' !! p = promises s !! p).
Proof.
  intros Hr s'. pose proof (reachable_Inv s Hr) as HI.
  pose proof (Inv_setEnabled false s HI) as HI'. fold s' in HI'.
  destruct (disable_loop s HI) as (He & _ & _ & _ & _ & Hp1 & Hp2).
  assert (Hregs : promiseInfoForTxId s' = ∅) by done.
  split; [done|]. split; [done|]. split; [|split; [|split]].
  - apply map_eq. intros t. rewrite lookup_empty.
    destruct (timers s' !! t) as [[id ms]|] eqn:Ht; [|done].
    destruct (inv_timers s' HI' _ _ _ Ht) as (_ & info & Hi & _).
    by rewrite Hregs, lookup_empty in Hi.
  - intros id info Hi. split; [by destruct (inv_live s HI _ _ Hi)|].
    split; [by apply Hp2 | done].
  - apply (inv_distinct s HI).
  - apply Hp1.
Qed.

Lemma disable_rejects_all_and_clears_witness :
  let s' := setEnabled false twoOutstanding in
  promiseInfoForTxId s' = ∅ ∧ timers s' = ∅ ∧
  promises s' !! 0%nat
    = Some (mkCell (Some (Rejected (transactionWaitFailedError "tx-1" disabledDetail))) 1) ∧
  promises s' !! 1%nat
    = Some (mkCell (Some (Rejected (transactionWaitFailedError "tx-2" disabledDetail))) 1).
Proof.
  intros s'.
  assert (R : reachable twoOutstanding).
  { exists [EvSetEnabled true; EvRegister "tx-1" 30000; EvRegister "tx-2" 500; EvWait "tx-1"].
    reflexivity. }
  assert (L1 : promiseInfoForTxId twoOutstanding !! "tx-1" = Some (mkInfo 0 true 0)).
  { vm_compute. reflexivity. }
  assert (L2 : promiseInfoForTxId twoOutstanding !! "tx-2" = Some (mkInfo 1 false 1)).
  { vm_compute. reflexivity. }
  pose proof (disable_rejects_all_and_clears twoOutstanding R) as (_ & H2 & H3 & H4 & _).
  split; [exact H2|]. split; [exact H3|]. split.
  - exact (proj1 (proj2 (H4 _ _ L1))).
  - exact (proj1 (proj2 (H4 _ _ L2))).
Defined.

(** C10 (disabled registry).  While the registry is disabled -- which in a
    reachable state means it has no entries at all -- [registerTxId] for an id
    without a live entry returns normally and changes nothing: no entry, no
    promise, no timer.  A [wait] on that id then throws
    TRANSACTION_ID_NOT_REGISTERED, and registering the id a second time
    returns normally again instead of raising
    TRANSACTION_ID_ALREADY_REGISTERED. *)
Theorem register_while_disabled (s : State) (id : string) (ms ms' : Z) :
  enabled s = false →
  (reachable s → promiseInfoForTxId s = ∅) ∧
  (promiseInfoForTxId s !! id = None →
     registerTxId id ms s = (Return tt, s) ∧
     wait id (snd (registerTxId id ms s))
       = (Throw (SdkError (transactionIdNotRegisteredError id)), s) ∧
     code (transactionIdNotRegisteredError id) = "TRANSACTION_ID_NOT_REGISTERED" ∧
     registerTxId id ms' (snd (registerTxId id ms s)) = (Return tt, s)).
Proof.
  intros Hen. split.
  - intros Hr. by apply (inv_disabled s (reachable_Inv s Hr)).
  - intros Hi.
    assert (Hreg : ∀ m, registerTxId id m s = (Return tt, s)).
    { intros m. unfold registerTxId. by rewrite Hi, Hen. }
    rewrite !Hreg. simpl. split; [done|]. split; [by apply wait_absent|]. done.
Qed.

Lemma register_while_disabled_witness :
  registerTxId "tx-1" 30000 init = (Return tt, init) ∧
  wait "tx-1" init = (Throw (SdkError (transactionIdNotRegisteredError "tx-1")), init).
Proof.
  pose proof (register_while_disabled init "tx-1" 30000 30000 eq_refl) as [_ H].
  assert (L : promiseInfoForTxId init !! "tx-1" = None) by reflexivity.
  destruct (H L) as (H1 & H2 & _).
  split; [exact H1 | exact H2].
Defined.

End WaiterClaims.

(** ** Token Canonicalizer *)

Section TokenOrderingClaims.

Variable localeCompare : string → string → Z.

Abbreviation cmpTokens := (compareTokens localeCompare).
Abbreviation order := (getTokenOrdering localeCompare).

(** Non-strict mode never throws; [zeroForOne] says whether the first
    argument precedes the second, and each attribute value stays with its
    token. *)
Lemma getTokenOrdering_nonstrict {A} (first second : Token) (d1 d2 : A) :
  order first second false d1 d2 =
    Return (if cmpTokens first second <? 0
            then mkOrdering first second true d1 d2
            else mkOrdering second first false d2 d1).
Proof.
  unfold getTokenOrdering. by destruct (cmpTokens first second <? 0).
Qed.

(** C8 (strict mode).  With [assertCorrectness = true], [getTokenOrdering]
    throws INCORRECT_TOKEN_ORDERING exactly when the first argument does not
    canonically precede the second ([compareTokens(first, second) < 0] fails);
    when it does precede, the call returns the two arguments unchanged as
    [token0] and [token1], with their attributes in the same positions. *)
Theorem strict_ordering {A} (first second : Token) (d1 d2 : A) :
  (cmpTokens first second < 0 →
     order first second true d1 d2 = Return (mkOrdering first second true d1 d2)) ∧
  (¬ cmpTokens first second < 0 →
     order first second true d1 d2
       = Throw (SdkError (incorrectTokenOrderingError first second))) ∧
  code (incorrectTokenOrderingError first second) = "INCORRECT_TOKEN_ORDERING" ∧
  ((∃ e, order first second true d1 d2 = Throw e) ↔ ¬ cmpTokens first second < 0).
Proof.
  unfold getTokenOrdering.
  destruct (Z.ltb_spec (cmpTokens first second) 0) as [Hlt|Hge].
  - split; [done|]. split; [done|]. split; [done|]. split.
    + intros [e He]. done.
    + intros Hn. done.
  - split; [lia|]. split; [done|]. split; [done|]. split.
    + intros _. lia.
    + intros _. eauto.
Qed.

(** The contract of a comparison function that the proofs of the agreement
    property use: swapping the arguments swaps the sign. *)
Hypothesis localeCompare_antisym : ∀ x y, localeCompare x y < 0 ↔ 0 < localeCompare y x.

(** C7, as amended.  In non-strict mode, for all tokens [a], [b] and
    attribute values [da], [db]: [zeroForOne] is true iff the first argument
    canonically precedes the second, and the attribute values are permuted
    with their tokens; and when the comparison tells the two tokens apart
    ([compareTokens(a, b) ≠ 0]), [order(a, b)] and [order(b, a)] return the
    same [token0] (the one that precedes the other), the same [token1] and
    the same attributes for each, with opposite [zeroForOne]. *)
Theorem nonstrict_ordering_agrees {A} (a b : Token) (da db : A) :
  ∃ r1 r2,
    order a b false da db = Return r1 ∧
    order b a false db da = Return r2 ∧
    (zeroForOne r1 = true ↔ cmpTokens a b < 0) ∧
    (zeroForOne r2 = true ↔ cmpTokens b a < 0) ∧
    ((token0 r1, token0Attributes r1, token1 r1, token1Attributes r1)
       = (if zeroForOne r1 then (a, da, b, db) else (b, db, a, da))) ∧
    ((token0 r2, token0Attributes r2, token1 r2, token1Attributes r2)
       = (if zeroForOne r2 then (b, db, a, da) else (a, da, b, db))) ∧
    (cmpTokens a b ≠ 0 →
       token0 r1 = token0 r2 ∧ token1 r1 = token1 r2 ∧
       token0Attributes r1 = token0Attributes r2 ∧
       token1Attributes r1 = token1Attributes r2 ∧
       zeroForOne r2 = negb (zeroForOne r1) ∧
       cmpTokens (token0 r1) (token1 r1) < 0).
Proof.
  rewrite !getTokenOrdering_nonstrict.
  pose proof (localeCompare_antisym (stringifyTokenClassKey a "|")
                (stringifyTokenClassKey b "|")) as Hab.
  pose proof (localeCompare_antisym (stringifyTokenClassKey b "|")
                (stringifyTokenClassKey a "|")) as Hba.
  fold (cmpTokens a b) in Hab, Hba. fold (cmpTokens b a) in Hab, Hba.
  destruct (Z.ltb_spec (cmpTokens a b) 0) as [H1|H1];
    destruct (Z.ltb_spec (cmpTokens b a) 0) as [H2|H2];
    eexists _, _; (split; [reflexivity|]); (split; [reflexivity|]); simpl;
    repeat split; try done; try lia.
Qed.

End TokenOrderingClaims.

Lemma codeUnitCompare_antisym x y : codeUnitCompare x y < 0 ↔ 0 < codeUnitCompare y x.
Proof.
  unfold codeUnitCompare. rewrite (String.compare_antisym y x).
  destruct (String.compare x y); simpl; lia.
Qed.

Lemma strict_ordering_witness :
  getTokenOrdering codeUnitCompare (TokenString "GALA|Unit|none|none")
      (TokenString "SILK|Unit|none|none") true 100 200
    = Return (mkOrdering (TokenString "GALA|Unit|none|none")
                (TokenString "SILK|Unit|none|none") true 100 200) ∧
  getTokenOrdering codeUnitCompare (TokenString "SILK|Unit|none|none")
      (TokenString "GALA|Unit|none|none") true 100 200
    = Throw (SdkError (incorrectTokenOrderingError (TokenString "SILK|Unit|none|none")
                         (TokenString "GALA|Unit|none|none"))).
Proof.
  split.
  - apply (strict_ordering codeUnitCompare). reflexivity.
  - apply (strict_ordering codeUnitCompare). intros H. vm_compute in H. discriminate.
Defined.

Lemma nonstrict_ordering_agrees_witness :
  ∃ r1 r2,
    getTokenOrdering codeUnitCompare (TokenString "Z|Unit|none|none")
        (TokenString "A|Unit|none|none") false ["X"; "Y"] ["P"; "Q"] = Return r1 ∧
    getTokenOrdering codeUnitCompare (TokenString "A|Unit|none|none")
        (TokenString "Z|Unit|none|none") false ["P"; "Q"] ["X"; "Y"] = Return r2 ∧
    token0 r1 = TokenString "A|Unit|none|none" ∧ token0 r2 = token0 r1 ∧
    token0Attributes r1 = ["P"; "Q"] ∧ token1Attributes r1 = ["X"; "Y"].
Proof.
  destruct (nonstrict_ordering_agrees codeUnitCompare codeUnitCompare_antisym
              (TokenString "Z|Unit|none|none") (TokenString "A|Unit|none|none")
              ["X"; "Y"] ["P"; "Q"])
    as (r1 & r2 & E1 & E2 & _ & _ & _ & _ & Hagree).
  exists r1, r2. split; [exact E1|]. split; [exact E2|].
  destruct Hagree as (H0 & _); [vm_compute; discriminate|].
  vm_compute in E1. injection E1 as <-. simpl in *.
  repeat split; try done.
Defined.

(** C7 as stated fails: two different class keys whose fields join to the
    same string compare equal, and then each call returns its own second
    argument as [token0]. *)
Lemma nonstrict_ordering_counterexample :
  keyAB_C ≠ keyA_BC ∧
  ∃ r1 r2,
    getTokenOrdering codeUnitCompare keyAB_C keyA_BC false 1 2 = Return r1 ∧
    getTokenOrdering codeUnitCompare keyA_BC keyAB_C false 2 1 = Return r2 ∧
    token0 r1 = keyA_BC ∧ token0 r2 = keyAB_C ∧ token0 r1 ≠ token0 r2.
Proof.
  split; [discriminate|].
  eexists _, _. split; [reflexivity|]. split; [reflexivity|]. simpl.
  repeat split; discriminate.
Defined.

(** ** Tick/Price Converter *)

Section PoolsClaims.

Variable nearestDouble : bool → N → N → JsNumber.
Variable roundedLogRatio : JsNumber → Z.
Variable numberPowTick : Z → BigNumber.

(** The parts of C3 that the code does satisfy: price 0 gives tick -886800
    for every valid tick spacing, and the two boundary ticks map to exactly 0
    and exactly Infinity. *)
Lemma tick_price_boundaries (tickSpacing : Z) :
  0 < tickSpacing →
  calculateTicksForPrice nearestDouble roundedLogRatio (bigOfZ 0) tickSpacing
    = Return (-886800) ∧
  calculatePriceForTicks numberPowTick (-886800) = bigOfZ 0 ∧
  calculatePriceForTicks numberPowTick 886800 = BInfinity false.
Proof.
  intros Hs. repeat split.
  unfold calculateTicksForPrice, validateTickSpacing. simpl.
  destruct (Z.leb_spec tickSpacing 0); [lia|done].
Qed.

(** A finite price beyond the range of doubles does reach the branch that
    returns 886800. *)
Lemma calculateTicksForPrice_overflow (c d : N) (tickSpacing : Z) :
  0 < tickSpacing → c ≠ 0%N →
  nearestDouble false c d = NumInfinity false →
  calculateTicksForPrice nearestDouble roundedLogRatio (BFinite false c d) tickSpacing
    = Return 886800.
Proof.
  intros Hs Hc Hnd. unfold calculateTicksForPrice, validateTickSpacing, toNumber. simpl.
  destruct (Z.leb_spec tickSpacing 0); [lia|]. simpl.
  destruct (N.eqb_spec c 0); [done|]. by rewrite Hnd.
Qed.

(** C3, the failing part.  For the price Infinity, [calculateTicksForPrice]
    does not return 886800: [validateNumericAmount] rejects the price as not
    finite before the branch for Infinity is reached, whatever the tick
    spacing. *)
Theorem calculateTicksForPrice_rejects_infinity (tickSpacing : Z) :
  calculateTicksForPrice nearestDouble roundedLogRatio (BInfinity false) tickSpacing
    = Throw (validationError "Invalid price: must be a finite number"
               (numericAmountDetails "price" (BInfinity false) "not_finite")) ∧
  calculateTicksForPrice nearestDouble roundedLogRatio (BInfinity false) tickSpacing
    ≠ Return 886800.
Proof. split; [reflexivity | discriminate]. Qed.

End PoolsClaims.

(** ** Paired-liquidity amounts *)

Section DecimalFacts.





End DecimalFacts.

Lemma bind_Return {A B} (a : A) (f : A → Completion B) : (Return a ≫= f) = f a.
Proof. reflexivity. Qed.

Lemma bind_Throw {A B} (e : Thrown) (f : A → Completion B) : (Throw e ≫= f) = Throw e.
Proof. reflexivity. Qed.

Lemma validateTokenDecimals_ok (decimals : Z) (parameterName : string) :
  0 ≤ decimals → validateTokenDecimals decimals parameterName = Return tt.
Proof.
  intros H. unfold validateTokenDecimals. by rewrite (proj2 (Z.ltb_ge decimals 0)).
Qed.

Section ValidationFacts.

(** What [validateNumericAmount] accepts: a finite number whose sign is not
    negative, and which is not zero unless zero is allowed. *)
Lemma validateNumericAmount_ok amount name allowZero :
  validateNumericAmount amount name allowZero = Return tt ↔
  ∃ c d, amount = BFinite false c d ∧ (allowZero = true ∨ c ≠ 0%N).
Proof.
  unfold validateNumericAmount. destruct amount as [|s|s c d]; simpl.
  - split; [done|]. by intros (c & d & H & _).
  - split; [done|]. by intros (c & d & H & _).
  - destruct (N.eqb_spec c 0) as [Hc|Hc]; destruct allowZero, s; simpl; split;
      try done.
    all: try (intros (c' & d' & H & Hz); injection H as <- <-; by destruct Hz).
    all: try (intros (c' & d' & H & Hz); discriminate H).
    all: intros _; exists c, d; split; [done|]; auto.
Qed.

End ValidationFacts.

Section NonFinite.

Lemma div_by_zero x y : isZero y = true → isFinite (div x y) = false.
Proof.
  destruct x as [|sx|sx cx dx], y as [|sy|sy cy dy]; simpl; try done.
  intros ->. by destruct (cx =? 0)%N.
Qed.

Lemma div_nonfinite x y : isFinite x = false → isFinite (div x y) = false.
Proof. by destruct x as [|sx|sx cx dx], y as [|sy|sy cy dy]. Qed.

Lemma times_nonfinite x y : isFinite x = false → isFinite (times x y) = false.
Proof.
  destruct x as [|sx|sx cx dx], y as [|sy|sy cy dy]; simpl; try done.
  intros _. by destruct (cy =? 0)%N.
Qed.

Lemma toFixedRoundDown_nonfinite dp x :
  isFinite x = false → toFixedRoundDown dp x = x.
Proof. by destruct x. Qed.

Lemma minus_self x : isFinite x = true → minus x x = BFinite false 0 0 ∨ minus x x = BFinite true 0 0.
Proof.
  destruct x as [| |s c d]; try done. intros _. simpl.
  rewrite Z.sub_diag. simpl. destruct (s && (c =? 0)%N && negb s && (c =? 0)%N); auto.
Qed.

Lemma sqrt_finite s c d : s = false ∨ c = 0%N → isFinite (sqrt (BFinite s c d)) = true.
Proof.
  intros H. simpl. destruct (N.eqb_spec c 0); [done|].
  destruct H as [->|]; done.
Qed.

Lemma times_NaN_zero x y : isFinite x = false → isZero y = true → times x y = BNaN.
Proof.
  destruct x as [|sx|sx cx dx], y as [|sy|sy cy dy]; simpl; try done.
  by intros _ ->.
Qed.

Lemma div_NaN x : div BNaN x = BNaN.
Proof. done. Qed.

End NonFinite.

Section PositionFacts.














End PositionFacts.

Section PositionsClaims.

Variable numberPowTen : Z → BigNumber.


End PositionsClaims.



(** ** Quote Aggregator *)

Section DecimalOrder.

Lemma pow10_pos (n : N) : 0 < Z.of_N (10 ^ n).
Proof.
  assert (10 ^ n ≠ 0)%N by (apply N.pow_nonzero; lia). lia.
Qed.

(** Comparing fractions by cross-multiplication is transitive. *)
Lemma cross_lt_le (a b c pa pb pc : Z) :
  0 < pa → 0 < pb → 0 < pc → a * pb < b * pa → b * pc <= c * pb → a * pc < c * pa.
Proof.
  intros Ha Hb Hc H1 H2.
  apply (Z.mul_lt_mono_pos_r pb); [done|].
  apply Z.lt_le_trans with (b * pa * pc).
  - replace (a * pc * pb) with (a * pb * pc) by ring.
    by apply Z.mul_lt_mono_pos_r.
  - replace (b * pa * pc) with (b * pc * pa) by ring.
    replace (c * pa * pb) with (c * pb * pa) by ring.
    apply Z.mul_le_mono_nonneg_r; lia.
Qed.

Lemma cross_le_lt (a b c pa pb pc : Z) :
  0 < pa → 0 < pb → 0 < pc → a * pb <= b * pa → b * pc < c * pb → a * pc < c * pa.
Proof.
  intros Ha Hb Hc H1 H2.
  apply (Z.mul_lt_mono_pos_r pb); [done|].
  apply Z.le_lt_trans with (b * pa * pc).
  - replace (a * pc * pb) with (a * pb * pc) by ring.
    apply Z.mul_le_mono_nonneg_r; lia.
  - replace (b * pa * pc) with (b * pc * pa) by ring.
    replace (c * pa * pb) with (c * pb * pa) by ring.
    by apply Z.mul_lt_mono_pos_r.
Qed.

(** [isGreaterThan] is a strict order that is total on numbers: a number
    greater than [b] is greater than everything that is not greater than
    [b]. *)
Lemma isGreaterThan_le_trans (c b x : BigNumber) :
  isNaN x = false →
  isGreaterThan c b = true → isGreaterThan x b = false → isGreaterThan c x = true.
Proof.
  unfold isGreaterThan.
  destruct c as [|sc|sc cc dc], b as [|sb|sb cb db], x as [|sx|sx cx dx]; simpl; try done;
    try (by destruct sc, sb, sx).
  intros _ H1 H2.
  destruct (Z.compare_spec (signed sc cc * Z.of_N (10 ^ db)) (signed sb cb * Z.of_N (10 ^ dc)));
    try done.
  assert (signed sx cx * Z.of_N (10 ^ db) <= signed sb cb * Z.of_N (10 ^ dx)).
  { destruct (Z.compare_spec (signed sx cx * Z.of_N (10 ^ db))
                (signed sb cb * Z.of_N (10 ^ dx))); try done; lia. }
  assert (signed sx cx * Z.of_N (10 ^ dc) < signed sc cc * Z.of_N (10 ^ dx)).
  { eapply (cross_le_lt _ (signed sb cb) _ _ (Z.of_N (10 ^ db))); eauto using pow10_pos. }
  destruct (Z.compare_spec (signed sc cc * Z.of_N (10 ^ dx))
              (signed sx cx * Z.of_N (10 ^ dc))); try done; lia.
Qed.

Lemma isGreaterThan_trans (x y z : BigNumber) :
  isGreaterThan x y = true → isGreaterThan y z = true → isGreaterThan x z = true.
Proof.
  intros H1 H2. apply (isGreaterThan_le_trans x y z); [| done |].
  - unfold isGreaterThan in H2. by destruct y, z.
  - unfold isGreaterThan in *.
    destruct y as [|sy|sy cy dy], z as [|sz|sz cz dz]; simpl in *; try done;
      try (by destruct sy, sz).
    rewrite Z.compare_antisym.
    by destruct (signed sy cy * Z.of_N (10 ^ dz) ?= signed sz cz * Z.of_N (10 ^ dy)).
Qed.

(** [x < y] is [y > x]. *)
Lemma isLessThan_isGreaterThan (x y : BigNumber) : isLessThan x y = isGreaterThan y x.
Proof.
  unfold isLessThan, isGreaterThan.
  destruct x as [|sx|sx cx dx], y as [|sy|sy cy dy]; simpl; try done;
    try (by destruct sx, sy); try (by destruct sx); try (by destruct sy).
  rewrite (Z.compare_antisym (signed sx cx * _)).
  by destruct (signed sx cx * Z.of_N (10 ^ dy) ?= signed sy cy * Z.of_N (10 ^ dx)).
Qed.

End DecimalOrder.

Section Reduce.

Context {A : Type} (beats : A → A → bool) (ok : A → Prop).

(** [beats] is transitive, and whoever beats [b] beats all that do not beat
    [b]. *)
Hypothesis beats_trans : ∀ x y z, beats x y = true → beats y z = true → beats x z = true.
Hypothesis beats_total : ∀ c b x, ok x → beats c b = true → beats x b = false → beats c x = true.

Let pick (best current : A) : A := if beats current best then current else best.

Lemma fold_pick (l1 l2 rest : list A) (b : A) :
  Forall ok (l1 ++ b :: l2 ++ rest) →
  Forall (λ x, beats b x = true) l1 → Forall (λ x, beats x b = false) l2 →
  ∃ k1 q k2, l1 ++ b :: l2 ++ rest = k1 ++ q :: k2 ∧ fold_left pick rest b = q ∧
    Forall (λ x, beats q x = true) k1 ∧ Forall (λ x, beats x q = false) k2.
Proof.
  revert l1 l2 b. induction rest as [|c rest IH]; intros l1 l2 b Hok H1 H2.
  - exists l1, b, l2. by rewrite app_nil_r.
  - simpl. unfold pick at 2. destruct (beats c b) eqn:Hc.
    + (* the new quote beats the best so far, hence all the earlier ones *)
      destruct (IH (l1 ++ b :: l2) [] c) as (k1 & q & k2 & E & F & G1 & G2).
      * by rewrite <- app_assoc.
      * apply Forall_app. split; [|apply Forall_cons; split; [done|]].
        -- eapply Forall_impl; [exact H1|]. intros x Hx. simpl in Hx.
           by apply (beats_trans c b x).
        -- apply Forall_forall. intros x Hx.
           apply (beats_total c b x); [|done|].
           ++ rewrite Forall_forall in Hok. apply Hok. set_solver.
           ++ rewrite Forall_forall in H2. by apply H2.
      * done.
      * exists k1, q, k2. split; [|done]. rewrite <- E. by rewrite <- app_assoc.
    + destruct (IH l1 (l2 ++ [c]) b) as (k1 & q & k2 & E & F & G1 & G2).
      * by rewrite <- app_assoc.
      * done.
      * apply Forall_app. split; [done|]. by apply Forall_cons.
      * exists k1, q, k2. split; [|done]. rewrite <- E. by rewrite <- app_assoc.
Qed.

(** [reduce] returns an element that beats every element before it and is
    beaten by none after it. *)
Lemma reduce_pick (first : A) (rest : list A) :
  Forall ok (first :: rest) →
  ∃ k1 q k2, first :: rest = k1 ++ q :: k2 ∧ reduce pick first rest = q ∧
    Forall (λ x, beats q x = true) k1 ∧ Forall (λ x, beats x q = false) k2.
Proof.
  intros Hok. apply (fold_pick [] [] rest first); [done | apply Forall_nil_2 | apply Forall_nil_2].
Qed.

End Reduce.

Section PromiseAll.

Context {A : Type}.
Implicit Types l : list (nat * Completion A).

Lemma firstRejection_elem l t e :
  firstRejection l = Some (t, e) → (t, Throw e) ∈ l.
Proof.
  revert t e. induction l as [|[t0 [a|e0]] l IH]; intros t e H; simpl in H; [done| |].
  - apply elem_of_cons. right. by apply IH.
  - destruct (firstRejection l) as [[t' e']|] eqn:Hl.
    + destruct (t' <? t0)%nat.
      * injection H as <- <-. apply elem_of_cons. right. by apply IH.
      * injection H as <- <-. apply elem_of_cons. by left.
    + injection H as <- <-. apply elem_of_cons. by left.
Qed.

Lemma firstRejection_None l :
  firstRejection l = None ↔ ∀ t e, (t, Throw e) ∉ l.
Proof.
  induction l as [|[t0 [a|e0]] l IH]; simpl.
  - split; [|done]. intros _ t e H. by apply elem_of_nil in H.
  - rewrite IH. split.
    + intros H t e Hin. apply elem_of_cons in Hin as [Heq|Hin]; [done|]. by apply (H t e).
    + intros H t e Hin. apply (H t e). apply elem_of_cons. by right.
  - split.
    + destruct (firstRejection l) as [[t' e']|]; [by destruct (t' <? t0)%nat | done].
    + intros H. exfalso. apply (H t0 e0). apply elem_of_cons. by left.
Qed.

(** The rejection [Promise.all] reports is the earliest one. *)
Lemma firstRejection_earliest l t e :
  firstRejection l = Some (t, e) → ∀ t' e', (t', Throw e') ∈ l → (t ≤ t')%nat.
Proof.
  revert t e. induction l as [|[t0 [a|e0]] l IH]; intros t e H t' e' Hin; simpl in H; [done| |].
  - apply elem_of_cons in Hin as [Heq|Hin]; [done|]. by apply (IH t e H t' e').
  - destruct (firstRejection l) as [[t1 e1]|] eqn:Hl.
    + pose proof (IH t1 e1 eq_refl) as Hmin.
      destruct (Nat.ltb_spec t1 t0); injection H as <- <-;
        apply elem_of_cons in Hin as [Heq|Hin];
        try (injection Heq as -> ->); try lia;
        specialize (Hmin t' e' Hin); lia.
    + injection H as <- <-. apply elem_of_cons in Hin as [Heq|Hin].
      * injection Heq as -> ->. lia.
      * pose proof (proj1 (firstRejection_None l) Hl) as Hn. by destruct (Hn t' e').
Qed.

End PromiseAll.

Section Aggregation.

Variable settlesAt : FEE_TIER → nat.
Variable pick : GetQuoteResult → GetQuoteResult → GetQuoteResult.
Variable tokenIn tokenOut : Token.
Variable request : FEE_TIER → Completion GetQuoteResult.

Abbreviation attempts tiers :=
  (map (λ feeTier, (settlesAt feeTier, catchPoolAbsent (request feeTier))) tiers).

(** A caught request rejects exactly when the request failed with an error
    that is not pool-absent. *)
Lemma attempt_rejects tiers t e :
  (t, Throw e) ∈ attempts tiers ↔
  ∃ f, f ∈ tiers ∧ t = settlesAt f ∧ request f = Throw e ∧ isPoolAbsent e = false.
Proof.
  rewrite list_elem_of_fmap. split.
  - intros (f & Heq & Hin). exists f. split; [done|].
    injection Heq as -> Hc. split; [done|]. unfold catchPoolAbsent in Hc.
    destruct (request f) as [q|e0]; [done|].
    destruct (isPoolAbsent e0) eqn:Ha; [done|]. by injection Hc as ->.
  - intros (f & Hin & -> & Hr & Ha). exists f. split; [|done].
    unfold catchPoolAbsent. by rewrite Hr, Ha.
Qed.

(** Absent tiers are dropped, the quotes keep the order of the tiers. *)
Lemma attempts_values tiers :
  definedQuotes (fulfilledValues (attempts tiers)) = returnedQuotes (request <$> tiers).
Proof.
  induction tiers as [|f tiers IH]; [done|]. simpl.
  unfold catchPoolAbsent at 1. destruct (request f) as [q|e]; simpl.
  - unfold definedQuotes, returnedQuotes in *. simpl. by rewrite IH.
  - destruct (isPoolAbsent e); simpl; [|done].
    unfold definedQuotes, returnedQuotes in *. simpl. by rewrite IH.
Qed.

Lemma bestOfAllTiers_filtered tiers :
  Forall quoteOrAbsent (request <$> tiers) →
  bestOfAllTiers settlesAt pick tokenIn tokenOut request tiers =
    match returnedQuotes (request <$> tiers) with
    | [] => Throw (SdkError (noPoolAvailableError tokenIn tokenOut None))
    | first :: rest => Return (reduce pick first rest)
    end.
Proof.
  intros Hall. unfold bestOfAllTiers, promiseAll.
  assert (firstRejection (attempts tiers) = None) as ->.
  { apply firstRejection_None. intros t e Hin.
    apply attempt_rejects in Hin as (f & Hf & _ & Hr & Ha).
    rewrite Forall_forall in Hall.
    assert (Hq : quoteOrAbsent (request f)).
    { apply Hall. apply list_elem_of_fmap. eauto. }
    rewrite Hr in Hq. simpl in Hq. congruence. }
  rewrite bind_Return. by rewrite attempts_values.
Qed.

Lemma bestOfAllTiers_propagates tiers f e :
  f ∈ tiers → request f = Throw e → isPoolAbsent e = false →
  ∃ f' e', f' ∈ tiers ∧ request f' = Throw e' ∧ isPoolAbsent e' = false ∧
    bestOfAllTiers settlesAt pick tokenIn tokenOut request tiers = Throw e' ∧
    ∀ g e2, g ∈ tiers → request g = Throw e2 → isPoolAbsent e2 = false →
            (settlesAt f' ≤ settlesAt g)%nat.
Proof.
  intros Hf Hr Ha. unfold bestOfAllTiers, promiseAll.
  destruct (firstRejection (attempts tiers)) as [[t' e']|] eqn:Hfr.
  - pose proof (firstRejection_elem _ _ _ Hfr) as Hin.
    apply attempt_rejects in Hin as (f' & Hf' & -> & Hr' & Ha').
    exists f', e'. repeat split; try done.
    intros g e2 Hg Hrg Hag. apply (firstRejection_earliest _ _ _ Hfr (settlesAt g) e2).
    apply attempt_rejects. eauto 10.
  - exfalso. rewrite firstRejection_None in Hfr.
    apply (Hfr (settlesAt f) e). apply attempt_rejects. eauto 10.
Qed.

End Aggregation.

Section QuotingClaims.

Variable getSingleQuote : Token → Token → FEE_TIER → BigNumber → bool → Completion GetQuoteResult.
Variable settlesAt : FEE_TIER → nat.
Variable tokenIn tokenOut : Token.

Abbreviation quoteIn := (quoteExactInput getSingleQuote settlesAt tokenIn tokenOut).
Abbreviation quoteOut := (quoteExactOutput getSingleQuote settlesAt tokenIn tokenOut).

Lemma in_allFees (f : FEE_TIER) : f ∈ allFees.
Proof. destruct f; unfold allFees; set_solver. Qed.

(** Without a fee tier, and with a valid amount, the two functions are the
    common aggregation with their reducers. *)
Lemma quoteExactInput_all_tiers (amountIn : BigNumber) :
  validateNumericAmount amountIn "amountIn" false = Return tt →
  quoteIn amountIn None =
    bestOfAllTiers settlesAt pickGreatestOutput tokenIn tokenOut
      (λ f, getSingleQuote tokenIn tokenOut f amountIn true) allFees.
Proof. intros H. unfold quoteExactInput. by rewrite H. Qed.

Lemma quoteExactOutput_all_tiers (amountOut : BigNumber) :
  validateNumericAmount amountOut "amountOut" false = Return tt →
  quoteOut amountOut None =
    bestOfAllTiers settlesAt pickLeastInput tokenIn tokenOut
      (λ f, getSingleQuote tokenIn tokenOut f amountOut false) allFees.
Proof. intros H. unfold quoteExactOutput. by rewrite H. Qed.

Lemma isGreaterThan_asym (x y : BigNumber) :
  isGreaterThan x y = true → isGreaterThan y x = false.
Proof.
  intros H. destruct (isGreaterThan y x) eqn:H'; [|done].
  pose proof (isGreaterThan_trans _ _ _ H H') as Hxx.
  unfold isGreaterThan in Hxx. destruct x as [|s|s c d]; simpl in Hxx; try done.
  - by destruct s.
  - by rewrite Z.compare_refl in Hxx.
Qed.

(** Whoever is above something greater than [c] is above [c]. *)
Lemma isGreaterThan_ge_trans (b c x : BigNumber) :
  isNaN x = false →
  isGreaterThan b c = true → isGreaterThan b x = false → isGreaterThan x c = true.
Proof.
  unfold isGreaterThan.
  destruct c as [|sc|sc cc dc], b as [|sb|sb cb db], x as [|sx|sx cx dx]; simpl; try done;
    try (by destruct sc, sb, sx).
  intros _ H1 H2.
  destruct (Z.compare_spec (signed sb cb * Z.of_N (10 ^ dc)) (signed sc cc * Z.of_N (10 ^ db)));
    try done.
  assert (signed sb cb * Z.of_N (10 ^ dx) <= signed sx cx * Z.of_N (10 ^ db)).
  { destruct (Z.compare_spec (signed sb cb * Z.of_N (10 ^ dx))
                (signed sx cx * Z.of_N (10 ^ db))); try done; lia. }
  assert (signed sc cc * Z.of_N (10 ^ dx) < signed sx cx * Z.of_N (10 ^ dc)).
  { eapply (cross_lt_le _ (signed sb cb) _ _ (Z.of_N (10 ^ db))); eauto using pow10_pos. }
  destruct (Z.compare_spec (signed sx cx * Z.of_N (10 ^ dc))
              (signed sc cc * Z.of_N (10 ^ dx))); try done; lia.
Qed.

(** C4 (selection of the best quote), as amended.  No fee tier is given,
    the amount is valid, each of the three tiers 0.05%, 0.30%, 1.00% either
    returned a quote or was pool-absent, at least one returned a quote, and
    the deciding amounts are numbers.  Then [quoteExactInput] returns one of
    the per-tier quotes, [q], such that no quote has a greater output amount,
    and the quotes of the tiers before [q]'s in the order 0.05%, 0.30%, 1.00%
    have a strictly smaller one: on a tie the first-encountered wins.
    [quoteExactOutput] likewise returns a quote with the least input amount,
    the quotes of the earlier tiers needing strictly more. *)
Theorem best_quote_selection (amountIn amountOut : BigNumber) :
  validateNumericAmount amountIn "amountIn" false = Return tt →
  validateNumericAmount amountOut "amountOut" false = Return tt →
  let requestIn := λ f, getSingleQuote tokenIn tokenOut f amountIn true in
  let requestOut := λ f, getSingleQuote tokenIn tokenOut f amountOut false in
  let requestsIn :=
    [requestIn PERCENT_00_05; requestIn PERCENT_00_30; requestIn PERCENT_01_00] in
  let requestsOut :=
    [requestOut PERCENT_00_05; requestOut PERCENT_00_30; requestOut PERCENT_01_00] in
  (Forall quoteOrAbsent requestsIn → returnedQuotes requestsIn ≠ [] →
   Forall (λ x, isNaN (outTokenAmount x) = false) (returnedQuotes requestsIn) →
   ∃ earlier q later,
     returnedQuotes requestsIn = earlier ++ q :: later ∧
     quoteIn amountIn None = Return q ∧
     Forall (λ x, isGreaterThan (outTokenAmount x) (outTokenAmount q) = false)
            (returnedQuotes requestsIn) ∧
     Forall (λ x, isGreaterThan (outTokenAmount q) (outTokenAmount x) = true) earlier) ∧
  (Forall quoteOrAbsent requestsOut → returnedQuotes requestsOut ≠ [] →
   Forall (λ x, isNaN (inTokenAmount x) = false) (returnedQuotes requestsOut) →
   ∃ earlier q later,
     returnedQuotes requestsOut = earlier ++ q :: later ∧
     quoteOut amountOut None = Return q ∧
     Forall (λ x, isLessThan (inTokenAmount x) (inTokenAmount q) = false)
            (returnedQuotes requestsOut) ∧
     Forall (λ x, isLessThan (inTokenAmount q) (inTokenAmount x) = true) earlier).
Proof.
  intros Hin Hout requestIn requestOut requestsIn0 requestsOut0.
  set (requestsIn := (λ f, getSingleQuote tokenIn tokenOut f amountIn true) <$> allFees).
  set (requestsOut := (λ f, getSingleQuote tokenIn tokenOut f amountOut false) <$> allFees).
  change requestsIn0 with requestsIn. change requestsOut0 with requestsOut.
  clear requestsIn0 requestsOut0 requestIn requestOut.
  split.
  - intros Hall Hne Hnum.
    rewrite (quoteExactInput_all_tiers _ Hin), (bestOfAllTiers_filtered _ _ _ _ _ _ Hall).
    fold requestsIn. destruct (returnedQuotes requestsIn) as [|first rest] eqn:Hq; [done|].
    destruct (reduce_pick
                (λ x y, isGreaterThan (outTokenAmount x) (outTokenAmount y))
                (λ x, isNaN (outTokenAmount x) = false)) with (first := first) (rest := rest)
      as (k1 & q & k2 & E & F & G1 & G2).
    + intros x y z. apply isGreaterThan_trans.
    + intros c b x Hx. by apply isGreaterThan_le_trans.
    + done.
    + exists k1, q, k2. split; [done|]. split; [by rewrite <- F|]. split; [|done].
      rewrite E. apply Forall_app. split; [|apply Forall_cons; split; [|done]].
      * eapply Forall_impl; [exact G1|]. intros x Hx. by apply isGreaterThan_asym.
      * destruct (isGreaterThan (outTokenAmount q) (outTokenAmount q)) eqn:Hqq; [|done].
        by rewrite (isGreaterThan_asym _ _ Hqq) in Hqq.
  - intros Hall Hne Hnum.
    rewrite (quoteExactOutput_all_tiers _ Hout), (bestOfAllTiers_filtered _ _ _ _ _ _ Hall).
    fold requestsOut. destruct (returnedQuotes requestsOut) as [|first rest] eqn:Hq; [done|].
    destruct (reduce_pick
                (λ x y, isLessThan (inTokenAmount x) (inTokenAmount y))
                (λ x, isNaN (inTokenAmount x) = false)) with (first := first) (rest := rest)
      as (k1 & q & k2 & E & F & G1 & G2).
    + intros x y z. rewrite !isLessThan_isGreaterThan. intros H1 H2.
      by apply (isGreaterThan_trans _ (inTokenAmount y)).
    + intros c b x Hx. rewrite !isLessThan_isGreaterThan. by apply isGreaterThan_ge_trans.
    + done.
    + exists k1, q, k2. split; [done|]. split; [by rewrite <- F|]. split; [|done].
      rewrite E. apply Forall_app. split; [|apply Forall_cons; split; [|done]].
      * eapply Forall_impl; [exact G1|]. intros x. simpl.
        rewrite !isLessThan_isGreaterThan. apply isGreaterThan_asym.
      * rewrite isLessThan_isGreaterThan.
        destruct (isGreaterThan (inTokenAmount q) (inTokenAmount q)) eqn:Hqq; [|done].
        by rewrite (isGreaterThan_asym _ _ Hqq) in Hqq.
Qed.

(** C6 (absent tiers and failures).  No fee tier is given and the amounts
    are valid.  A thrown value is pool-absent exactly when it is a
    GSwapSDKError with code CONFLICT or OBJECT_NOT_FOUND.  When every tier's
    request returned a quote or was pool-absent, the result is that of the
    quotes alone: the reducer's choice among them, or NO_POOL_AVAILABLE when
    there is none -- in particular when every tier is absent.  When some
    tier's request failed with anything else, the call throws such a failure
    unchanged (the one of the tier whose request settled first). *)
Theorem absent_tiers_filtered_other_errors_propagate (amountIn amountOut : BigNumber) :
  validateNumericAmount amountIn "amountIn" false = Return tt →
  validateNumericAmount amountOut "amountOut" false = Return tt →
  let requestIn := λ f, getSingleQuote tokenIn tokenOut f amountIn true in
  let requestOut := λ f, getSingleQuote tokenIn tokenOut f amountOut false in
  let noPool := Throw (SdkError (noPoolAvailableError tokenIn tokenOut None)) in
  (∀ t, isPoolAbsent t = true ↔
        ∃ e, t = SdkError e ∧ (code e = "CONFLICT" ∨ code e = "OBJECT_NOT_FOUND")) ∧
  code (noPoolAvailableError tokenIn tokenOut None) = "NO_POOL_AVAILABLE" ∧
  (Forall quoteOrAbsent (requestIn <$> allFees) →
     quoteIn amountIn None =
       match returnedQuotes (requestIn <$> allFees) with
       | [] => noPool
       | first :: rest => Return (reduce pickGreatestOutput first rest)
       end) ∧
  (Forall quoteOrAbsent (requestOut <$> allFees) →
     quoteOut amountOut None =
       match returnedQuotes (requestOut <$> allFees) with
       | [] => noPool
       | first :: rest => Return (reduce pickLeastInput first rest)
       end) ∧
  ((∀ f, ∃ e, requestIn f = Throw e ∧ isPoolAbsent e = true) →
     quoteIn amountIn None = noPool) ∧
  ((∀ f, ∃ e, requestOut f = Throw e ∧ isPoolAbsent e = true) →
     quoteOut amountOut None = noPool) ∧
  (∀ f e, requestIn f = Throw e → isPoolAbsent e = false →
     ∃ f' e', requestIn f' = Throw e' ∧ isPoolAbsent e' = false ∧
              quoteIn amountIn None = Throw e') ∧
  (∀ f e, requestOut f = Throw e → isPoolAbsent e = false →
     ∃ f' e', requestOut f' = Throw e' ∧ isPoolAbsent e' = false ∧
              quoteOut amountOut None = Throw e').
Proof.
  intros Hin Hout requestIn requestOut noPool.
  assert (Habsent : ∀ (request : FEE_TIER → Completion GetQuoteResult),
            (∀ f, ∃ e, request f = Throw e ∧ isPoolAbsent e = true) →
            Forall quoteOrAbsent (request <$> allFees) ∧
            returnedQuotes (request <$> allFees) = []).
  { intros request H.
    destruct (H PERCENT_00_05) as (e1 & E1 & A1).
    destruct (H PERCENT_00_30) as (e2 & E2 & A2).
    destruct (H PERCENT_01_00) as (e3 & E3 & A3).
    unfold allFees, returnedQuotes. simpl. rewrite E1, E2, E3. simpl.
    split; [|done]. repeat constructor; done. }
  split; [|split; [done|]].
  - intros t. unfold isPoolAbsent, isSdkErrorWithCode. split.
    + destruct t as [e|msg]; [|done]. intros H. exists e. split; [done|].
      apply orb_true_iff in H as [H|H]; apply bool_decide_eq_true in H; eauto.
    + intros (e & -> & [H|H]); apply orb_true_iff; [left|right];
        by apply bool_decide_eq_true.
  - split; [|split; [|split; [|split; [|split]]]].
    + intros Hall. rewrite (quoteExactInput_all_tiers _ Hin).
      by apply bestOfAllTiers_filtered.
    + intros Hall. rewrite (quoteExactOutput_all_tiers _ Hout).
      by apply bestOfAllTiers_filtered.
    + intros H. destruct (Habsent requestIn H) as [Hall Hnil].
      rewrite (quoteExactInput_all_tiers _ Hin), (bestOfAllTiers_filtered _ _ _ _ _ _ Hall).
      by rewrite Hnil.
    + intros H. destruct (Habsent requestOut H) as [Hall Hnil].
      rewrite (quoteExactOutput_all_tiers _ Hout), (bestOfAllTiers_filtered _ _ _ _ _ _ Hall).
      by rewrite Hnil.
    + intros f e Hr Ha. rewrite (quoteExactInput_all_tiers _ Hin).
      destruct (bestOfAllTiers_propagates settlesAt pickGreatestOutput tokenIn tokenOut
                  requestIn allFees f e (in_allFees f) Hr Ha)
        as (f' & e' & _ & Hr' & Ha' & Hres & _).
      eauto.
    + intros f e Hr Ha. rewrite (quoteExactOutput_all_tiers _ Hout).
      destruct (bestOfAllTiers_propagates settlesAt pickLeastInput tokenIn tokenOut
                  requestOut allFees f e (in_allFees f) Hr Ha)
        as (f' & e' & _ & Hr' & Ha' & Hres & _).
      eauto.
Qed.

End QuotingClaims.

Lemma best_quote_selection_witness :
  quoteExactInput tiedRequests tierOrder (TokenString "GALA|Unit|none|none")
      (TokenString "SILK|Unit|none|none") (bigOfZ 5) None
    = Return (quoteWith 5 12 PERCENT_00_30) ∧
  quoteExactOutput tiedRequests tierOrder (TokenString "GALA|Unit|none|none")
      (TokenString "SILK|Unit|none|none") (bigOfZ 7) None
    = Return (quoteWith 18 7 PERCENT_00_05).
Proof.
  assert (V1 : validateNumericAmount (bigOfZ 5) "amountIn" false = Return tt).
  { vm_compute. reflexivity. }
  assert (V2 : validateNumericAmount (bigOfZ 7) "amountOut" false = Return tt).
  { vm_compute. reflexivity. }
  pose proof (best_quote_selection tiedRequests tierOrder
                (TokenString "GALA|Unit|none|none") (TokenString "SILK|Unit|none|none")
                (bigOfZ 5) (bigOfZ 7) V1 V2) as [H1 H2].
  split.
  - destruct H1 as (k1 & q & k2 & _ & E & _).
    + repeat constructor; reflexivity.
    + discriminate.
    + repeat constructor; reflexivity.
    + rewrite E. vm_compute in E. exact (eq_sym E).
  - destruct H2 as (k1 & q & k2 & _ & E & _).
    + repeat constructor; reflexivity.
    + discriminate.
    + repeat constructor; reflexivity.
    + rewrite E. vm_compute in E. exact (eq_sym E).
Defined.

(** C4 as first stated does not hold.  "At least one fee tier returned a
    quote" is not enough for a quote to be returned: with the 1.00% tier
    quoting and the 0.30% tier failing with an HTTP error, both functions
    throw that error.  Nor is the returned quote the greatest when an amount
    is not a number: with the 0.05% tier answering NaN and the 0.30% tier
    quoting output 10 for input 5, the quote of the 0.05% tier is returned. *)
Lemma best_quote_selection_counterexample :
  (oneTierFails (TokenString "GALA|Unit|none|none") (TokenString "SILK|Unit|none|none")
     PERCENT_01_00 (bigOfZ 5) true = Return (quoteWith 5 12 PERCENT_01_00) ∧
   quoteExactInput oneTierFails tierOrder (TokenString "GALA|Unit|none|none")
     (TokenString "SILK|Unit|none|none") (bigOfZ 5) None = Throw httpError ∧
   quoteExactOutput oneTierFails tierOrder (TokenString "GALA|Unit|none|none")
     (TokenString "SILK|Unit|none|none") (bigOfZ 5) None = Throw httpError) ∧
  (amountsMissing (TokenString "GALA|Unit|none|none") (TokenString "SILK|Unit|none|none")
     PERCENT_00_30 (bigOfZ 5) true = Return (quoteWith 5 10 PERCENT_00_30) ∧
   quoteExactInput amountsMissing tierOrder (TokenString "GALA|Unit|none|none")
     (TokenString "SILK|Unit|none|none") (bigOfZ 5) None
     = Return (quoteWithoutAmounts PERCENT_00_05) ∧
   quoteExactOutput amountsMissing tierOrder (TokenString "GALA|Unit|none|none")
     (TokenString "SILK|Unit|none|none") (bigOfZ 5) None
     = Return (quoteWithoutAmounts PERCENT_00_05) ∧
   outTokenAmount (quoteWithoutAmounts PERCENT_00_05) = BNaN ∧
   inTokenAmount (quoteWithoutAmounts PERCENT_00_05) = BNaN).
Proof.
  split; repeat split; vm_compute; reflexivity.
Defined.

Lemma absent_tiers_filtered_other_errors_propagate_witness :
  quoteExactInput noPools tierOrder (TokenString "GALA|Unit|none|none")
      (TokenString "SILK|Unit|none|none") (bigOfZ 5) None
    = Throw (SdkError (noPoolAvailableError (TokenString "GALA|Unit|none|none")
                         (TokenString "SILK|Unit|none|none") None)) ∧
  ∃ f' e', oneTierFails (TokenString "GALA|Unit|none|none")
               (TokenString "SILK|Unit|none|none") f' (bigOfZ 5) true = Throw e' ∧
           isPoolAbsent e' = false ∧
           quoteExactInput oneTierFails tierOrder (TokenString "GALA|Unit|none|none")
               (TokenString "SILK|Unit|none|none") (bigOfZ 5) None = Throw e'.
Proof.
  assert (V1 : validateNumericAmount (bigOfZ 5) "amountIn" false = Return tt).
  { vm_compute. reflexivity. }
  assert (V2 : validateNumericAmount (bigOfZ 7) "amountOut" false = Return tt).
  { vm_compute. reflexivity. }
  split.
  - pose proof (absent_tiers_filtered_other_errors_propagate noPools tierOrder
                  (TokenString "GALA|Unit|none|none") (TokenString "SILK|Unit|none|none")
                  (bigOfZ 5) (bigOfZ 7) V1 V2) as (_ & _ & _ & _ & H & _).
    apply H. intros f. exists objectNotFound. split; reflexivity.
  - pose proof (absent_tiers_filtered_other_errors_propagate oneTierFails tierOrder
                  (TokenString "GALA|Unit|none|none") (TokenString "SILK|Unit|none|none")
                  (bigOfZ 5) (bigOfZ 7) V1 V2) as (_ & _ & _ & _ & _ & _ & H & _).
    apply (H PERCENT_00_30 httpError); reflexivity.
Defined.

(** ** Further properties of the Outcome Registry *)

Section WaiterCoverage.

(** In every reachable state, whatever the ids and the order of the events:
    the settle functions of every promise ever created were invoked at most
    once, and a promise is pending exactly when they were never invoked. *)
Theorem promises_settle_at_most_once (s : State) (p : nat) (c : PromiseCell) :
  reachable s → promises s !! p = Some c →
  (settleCalls c ≤ 1)%nat ∧ (settled c = None ↔ settleCalls c = 0%nat).
Proof.
  intros Hr Hc. destruct (inv_cells s (reachable_Inv s Hr) _ _ Hc) as (_ & Hle & Hiff).
  split; [done|]. by symmetry.
Qed.

(** No timer leaks: in every reachable state the pending timers and the live
    entries correspond one to one -- each live entry has its own timer
    pending, with a callback for the entry's id, and each pending timer is
    the timer of the live entry of its id. *)
Theorem pending_timers_are_those_of_live_entries (s : State) :
  reachable s →
  (∀ id info, promiseInfoForTxId s !! id = Some info →
     ∃ ms, timers s !! timeoutId info = Some (id, ms)) ∧
  (∀ t id ms, timers s !! t = Some (id, ms) →
     ∃ info, promiseInfoForTxId s !! id = Some info ∧ timeoutId info = t) ∧
  (∀ id1 id2 i1 i2, promiseInfoForTxId s !! id1 = Some i1 →
     promiseInfoForTxId s !! id2 = Some i2 → timeoutId i1 = timeoutId i2 → id1 = id2).
Proof.
  intros Hr. pose proof (reachable_Inv s Hr) as HI. split; [|split].
  - intros id info Hi. by destruct (inv_live s HI _ _ Hi).
  - intros t id ms Ht. by destruct (inv_timers s HI _ _ _ Ht).
  - intros id1 id2 i1 i2 H1 H2 Heq.
    destruct (inv_live s HI _ _ H1) as [_ [ms1 T1]].
    destruct (inv_live s HI _ _ H2) as [_ [ms2 T2]].
    rewrite Heq in T1. congruence.
Qed.

(** [wait] is idempotent: a second call returns what the first returned (the
    same promise, or the same error) and leaves the state of the first. *)
Theorem wait_idempotent (s : State) (id : string) :
  wait id (snd (wait id s)) = wait id s.
Proof.
  unfold wait. destruct (promiseInfoForTxId s !! id) as [info|] eqn:Hi; simpl.
  - rewrite lookup_insert_eq. simpl. f_equal. unfold withInfos. simpl.
    by rewrite insert_insert_eq.
  - by rewrite Hi.
Qed.

(** Registering an id on a connected registry creates a live, unawaited entry
    with a pending promise and a pending timer of the given delay; a second
    registration of the id while the entry is live throws
    TRANSACTION_ID_ALREADY_REGISTERED and changes nothing. *)
Theorem register_then_register_again (s : State) (id : string) (ms ms' : Z) :
  enabled s = true → promiseInfoForTxId s !! id = None →
  let s1 := snd (registerTxId id ms s) in
  fst (registerTxId id ms s) = Return tt ∧
  promiseInfoForTxId s1 !! id = Some (mkInfo (nextPromise s) false (nextTimer s)) ∧
  promises s1 !! nextPromise s = Some (mkCell None 0) ∧
  timers s1 !! nextTimer s = Some (id, ms) ∧
  registerTxId id ms' s1 = (Throw (SdkError (transactionIdAlreadyRegisteredError id)), s1) ∧
  code (transactionIdAlreadyRegisteredError id) = "TRANSACTION_ID_ALREADY_REGISTERED".
Proof.
  intros Hen Hi s1. unfold s1, registerTxId. rewrite Hi, Hen. simpl.
  rewrite !lookup_insert_eq. done.
Qed.

(** After the entry of an id has ended -- by a success or failure
    notification or by its timeout -- the id can be registered again: the
    new entry gets a new promise, and the old promise keeps its outcome. *)
Theorem register_again_after_end (s : State) (id : string) (info : PromiseInfo)
    (ev : Event) (ms : Z) :
  reachable s → enabled s = true → promiseInfoForTxId s !! id = Some info →
  (∃ data, ev = EvNotifySuccess id data) ∨ (∃ detail, ev = EvNotifyFailure id detail)
    ∨ ev = EvTimer (timeoutId info) →
  let ended := step s ev in
  let again := snd (registerTxId id ms ended) in
  fst (registerTxId id ms ended) = Return tt ∧
  (∃ info', promiseInfoForTxId again !! id = Some info' ∧ waited info' = false ∧
            promise info' ≠ promise info ∧
            promises again !! promise info' = Some (mkCell None 0)) ∧
  (∃ o, promises ended !! promise info = Some (mkCell (Some o) 1) ∧
        promises again !! promise info = Some (mkCell (Some o) 1)).
Proof.
  intros Hr Hen Hi Hev ended again.
  pose proof (reachable_Inv s Hr) as HI.
  destruct (inv_live s HI _ _ Hi) as [Hcell [ms0 Ht]].
  assert (Hend : ∃ o, ended = terminate id info o s).
  { unfold ended. destruct Hev as [[data ->]|[[detail ->]| ->]]; simpl.
    - rewrite (notifySuccess_live _ _ _ _ Hi). eauto.
    - rewrite (notifyFailure_live _ _ _ _ Hi). eauto.
    - rewrite (fireTimer_live _ _ _ _ _ Ht Hi eq_refl). eauto. }
  destruct Hend as [o Hend].
  assert (Hp : (promise info < nextPromise s)%nat).
  { by destruct (inv_cells s HI _ _ Hcell). }
  assert (Hreg : registerTxId id ms ended =
    (Return tt, mkState (enabled ended)
       (<[id := mkInfo (nextPromise ended) false (nextTimer ended)]> (promiseInfoForTxId ended))
       (<[nextPromise ended := mkCell None 0]> (promises ended))
       (<[nextTimer ended := (id, ms)]> (timers ended))
       (S (nextPromise ended)) (S (nextTimer ended)))).
  { unfold registerTxId. rewrite Hend. simpl. by rewrite lookup_delete_eq, Hen. }
  unfold again. rewrite Hreg. simpl. split; [done|]. split.
  - eexists. rewrite lookup_insert_eq. split; [done|]. simpl. split; [done|].
    rewrite lookup_insert_eq. split; [|done]. rewrite Hend. simpl. lia.
  - exists o. rewrite lookup_insert_ne by (rewrite Hend; simpl; lia).
    rewrite Hend. simpl. by rewrite lookup_alter_eq, Hcell.
Qed.

End WaiterCoverage.

Lemma promises_settle_at_most_once_witness :
  (1 ≤ 1)%nat ∧
  (settled (mkCell (Some (Rejected (transactionWaitFailedError "tx-1" disabledDetail))) 1) = None
   ↔ 1%nat = 0%nat).
Proof.
  assert (R : reachable (setEnabled false twoOutstanding)).
  { exists [EvSetEnabled true; EvRegister "tx-1" 30000; EvRegister "tx-2" 500; EvWait "tx-1";
            EvSetEnabled false]. reflexivity. }
  assert (L : promises (setEnabled false twoOutstanding) !! 0%nat
              = Some (mkCell (Some (Rejected (transactionWaitFailedError "tx-1" disabledDetail))) 1)).
  { vm_compute. reflexivity. }
  exact (promises_settle_at_most_once _ _ _ R L).
Defined.

Lemma pending_timers_are_those_of_live_entries_witness :
  ∃ info, promiseInfoForTxId twoOutstanding !! "tx-2" = Some info ∧ timeoutId info = 1%nat.
Proof.
  assert (R : reachable twoOutstanding).
  { exists [EvSetEnabled true; EvRegister "tx-1" 30000; EvRegister "tx-2" 500; EvWait "tx-1"].
    reflexivity. }
  assert (T : timers twoOutstanding !! 1%nat = Some ("tx-2", 500)).
  { vm_compute. reflexivity. }
  exact (proj1 (proj2 (pending_timers_are_those_of_live_entries _ R)) _ _ _ T).
Defined.

Lemma register_then_register_again_witness :
  registerTxId "tx-1" 1 oneOutstanding
    = (Throw (SdkError (transactionIdAlreadyRegisteredError "tx-1")), oneOutstanding).
Proof.
  assert (E : enabled (setEnabled true init) = true) by reflexivity.
  assert (L : promiseInfoForTxId (setEnabled true init) !! "tx-1" = None).
  { vm_compute. reflexivity. }
  exact (proj1 (proj2 (proj2 (proj2 (proj2
           (register_then_register_again (setEnabled true init) "tx-1" 30000 1 E L)))))).
Defined.

Lemma register_again_after_end_witness :
  fst (registerTxId "tx-1" 7 (step oneOutstanding (EvTimer 0))) = Return tt.
Proof.
  assert (R : reachable oneOutstanding).
  { exists [EvSetEnabled true; EvRegister "tx-1" 30000]. reflexivity. }
  assert (E : enabled oneOutstanding = true) by reflexivity.
  assert (L : promiseInfoForTxId oneOutstanding !! "tx-1" = Some (mkInfo 0 false 0)).
  { vm_compute. reflexivity. }
  exact (proj1 (register_again_after_end oneOutstanding "tx-1" (mkInfo 0 false 0)
                  (EvTimer 0) 7 R E L (or_intror (or_intror eq_refl)))).
Defined.

(** ** Confirmation Channel and Submission Gateway *)

Section ChannelFacts.

Lemma enabled_setEnabled en s : Inv s → enabled (setEnabled en s) = en.
Proof.
  intros HI. destruct en; [done|].
  by destruct (disable_loop s HI) as (He & _).
Qed.

(** Only [setEnabled] changes the [enabled] flag. *)
Lemma enabled_step s ev :
  (∀ en, ev ≠ EvSetEnabled en) → enabled (step s ev) = enabled s.
Proof.
  intros Hne. destruct ev as [en|id ms|id|id data|id detail|t]; simpl.
  - by destruct (Hne en).
  - unfold registerTxId. destruct (promiseInfoForTxId s !! id); [done|].
    destruct (enabled s) eqn:E; simpl; congruence.
  - unfold wait. by destruct (promiseInfoForTxId s !! id).
  - unfold notifySuccess. by destruct (promiseInfoForTxId s !! id).
  - unfold notifyFailure. destruct (promiseInfoForTxId s !! id) as [i|]; [|done].
    by destruct (waited i).
  - unfold fireTimer. destruct (timers s !! t) as [[id ms]|]; [|done].
    unfold timeoutCallback. simpl.
    destruct (promiseInfoForTxId s !! id) as [i|]; [|done]. by destruct (waited i).
Qed.

Lemma events_run_nil ev : Events.run [] ev = ev.
Proof. done. Qed.

Lemma events_run_cons e es ev : Events.run (e :: es) ev = Events.run es (Events.step ev e).
Proof. done. Qed.

Lemma events_run_app es1 es2 ev :
  Events.run (es1 ++ es2) ev = Events.run es2 (Events.run es1 ev).
Proof. unfold Events.run. apply fold_left_app. Qed.

(** What every event of the channel preserves: the waiter is in a state the
    registry can reach, and it is enabled exactly while a client is
    installed. *)
Definition channelInv (ev : Events.t) : Prop :=
  reachable (Events.globalWaitHelper ev) ∧
  (enabled (Events.globalWaitHelper ev) = true ↔ is_Some (Events.globalSocketClient ev)).

Lemma channelInv_withWaitHelper ev wev :
  channelInv ev →
  (∀ en, wev ≠ EvSetEnabled en) →
  channelInv (Events.withWaitHelper (step (Events.globalWaitHelper ev) wev) ev).
Proof.
  intros [Hr Hiff] Hne. split; simpl.
  - by apply reachable_step.
  - by rewrite enabled_step.
Qed.

Lemma channelInv_step ev e : channelInv ev → channelInv (Events.step ev e).
Proof.
  intros HJ. pose proof HJ as [Hr Hiff].
  destruct e as [|outcome|c| |id ms|id|id response|timer]; simpl.
  - unfold Events.connectEventSocket.
    destruct (Events.connectionPromise ev) as [[c a]|]; [done|].
    destruct (Events.globalSocketClient ev) as [c|] eqn:Hc; simpl.
    + destruct (default false (Events.isConnected ev !! c)); simpl; [done|].
      split; simpl; [done|]. done.
    + split; simpl; [done|]. done.
  - unfold Events.connectSettles.
    destruct (Events.connectionPromise ev) as [[c [|reason]]|]; [|done|done].
    destruct outcome as [[]|reason]; [|done].
    split; cbn [Events.globalWaitHelper Events.globalSocketClient].
    + by apply (reachable_step _ (EvSetEnabled true)).
    + split; [eauto|done].
  - done.
  - unfold Events.disconnectEventSocket.
    destruct (Events.globalSocketClient ev) as [c|] eqn:Hc; [|done].
    split; cbn [Events.globalWaitHelper Events.globalSocketClient].
    + by apply (reachable_step _ (EvSetEnabled false)).
    + rewrite enabled_setEnabled by (by apply reachable_Inv).
      split; [done|]. by intros [? ?].
  - unfold Events.registerTxId.
    destruct (registerTxId id ms (Events.globalWaitHelper ev)) as [r w] eqn:Hreg. simpl.
    replace w with (step (Events.globalWaitHelper ev) (EvRegister id ms))
      by (simpl; by rewrite Hreg).
    by apply channelInv_withWaitHelper.
  - unfold Events.wait. destruct (negb (Events.eventSocketConnected ev)); [done|].
    destruct (wait id (Events.globalWaitHelper ev)) as [r w] eqn:Hw. simpl.
    replace w with (step (Events.globalWaitHelper ev) (EvWait id))
      by (simpl; by rewrite Hw).
    by apply channelInv_withWaitHelper.
  - destruct response as [data|data|status]; simpl; [| |done].
    + by apply (channelInv_withWaitHelper ev (EvNotifySuccess id data)).
    + by apply (channelInv_withWaitHelper ev (EvNotifyFailure id data)).
  - by apply (channelInv_withWaitHelper ev (EvTimer timer)).
Qed.

Lemma channelInv_run es ev : channelInv ev → channelInv (Events.run es ev).
Proof.
  revert ev. induction es as [|e es IH]; intros ev HJ; [done|].
  rewrite events_run_cons. by apply IH, channelInv_step.
Qed.

Lemma channelInv_reachable ev : Events.reachable ev → channelInv ev.
Proof.
  intros [es ->]. apply channelInv_run. split; simpl; [apply reachable_init|].
  split; [done|]. by intros [? ?].
Qed.

End ChannelFacts.

Section ChannelProperties.

Lemma withWaitHelper_same ev : Events.withWaitHelper (Events.globalWaitHelper ev) ev = ev.
Proof. by destruct ev. Qed.

Lemma events_wait_disconnected id ev :
  Events.eventSocketConnected ev = false →
  Events.wait id ev = (Throw (SdkError socketConnectionRequiredError), ev).
Proof. intros H. unfold Events.wait. by rewrite H. Qed.

(** The channel and the registry move together: in every reachable state of
    the channel the waiter is enabled exactly while a client is installed;
    and while none is installed the registry is empty and every registration
    returns normally without recording anything. *)
Theorem registry_enabled_while_client_installed (ev : Events.t) :
  Events.reachable ev →
  (enabled (Events.globalWaitHelper ev) = true ↔ is_Some (Events.globalSocketClient ev)) ∧
  (Events.globalSocketClient ev = None →
     promiseInfoForTxId (Events.globalWaitHelper ev) = ∅ ∧
     ∀ id ms, Events.registerTxId id ms ev = (Return tt, ev)).
Proof.
  intros Hr. destruct (channelInv_reachable ev Hr) as [Hw Hiff]. split; [done|].
  intros Hnone.
  assert (Hen : enabled (Events.globalWaitHelper ev) = false).
  { destruct (enabled (Events.globalWaitHelper ev)); [|done].
    destruct (proj1 Hiff eq_refl) as [c Hc]. congruence. }
  pose proof (inv_disabled _ (reachable_Inv _ Hw) Hen) as Hempty.
  split; [done|]. intros id ms. unfold Events.registerTxId, registerTxId.
  rewrite Hempty, lookup_empty, Hen. simpl. by rewrite withWaitHelper_same.
Qed.

(** The same facts, as a lemma the later proofs use. *)
Lemma registry_enabled_while_client_installed_aux (ev : Events.t) :
  Events.reachable ev → Events.globalSocketClient ev = None →
  enabled (Events.globalWaitHelper ev) = false ∧
  promiseInfoForTxId (Events.globalWaitHelper ev) = ∅ ∧
  ∀ id ms, Events.registerTxId id ms ev = (Return tt, ev).
Proof.
  intros Hr Hnone. destruct (channelInv_reachable ev Hr) as [Hw Hiff].
  assert (Hen : enabled (Events.globalWaitHelper ev) = false).
  { destruct (enabled (Events.globalWaitHelper ev)); [|done].
    destruct (proj1 Hiff eq_refl) as [c Hc]. congruence. }
  pose proof (inv_disabled _ (reachable_Inv _ Hw) Hen) as Hempty.
  split; [done|]. split; [done|]. intros id ms. unfold Events.registerTxId, registerTxId.
  rewrite Hempty, lookup_empty, Hen. simpl. by rewrite withWaitHelper_same.
Qed.

(** A rejected connection promise is never replaced. *)
Lemma failed_attempt_step ev e client reason :
  Events.connectionPromise ev = Some (client, Events.Failed reason) →
  Events.connectionPromise (Events.step ev e) = Some (client, Events.Failed reason) ∧
  Events.nextClient (Events.step ev e) = Events.nextClient ev ∧
  (Events.globalSocketClient ev = None → Events.globalSocketClient (Events.step ev e) = None).
Proof.
  intros Hf. destruct e as [|outcome|c| |id ms|id|id response|timer]; simpl.
  - unfold Events.connectEventSocket. by rewrite Hf.
  - unfold Events.connectSettles. by rewrite Hf.
  - done.
  - unfold Events.disconnectEventSocket.
    destruct (Events.globalSocketClient ev) eqn:Hc; simpl; done.
  - unfold Events.registerTxId.
    destruct (registerTxId id ms (Events.globalWaitHelper ev)); simpl; done.
  - unfold Events.wait. destruct (negb (Events.eventSocketConnected ev)); [done|].
    destruct (wait id (Events.globalWaitHelper ev)); simpl; done.
  - destruct response; simpl; done.
  - done.
Qed.

(** A failed connection attempt is final.  When a call of
    [connectEventSocket] starts an attempt and the attempt fails, the
    rejected promise stays stored: whatever happens afterwards, every later
    call returns that same rejection and constructs no client; and if no
    client was installed before, none ever is -- the socket never counts as
    connected and every [wait] throws SOCKET_CONNECTION_REQUIRED. *)
Theorem failed_connection_attempt_is_final
    (ev : Events.t) (reason : Thrown) (es : list Events.Event) :
  Events.connectionPromise ev = None → Events.eventSocketConnected ev = false →
  let client := Events.nextClient ev in
  let failed := Events.connectSettles (Throw reason) (snd (Events.connectEventSocket ev)) in
  let later := Events.run es failed in
  fst (Events.connectEventSocket ev) = Events.StartsAttempt client ∧
  Events.connectEventSocket later
    = (Events.ReturnsStoredPromise client (Events.Failed reason), later) ∧
  Events.nextClient later = S client ∧
  (Events.globalSocketClient ev = None →
     Events.eventSocketConnected later = false ∧
     ∀ id, Events.wait id later = (Throw (SdkError socketConnectionRequiredError), later)).
Proof.
  intros Hnone Hdis client failed later.
  assert (Hstart : Events.connectEventSocket ev =
    (Events.StartsAttempt client,
     Events.mk (Events.globalSocketClient ev) (Events.globalWaitHelper ev)
       (Some (client, Events.Pending)) (<[client := false]> (Events.isConnected ev))
       (S client))).
  { unfold Events.connectEventSocket, Events.eventSocketConnected in *. rewrite Hnone.
    destruct (Events.globalSocketClient ev) as [c|]; [|done]. by rewrite Hdis. }
  assert (Hfailed :
    Events.connectionPromise failed = Some (client, Events.Failed reason) ∧
    Events.nextClient failed = S client ∧
    Events.globalSocketClient failed = Events.globalSocketClient ev).
  { unfold failed. by rewrite Hstart. }
  assert (Hlater : ∀ es0 ev0,
    Events.connectionPromise ev0 = Some (client, Events.Failed reason) →
    Events.connectionPromise (Events.run es0 ev0) = Some (client, Events.Failed reason) ∧
    Events.nextClient (Events.run es0 ev0) = Events.nextClient ev0 ∧
    (Events.globalSocketClient ev0 = None →
     Events.globalSocketClient (Events.run es0 ev0) = None)).
  { induction es0 as [|e es0 IH]; intros ev0 H0; [done|].
    rewrite events_run_cons.
    destruct (failed_attempt_step ev0 e client reason H0) as (S1 & S2 & S3).
    destruct (IH _ S1) as (I1 & I2 & I3). split; [done|]. split; [congruence|]. auto. }
  destruct Hfailed as (F1 & F2 & F3).
  destruct (Hlater es failed F1) as (L1 & L2 & L3). fold later in L1, L2, L3.
  split; [by rewrite Hstart|]. split; [|split; [congruence|]].
  - unfold Events.connectEventSocket. by rewrite L1.
  - intros Hc. rewrite F3 in L3. specialize (L3 Hc).
    assert (Hd : Events.eventSocketConnected later = false).
    { unfold Events.eventSocketConnected. by rewrite L3. }
    split; [done|]. intros id. by apply events_wait_disconnected.
Qed.

(** Concurrent calls collapse into one attempt.  While an attempt is in
    flight, further calls of [connectEventSocket] return its promise and
    change nothing: one client is constructed.  When the attempt succeeds,
    that client is installed and connected, the waiter is enabled, the stored
    promise is cleared, and the next call returns the client. *)
Theorem concurrent_connects_share_one_attempt (ev : Events.t) (n : nat) :
  Events.connectionPromise ev = None → Events.eventSocketConnected ev = false →
  let client := Events.nextClient ev in
  let started := snd (Events.connectEventSocket ev) in
  let connected := Events.connectSettles (Return tt) started in
  Events.run (repeat Events.Connect n) started = started ∧
  Events.connectEventSocket started
    = (Events.ReturnsStoredPromise client Events.Pending, started) ∧
  Events.nextClient started = S client ∧
  Events.globalSocketClient connected = Some client ∧
  Events.eventSocketConnected connected = true ∧
  enabled (Events.globalWaitHelper connected) = true ∧
  Events.connectionPromise connected = None ∧
  Events.connectEventSocket connected = (Events.ReturnsClient client, connected).
Proof.
  intros Hnone Hdis client started connected.
  assert (Hstart : started =
     Events.mk (Events.globalSocketClient ev) (Events.globalWaitHelper ev)
       (Some (client, Events.Pending)) (<[client := false]> (Events.isConnected ev))
       (S client)).
  { unfold started, Events.connectEventSocket, Events.eventSocketConnected in *.
    rewrite Hnone. destruct (Events.globalSocketClient ev) as [c|]; [|done].
    by rewrite Hdis. }
  assert (Hcall : Events.connectEventSocket started
                  = (Events.ReturnsStoredPromise client Events.Pending, started)).
  { unfold Events.connectEventSocket. by rewrite Hstart. }
  split; [|split; [done|split; [by rewrite Hstart|]]].
  - induction n as [|n IH]; [done|]. simpl. rewrite events_run_cons. simpl.
    by rewrite Hcall.
  - unfold connected, Events.connectSettles. rewrite Hstart.
    cbn [Events.connectionPromise Events.globalSocketClient Events.globalWaitHelper
         Events.isConnected Events.nextClient].
    unfold Events.eventSocketConnected, Events.connectEventSocket.
    cbn [Events.connectionPromise Events.globalSocketClient Events.globalWaitHelper
         Events.isConnected Events.nextClient].
    rewrite lookup_insert_eq. simpl. done.
Qed.

(** A transaction submitted while no client is installed and no connection
    attempt is pending: the submission succeeds and returns a handle, but
    nothing was registered; the handle's [wait] throws
    SOCKET_CONNECTION_REQUIRED there, and right after a first successful
    connection it throws TRANSACTION_ID_NOT_REGISTERED. *)
Theorem submit_before_connect_cannot_be_awaited
    (ev : Events.t) (timeoutMs : Z) (response : TransactionPendingResponse.t) :
  Events.reachable ev →
  Events.globalSocketClient ev = None → Events.connectionPromise ev = None →
  let id := TransactionPendingResponse.data response in
  let tx := PendingTransaction.mk id (TransactionPendingResponse.message response)
              (TransactionPendingResponse.error response) in
  let connected :=
    Events.connectSettles (Return tt) (snd (Events.connectEventSocket ev)) in
  Bundler.sendBundlerRequest true timeoutMs (Return tt) (Return response) ev
    = (Return tx, ev) ∧
  PendingTransaction.wait tx ev = (Throw (SdkError socketConnectionRequiredError), ev) ∧
  Events.eventSocketConnected connected = true ∧
  PendingTransaction.wait tx connected
    = (Throw (SdkError (transactionIdNotRegisteredError id)), connected).
Proof.
  intros Hr Hc Hp id tx connected.
  destruct (registry_enabled_while_client_installed_aux ev Hr Hc) as (Hen & Hempty & Hreg).
  split; [|split; [|split]].
  - unfold Bundler.sendBundlerRequest. simpl. by rewrite Hreg.
  - unfold PendingTransaction.wait. apply events_wait_disconnected.
    unfold Events.eventSocketConnected. by rewrite Hc.
  - unfold connected, Events.connectEventSocket, Events.connectSettles,
      Events.eventSocketConnected. rewrite Hp, Hc. simpl. by rewrite lookup_insert_eq.
  - unfold connected, Events.connectEventSocket, Events.connectSettles. rewrite Hp, Hc.
    cbn [snd Events.connectionPromise Events.globalWaitHelper Events.isConnected
         Events.nextClient].
    unfold PendingTransaction.wait, Events.wait, Events.eventSocketConnected.
    cbn [PendingTransaction.transactionId Events.globalSocketClient Events.isConnected
         Events.globalWaitHelper].
    rewrite lookup_insert_eq. cbn [default negb].
    rewrite setEnabled_true. unfold wait. cbn [promiseInfoForTxId withEnabled].
    rewrite Hempty, lookup_empty. done.
Qed.

(** Submit, wait, confirmation.  On a reachable channel whose socket is
    connected, a submission whose tracking id has no live entry registers the
    id and returns the handle; the handle's [wait] returns the promise
    created by the registration; a PROCESSED message for the id then resolves
    that promise with the remote hash and data, a FAILED message rejects it
    with TRANSACTION_WAIT_FAILED, and a message with any other status leaves
    everything as it is. *)
Theorem submit_wait_confirm
    (ev : Events.t) (timeoutMs : Z) (response : TransactionPendingResponse.t) :
  Events.reachable ev → Events.eventSocketConnected ev = true →
  promiseInfoForTxId (Events.globalWaitHelper ev) !! TransactionPendingResponse.data response
    = None →
  let id := TransactionPendingResponse.data response in
  let tx := PendingTransaction.mk id (TransactionPendingResponse.message response)
              (TransactionPendingResponse.error response) in
  let p := nextPromise (Events.globalWaitHelper ev) in
  let sent := Bundler.sendBundlerRequest true timeoutMs (Return tt) (Return response) ev in
  let awaited := PendingTransaction.wait tx (snd sent) in
  fst sent = Return tx ∧
  fst awaited = Return p ∧
  promises (Events.globalWaitHelper (snd awaited)) !! p = Some (mkCell None 0) ∧
  (∀ data,
     promises (Events.globalWaitHelper
                 (Events.internalHandleSocketMessage id (PROCESSED data) (snd awaited))) !! p
       = Some (mkCell (Some (Fulfilled (mkWaitResult id (transactionId data)
                                          (successData data)))) 1)) ∧
  (∀ data,
     promises (Events.globalWaitHelper
                 (Events.internalHandleSocketMessage id (FAILED data) (snd awaited))) !! p
       = Some (mkCell (Some (Rejected (transactionWaitFailedError id data))) 1)) ∧
  (∀ status,
     Events.internalHandleSocketMessage id (OTHER status) (snd awaited) = snd awaited).
Proof.
  intros Hr Hconn Hfree id tx p sent awaited.
  destruct (channelInv_reachable ev Hr) as [Hw Hiff].
  assert (Hclient : ∃ c, Events.globalSocketClient ev = Some c
                         ∧ default false (Events.isConnected ev !! c) = true).
  { unfold Events.eventSocketConnected in Hconn.
    destruct (Events.globalSocketClient ev) as [c|]; [eauto|done]. }
  destruct Hclient as (c & Hc & Hcon).
  assert (Hen : enabled (Events.globalWaitHelper ev) = true).
  { apply Hiff. rewrite Hc. eauto. }
  set (w := Events.globalWaitHelper ev) in *.
  set (w1 := mkState (enabled w) (<[id := mkInfo p false (nextTimer w)]> (promiseInfoForTxId w))
               (<[p := mkCell None 0]> (promises w))
               (<[nextTimer w := (id, timeoutMs)]> (timers w)) (S p) (S (nextTimer w))).
  assert (Hreg : registerTxId id timeoutMs w = (Return tt, w1)).
  { unfold registerTxId, w1. fold id in Hfree. by rewrite Hfree, Hen. }
  assert (Hsent : sent = (Return tx, Events.withWaitHelper w1 ev)).
  { unfold sent, Bundler.sendBundlerRequest, Events.registerTxId. simpl.
    fold id. fold w. by rewrite Hreg. }
  set (w2 := withInfos (<[id := mkInfo p true (nextTimer w)]> (promiseInfoForTxId w1)) w1).
  assert (Hwait : awaited = (Return p, Events.withWaitHelper w2 (Events.withWaitHelper w1 ev))).
  { unfold awaited. rewrite Hsent. unfold PendingTransaction.wait, Events.wait,
      Events.eventSocketConnected. simpl. rewrite Hc, Hcon. simpl.
    unfold wait. simpl. by rewrite lookup_insert_eq. }
  rewrite Hsent, Hwait. simpl.
  split; [done|]. split; [done|]. split; [by rewrite lookup_insert_eq|].
  split; [|split; [|done]].
  - intros data. unfold notifySuccess. simpl. rewrite lookup_insert_eq. simpl.
    by rewrite lookup_alter_eq, lookup_insert_eq.
  - intros data. unfold notifyFailure. simpl. rewrite lookup_insert_eq. simpl.
    by rewrite lookup_alter_eq, lookup_insert_eq.
Qed.

(** Disconnecting.  On a reachable channel with a client installed,
    [disconnectEventSocket] leaves no entry and no timer, rejects the pending
    promise of every outstanding entry with TRANSACTION_WAIT_FAILED, and from
    then on [wait] throws SOCKET_CONNECTION_REQUIRED for every id. *)
Theorem disconnect_rejects_outstanding (ev : Events.t) :
  Events.reachable ev → is_Some (Events.globalSocketClient ev) →
  let ev' := Events.disconnectEventSocket ev in
  Events.globalSocketClient ev' = None ∧
  Events.eventSocketConnected ev' = false ∧
  promiseInfoForTxId (Events.globalWaitHelper ev') = ∅ ∧
  timers (Events.globalWaitHelper ev') = ∅ ∧
  (∀ id info, promiseInfoForTxId (Events.globalWaitHelper ev) !! id = Some info →
     promises (Events.globalWaitHelper ev') !! promise info
       = Some (mkCell (Some (Rejected (transactionWaitFailedError id disabledDetail))) 1)) ∧
  (∀ id, Events.wait id ev' = (Throw (SdkError socketConnectionRequiredError), ev')).
Proof.
  intros Hr [c Hc] ev'.
  destruct (channelInv_reachable ev Hr) as [Hw _].
  pose proof (reachable_Inv _ Hw) as HI.
  assert (Hev' : ev' = Events.mk None (setEnabled false (Events.globalWaitHelper ev))
                         (Events.connectionPromise ev)
                         (<[c := false]> (Events.isConnected ev)) (Events.nextClient ev)).
  { unfold ev', Events.disconnectEventSocket. by rewrite Hc. }
  pose proof (Inv_setEnabled false _ HI) as HI'.
  destruct (disable_loop _ HI) as (_ & _ & _ & _ & _ & _ & Hp2).
  rewrite Hev'. cbn [Events.globalSocketClient Events.globalWaitHelper].
  split; [done|]. split; [done|]. split; [done|]. split; [|split].
  - apply map_eq. intros t. rewrite lookup_empty.
    destruct (timers (setEnabled false (Events.globalWaitHelper ev)) !! t) as [[id ms]|] eqn:Ht;
      [|done].
    destruct (inv_timers _ HI' _ _ _ Ht) as (_ & info & Hi & _).
    unfold setEnabled in Hi. simpl in Hi. by rewrite lookup_empty in Hi.
  - intros id info Hi. by apply Hp2.
  - intros id. by apply events_wait_disconnected.
Qed.

End ChannelProperties.

Lemma registry_enabled_while_client_installed_witness :
  Events.registerTxId "tx-9" 300000 Events.instance = (Return tt, Events.instance).
Proof.
  assert (R : Events.reachable Events.instance) by (exists []; reflexivity).
  exact (proj2 (proj2 (registry_enabled_while_client_installed _ R) eq_refl) "tx-9" 300000).
Defined.

Lemma failed_connection_attempt_is_final_witness :
  let failed := Events.connectSettles (Throw (OtherError "websocket error"))
                  (snd (Events.connectEventSocket Events.instance)) in
  let later := Events.run [Events.Connect; Events.Disconnect; Events.Connect] failed in
  Events.connectEventSocket later
    = (Events.ReturnsStoredPromise 0 (Events.Failed (OtherError "websocket error")), later).
Proof.
  intros failed later.
  exact (proj1 (proj2 (failed_connection_attempt_is_final Events.instance
                         (OtherError "websocket error")
                         [Events.Connect; Events.Disconnect; Events.Connect]
                         eq_refl eq_refl))).
Defined.

Lemma concurrent_connects_share_one_attempt_witness :
  let started := snd (Events.connectEventSocket Events.instance) in
  Events.run (repeat Events.Connect 3) started = started ∧
  Events.eventSocketConnected (Events.connectSettles (Return tt) started) = true.
Proof.
  intros started.
  pose proof (concurrent_connects_share_one_attempt Events.instance 3 eq_refl eq_refl)
    as (H1 & _ & _ & _ & H5 & _).
  split; [exact H1 | exact H5].
Defined.

Lemma submit_before_connect_cannot_be_awaited_witness :
  let tx := PendingTransaction.mk "tx-9" "Transaction submitted" false in
  PendingTransaction.wait tx Events.instance
    = (Throw (SdkError socketConnectionRequiredError), Events.instance) ∧
  PendingTransaction.wait tx connectedChannel
    = (Throw (SdkError (transactionIdNotRegisteredError "tx-9")), connectedChannel).
Proof.
  intros tx.
  assert (R : Events.reachable Events.instance) by (exists []; reflexivity).
  pose proof (submit_before_connect_cannot_be_awaited Events.instance 300000
                (TransactionPendingResponse.mk "tx-9" "Transaction submitted" false)
                R eq_refl eq_refl) as (_ & H2 & _ & H4).
  split; [exact H2 | exact H4].
Defined.

Lemma submit_wait_confirm_witness :
  fst (Bundler.sendBundlerRequest true 300000 (Return tt) examplePosting connectedChannel)
    = Return (PendingTransaction.mk "tx-9" "Transaction submitted" false).
Proof.
  assert (R : Events.reachable connectedChannel).
  { exists [Events.Connect; Events.ConnectSettles (Return tt)]. reflexivity. }
  assert (C : Events.eventSocketConnected connectedChannel = true).
  { vm_compute. reflexivity. }
  assert (L : promiseInfoForTxId (Events.globalWaitHelper connectedChannel) !! "tx-9" = None).
  { vm_compute. reflexivity. }
  exact (proj1 (submit_wait_confirm connectedChannel 300000
                  (TransactionPendingResponse.mk "tx-9" "Transaction submitted" false)
                  R C L)).
Defined.

Lemma disconnect_rejects_outstanding_witness :
  Events.eventSocketConnected (Events.disconnectEventSocket connectedChannel) = false.
Proof.
  assert (R : Events.reachable connectedChannel).
  { exists [Events.Connect; Events.ConnectSettles (Return tt)]. reflexivity. }
  assert (C : is_Some (Events.globalSocketClient connectedChannel)).
  { exists 0%nat. vm_compute. reflexivity. }
  exact (proj1 (proj2 (disconnect_rejects_outstanding connectedChannel R C))).
Defined.

(** ** Parsing and printing token class keys *)

Section SplitJoin.

Variable sep : Ascii.ascii.

Lemma split_nonempty s : split sep s ≠ [].
Proof.
  destruct s as [|c s]; simpl; [done|].
  destruct (Ascii.eqb c sep); [done|]. by destruct (split sep s).
Qed.

(** Joining the pieces gives the string back. *)
Lemma join_split s : join sep (split sep s) = s.
Proof.
  induction s as [|c s IH]; [done|]. simpl.
  destruct (Ascii.eqb_spec c sep) as [->|Hne].
  - pose proof (split_nonempty s). destruct (split sep s) as [|p ps]; [done|].
    change (join sep ("" :: p :: ps)) with (String sep (join sep (p :: ps))).
    by rewrite IH.
  - pose proof (split_nonempty s). destruct (split sep s) as [|p ps]; [done|].
    destruct ps as [|q ps]; simpl in *; by rewrite <- IH.
Qed.

(** No piece contains the separator. *)
Lemma split_pieces s : Forall (λ p, contains sep p = false) (split sep s).
Proof.
  induction s as [|c s IH]; simpl; [by repeat constructor|].
  destruct (Ascii.eqb_spec c sep) as [->|Hne].
  - by constructor.
  - pose proof (split_nonempty s). destruct (split sep s) as [|p ps]; [done|].
    apply Forall_cons in IH as [Hp Hps]. constructor; [|done]. simpl.
    rewrite Hp. by destruct (Ascii.eqb_spec c sep).
Qed.

(** A separator after a piece without separators starts a new piece. *)
Lemma split_app a b :
  contains sep a = false → split sep (a +:+ String sep b) = a :: split sep b.
Proof.
  induction a as [|c a IH]; simpl; intros Ha.
  - by rewrite Ascii.eqb_refl.
  - apply orb_false_iff in Ha as [Hc Ha]. rewrite Hc. by rewrite (IH Ha).
Qed.

Lemma split_single a : contains sep a = false → split sep a = [a].
Proof.
  induction a as [|c a IH]; simpl; intros Ha; [done|].
  apply orb_false_iff in Ha as [Hc Ha]. rewrite Hc. by rewrite (IH Ha).
Qed.

End SplitJoin.

Section TokenParsing.

Lemma append_assoc (a b c : string) : (a +:+ b) +:+ c = a +:+ (b +:+ c).
Proof.
  induction a as [|x a IH]; [done|].
  change (String x ((a +:+ b) +:+ c) = String x (a +:+ (b +:+ c))). by f_equal.
Qed.

Lemma plainField_spec s :
  plainField s = true ↔ isEmptyString s = false ∧ contains pipe s = false.
Proof.
  unfold plainField. rewrite andb_true_iff, !negb_true_iff. done.
Qed.

(** Round trip through the string form.  Parsing the string written for a
    class key gives the key back exactly when the key is plain: all four
    fields non-empty and free of ['|']. *)
Theorem parse_stringify_roundtrip (k : GalaChainTokenClassKey) :
  parseTokenClassKey (TokenString (stringifyTokenClassKey (TokenKey k) "|")) = Return k
  ↔ plainKey k = true.
Proof.
  destruct k as [c cat ty ak]. unfold plainKey. simpl.
  rewrite !andb_true_iff, !plainField_spec. split.
  - intros H.
    pose proof (split_pieces pipe (c +:+ "|" +:+ cat +:+ "|" +:+ ty +:+ "|" +:+ ak)) as Hp.
    destruct (split pipe (c +:+ "|" +:+ cat +:+ "|" +:+ ty +:+ "|" +:+ ak))
      as [|p1 [|p2 [|p3 [|p4 rest]]]]; try done.
    destruct (isEmptyString p1 || isEmptyString p2 || isEmptyString p3 || isEmptyString p4)
      eqn:He; [done|].
    injection H as -> -> -> ->.
    apply orb_false_iff in He as [He He4]. apply orb_false_iff in He as [He He3].
    apply orb_false_iff in He as [He1 He2].
    apply Forall_cons in Hp as [H1 Hp]. apply Forall_cons in Hp as [H2 Hp].
    apply Forall_cons in Hp as [H3 Hp]. apply Forall_cons in Hp as [H4 Hp].
    done.
  - intros ((([E1 C1] & [E2 C2]) & [E3 C3]) & [E4 C4]).
    change (c +:+ "|" +:+ cat +:+ "|" +:+ ty +:+ "|" +:+ ak)
      with (c +:+ String pipe (cat +:+ String pipe (ty +:+ String pipe ak))).
    rewrite (split_app pipe c _ C1), (split_app pipe cat _ C2), (split_app pipe ty _ C3),
      (split_single pipe ak C4).
    by rewrite E1, E2, E3, E4.
Qed.

(** What a successful parse of a string means.  The four fields are
    non-empty and free of ['|'], and the string is the string form of the
    key, possibly followed by a further ['|'] and text that the parse
    ignores.  The parsed key, passed again as an object, is returned as it
    is. *)
Theorem parse_accepts_prefix (s : string) (k : GalaChainTokenClassKey) :
  parseTokenClassKey (TokenString s) = Return k →
  plainKey k = true ∧
  (s = stringifyTokenClassKey (TokenKey k) "|" ∨
   ∃ ignored, s = stringifyTokenClassKey (TokenKey k) "|" +:+ "|" +:+ ignored) ∧
  parseTokenClassKey (TokenKey k) = Return k.
Proof.
  intros H. simpl in H.
  pose proof (split_pieces pipe s) as Hp. pose proof (join_split pipe s) as Hj.
  destruct (split pipe s) as [|p1 [|p2 [|p3 [|p4 rest]]]]; try done.
  destruct (isEmptyString p1 || isEmptyString p2 || isEmptyString p3 || isEmptyString p4)
    eqn:He; [done|].
  injection H as <-.
  apply orb_false_iff in He as [He He4]. apply orb_false_iff in He as [He He3].
  apply orb_false_iff in He as [He1 He2].
  apply Forall_cons in Hp as [H1 Hp]. apply Forall_cons in Hp as [H2 Hp].
  apply Forall_cons in Hp as [H3 Hp]. apply Forall_cons in Hp as [H4 Hp].
  split; [|split; [|done]].
  - unfold plainKey, plainField. simpl. by rewrite He1, He2, He3, He4, H1, H2, H3, H4.
  - simpl. rewrite <- Hj. destruct rest as [|r rest].
    + left. done.
    + right. exists (join pipe (r :: rest)).
      change (join pipe (p1 :: p2 :: p3 :: p4 :: r :: rest))
        with (p1 +:+ String pipe (p2 +:+ String pipe (p3 +:+ String pipe
               (p4 +:+ String pipe (join pipe (r :: rest)))))).
      rewrite !append_assoc. reflexivity.
Qed.

End TokenParsing.

Lemma parse_accepts_prefix_witness :
  plainKey (mkClassKey "GALA" "Unit" "none" "none") = true ∧
  ("GALA|Unit|none|none|extra"
     = stringifyTokenClassKey (TokenKey (mkClassKey "GALA" "Unit" "none" "none")) "|" ∨
   ∃ ignored, "GALA|Unit|none|none|extra"
     = stringifyTokenClassKey (TokenKey (mkClassKey "GALA" "Unit" "none" "none")) "|"
         +:+ "|" +:+ ignored).
Proof.
  assert (P : parseTokenClassKey (TokenString "GALA|Unit|none|none|extra")
              = Return (mkClassKey "GALA" "Unit" "none" "none")).
  { vm_compute. reflexivity. }
  pose proof (parse_accepts_prefix _ _ P) as (H1 & H2 & _).
  split; [exact H1 | exact H2].
Defined.

(** ** Spot price, ticks and tick ranges *)


Section SpotPriceProperties.

Variable localeCompare : string → string → Z.
Hypothesis localeCompare_antisym : ∀ x y, localeCompare x y < 0 ↔ 0 < localeCompare y x.

(** The spot price and its reverse.  For a valid pool sqrt price [p] and two
    tokens the comparison tells apart, one direction returns the exact square
    [p * p] -- the one whose input token is token0 -- and the other direction
    returns [1 / (p * p)] rounded at 20 decimal places; both are finite and
    not negative.  Without the tokens being told apart, each call returns one
    of the two. *)
Theorem spot_price_and_its_reverse (a b : Token) (p : BigNumber) :
  validateNumericAmount p "poolSqrtPrice" false = Return tt →
  let square := times p p in
  let reciprocal := div (bigOfZ 1) square in
  calculateSpotPrice localeCompare a b p
    = Return (if compareTokens localeCompare a b <? 0 then square else reciprocal) ∧
  (compareTokens localeCompare a b ≠ 0 →
     calculateSpotPrice localeCompare b a p
       = Return (if compareTokens localeCompare a b <? 0 then reciprocal else square)) ∧
  isFinite square = true ∧ isNegative square = false ∧ isZero square = false ∧
  isFinite reciprocal = true ∧ isNegative reciprocal = false.
Proof.
  intros Hv square reciprocal.
  assert (Hcalc : ∀ x y, calculateSpotPrice localeCompare x y p
            = Return (if compareTokens localeCompare x y <? 0 then square else reciprocal)).
  { intros x y. unfold calculateSpotPrice. rewrite Hv, bind_Return.
    rewrite getTokenOrdering_nonstrict, bind_Return.
    by destruct (compareTokens localeCompare x y <? 0). }
  split; [apply Hcalc|]. split.
  - intros Hne. rewrite Hcalc.
    pose proof (localeCompare_antisym (stringifyTokenClassKey a "|")
                  (stringifyTokenClassKey b "|")) as Hab.
    pose proof (localeCompare_antisym (stringifyTokenClassKey b "|")
                  (stringifyTokenClassKey a "|")) as Hba.
    fold (compareTokens localeCompare a b) in Hab, Hba.
    fold (compareTokens localeCompare b a) in Hab, Hba.
    destruct (Z.ltb_spec (compareTokens localeCompare a b) 0);
      destruct (Z.ltb_spec (compareTokens localeCompare b a) 0); try done; lia.
  - apply validateNumericAmount_ok in Hv as (c & d & -> & [Hz|Hc]); [done|].
    unfold reciprocal, square. simpl.
    assert (Hcc : (c * c)%N ≠ 0%N) by lia.
    destruct (N.eqb_spec (c * c) 0); [done|]. done.
Qed.

End SpotPriceProperties.

Lemma spot_price_and_its_reverse_witness :
  calculateSpotPrice codeUnitCompare (TokenString "GALA|Unit|none|none")
      (TokenString "SILK|Unit|none|none") (decimal 25 1) = Return (decimal 625 2) ∧
  calculateSpotPrice codeUnitCompare (TokenString "SILK|Unit|none|none")
      (TokenString "GALA|Unit|none|none") (decimal 25 1)
    = Return (decimal 16000000000000000000 20).
Proof.
  assert (V : validateNumericAmount (decimal 25 1) "poolSqrtPrice" false = Return tt).
  { vm_compute. reflexivity. }
  pose proof (spot_price_and_its_reverse codeUnitCompare codeUnitCompare_antisym
                (TokenString "GALA|Unit|none|none") (TokenString "SILK|Unit|none|none")
                (decimal 25 1) V) as (H1 & H2 & _).
  split.
  - rewrite H1. vm_compute. reflexivity.
  - rewrite H2; [vm_compute; reflexivity|]. vm_compute. discriminate.
Defined.

Section TickProperties.

Variable nearestDouble : bool → N → N → JsNumber.
Variable roundedLogRatio : JsNumber → Z.

(** The tick of a price.  For a valid price (finite, not negative) and a
    positive integer tick spacing, [calculateTicksForPrice] returns a tick
    within [-886800, 886800]; unless the tick is one of the two bounds, it is
    a multiple of the tick spacing: the largest one not above the rounded
    logarithm of the price. *)
Theorem ticks_are_bounded_and_aligned (price : BigNumber) (tickSpacing : Z) :
  validateNumericAmount price "price" true = Return tt → 0 < tickSpacing →
  ∃ tick,
    calculateTicksForPrice nearestDouble roundedLogRatio price tickSpacing = Return tick ∧
    -886800 ≤ tick ≤ 886800 ∧
    (tick = -886800 ∨ tick = 886800 ∨
     (tick mod tickSpacing = 0 ∧
      tick ≤ roundedLogRatio (toNumber nearestDouble price) < tick + tickSpacing)).
Proof.
  intros Hv Hs. unfold calculateTicksForPrice. rewrite Hv, bind_Return.
  unfold validateTickSpacing. rewrite (proj2 (Z.leb_gt tickSpacing 0) Hs), bind_Return.
  destruct (toNumber nearestDouble price) as [|[|]|sz|sd m e] eqn:Hn;
    try (eexists; split; [reflexivity|]; split; [lia|]; by auto).
  all: eexists; split; [reflexivity|]; split; [lia|].
  all: set (u := roundedLogRatio _).
  all: pose proof (Z.mul_div_le u tickSpacing Hs);
       pose proof (Z.mul_succ_div_gt u tickSpacing Hs).
  all: destruct (Z.le_gt_cases (u / tickSpacing * tickSpacing) (-886800));
       [left; lia|].
  all: destruct (Z.le_gt_cases 886800 (u / tickSpacing * tickSpacing));
       [right; left; lia|].
  all: right; right.
  all: replace (Z.min (Z.max (u / tickSpacing * tickSpacing) (-886800)) 886800)
         with (u / tickSpacing * tickSpacing) by lia.
  all: split; [apply Z.mod_mul; lia | lia].
Qed.

(** What [validateTickRange] accepts, and how it fails: exactly the pairs
    with [-886800 <= tickLower < tickUpper <= 886800]; a pair that is not
    increasing is reported as INVALID_TICK_RANGE, also when it is out of
    bounds.  Hence two ticks returned by [calculateTicksForPrice] are accepted
    as a range exactly when the first is smaller than the second. *)
Theorem tick_range_validation (tickLower tickUpper : Z) :
  (validateTickRange tickLower tickUpper = Return tt ↔
     -886800 ≤ tickLower ∧ tickLower < tickUpper ∧ tickUpper ≤ 886800) ∧
  (tickUpper ≤ tickLower →
     validationType (validateTickRange tickLower tickUpper) = Some (VStr "INVALID_TICK_RANGE")) ∧
  (tickLower < tickUpper → (tickLower < -886800 ∨ 886800 < tickUpper) →
     validationType (validateTickRange tickLower tickUpper) = Some (VStr "INVALID_TICK_BOUNDS")) ∧
  (∀ price1 price2 spacing1 spacing2,
     calculateTicksForPrice nearestDouble roundedLogRatio price1 spacing1 = Return tickLower →
     calculateTicksForPrice nearestDouble roundedLogRatio price2 spacing2 = Return tickUpper →
     (validateTickRange tickLower tickUpper = Return tt ↔ tickLower < tickUpper)).
Proof.
  assert (Hchar : validateTickRange tickLower tickUpper = Return tt ↔
     -886800 ≤ tickLower ∧ tickLower < tickUpper ∧ tickUpper ≤ 886800).
  { unfold validateTickRange.
    destruct (Z.leb_spec tickUpper tickLower); [split; [done|lia]|].
    destruct (Z.ltb_spec tickLower (-886800)); simpl; [split; [done|lia]|].
    destruct (Z.ltb_spec 886800 tickUpper); simpl; [split; [done|lia]|].
    split; [lia|done]. }
  split; [done|]. split; [|split].
  - intros H. unfold validateTickRange. by rewrite (proj2 (Z.leb_le _ _) H).
  - intros H1 H2. unfold validateTickRange.
    rewrite (proj2 (Z.leb_gt _ _) H1).
    destruct H2 as [H2|H2].
    + by rewrite (proj2 (Z.ltb_lt _ _) H2).
    + rewrite (proj2 (Z.ltb_lt 886800 _) H2), orb_true_r. done.
  - intros price1 price2 spacing1 spacing2 E1 E2. rewrite Hchar.
    assert (Hrange : ∀ price spacing tick,
              calculateTicksForPrice nearestDouble roundedLogRatio price spacing = Return tick →
              -886800 ≤ tick ≤ 886800).
    { intros price spacing tick E. unfold calculateTicksForPrice in E.
      destruct (validateNumericAmount price "price" true) as [[]|e]; [|done].
      rewrite bind_Return in E.
      destruct (validateTickSpacing spacing) as [[]|e]; [|done].
      rewrite bind_Return in E.
      destruct (toNumber nearestDouble price) as [|[|]|sz|sd m e];
        injection E as <-; lia. }
    pose proof (Hrange _ _ _ E1). pose proof (Hrange _ _ _ E2). lia.
Qed.

End TickProperties.

Lemma ticks_are_bounded_and_aligned_witness :
  ∃ tick,
    calculateTicksForPrice (λ _ _ _, NumDouble false 5 0) (λ _, 16095) (bigOfZ 5) 200
      = Return tick ∧ tick = 16000.
Proof.
  assert (V : validateNumericAmount (bigOfZ 5) "price" true = Return tt).
  { vm_compute. reflexivity. }
  destruct (ticks_are_bounded_and_aligned (λ _ _ _, NumDouble false 5 0) (λ _, 16095)
              (bigOfZ 5) 200 V ltac:(lia)) as (tick & E & _).
  exists tick. split; [exact E|]. vm_compute in E. by injection E.
Defined.

(** ** The paired amount at the edge of the price range *)


Section PositionSizeEdge.

Variable numberPowTen : Z → BigNumber.

(** The current price at the upper end of the range.  The price validation
    only asks for [lower <= upper]: it lets a current price equal to the
    upper price through.  The liquidity is then a division by
    [sqrt(upper) - sqrt(current) = 0], and [calculateOptimalPositionSize]
    does not throw: it returns a value that is not finite (Infinity or NaN);
    it is NaN when the lower price is that same price too. *)
Theorem position_size_is_not_finite_at_upper_price
    (tokenAmount spotPrice lowerPrice upperPrice : BigNumber)
    (tokenDecimals otherTokenDecimals : Z) :
  validateNumericAmount tokenAmount "tokenAmount" false = Return tt →
  validatePriceValues spotPrice lowerPrice upperPrice = Return tt →
  0 ≤ tokenDecimals → 0 ≤ otherTokenDecimals ≤ MAX_DP →
  spotPrice = (if isFinite upperPrice then upperPrice else upperPriceCeiling) →
  ∃ result,
    calculateOptimalPositionSize numberPowTen tokenAmount spotPrice lowerPrice upperPrice
        tokenDecimals otherTokenDecimals = Return result ∧
    isFinite result = false ∧
    (lowerPrice = spotPrice → result = BNaN).
Proof.
  intros Hamount Hprices HdA HdB Hspot.
  unfold calculateOptimalPositionSize.
  rewrite Hamount, bind_Return, Hprices, bind_Return.
  rewrite !validateTokenDecimals_ok, !bind_Return by lia.
  rewrite (proj2 (Z.ltb_ge MAX_DP otherTokenDecimals)) by lia.
  rewrite <- Hspot.
  assert (Hfin : isFinite (sqrt spotPrice) = true).
  { unfold validatePriceValues in Hprices.
    destruct spotPrice as [| |s c d]; simpl in Hprices; try done.
    apply sqrt_finite. destruct s; [|by left].
    simpl in Hprices. rewrite !orb_true_r in Hprices. simpl in Hprices.
    destruct (negb (isFinite lowerPrice)), 
             (negb (isFinite (if isFinite upperPrice then upperPrice else upperPriceCeiling)));
      simpl in Hprices; done. }
  assert (Hzero : isZero (minus (sqrt spotPrice) (sqrt spotPrice)) = true).
  { destruct (minus_self _ Hfin) as [-> | ->]; done. }
  set (numerator := times _ (sqrt spotPrice)).
  pose proof (div_by_zero numerator _ Hzero) as Hliq.
  set (liquidity := div numerator _) in *.
  eexists. split; [reflexivity|]. split.
  - rewrite toFixedRoundDown_nonfinite; by apply div_nonfinite, times_nonfinite.
  - intros ->. rewrite (times_NaN_zero _ _ Hliq Hzero). done.
Qed.

End PositionSizeEdge.

Lemma position_size_is_not_finite_at_upper_price_witness :
  calculateOptimalPositionSize (λ _, bigOfZ 100) (decimal 1000 0) (decimal 55 2) (decimal 45 2)
      (decimal 55 2) 8 6 = Return (BInfinity false).
Proof.
  assert (V1 : validateNumericAmount (decimal 1000 0) "tokenAmount" false = Return tt).
  { vm_compute. reflexivity. }
  assert (V2 : validatePriceValues (decimal 55 2) (decimal 45 2) (decimal 55 2) = Return tt).
  { vm_compute. reflexivity. }
  assert (D1 : 0 ≤ 8) by lia.
  assert (D2 : 0 ≤ 6 ≤ MAX_DP) by (unfold MAX_DP; lia).
  assert (S : decimal 55 2 = (if isFinite (decimal 55 2) then decimal 55 2 else upperPriceCeiling)).
  { reflexivity. }
  destruct (position_size_is_not_finite_at_upper_price (λ _, bigOfZ 100) (decimal 1000 0)
              (decimal 55 2) (decimal 45 2) (decimal 55 2) 8 6 V1 V2 D1 D2 S)
    as (result & E & _ & _).
  rewrite E. f_equal.
  assert (E' : calculateOptimalPositionSize (λ _, bigOfZ 100) (decimal 1000 0) (decimal 55 2)
                 (decimal 45 2) (decimal 55 2) 8 6 = Return (BInfinity false)).
  { vm_compute. reflexivity. }
  rewrite E' in E. by injection E.
Defined.

(** ** One tier's quote *)

Section CompletionFacts.

Lemma bind_Return_inv {A B} (c : Completion A) (f : A → Completion B) (b : B) :
  (c ≫= f) = Return b → ∃ a, c = Return a ∧ f a = Return b.
Proof. destruct c as [a|e]; [|done]. intros H. by exists a. Qed.

Lemma validation_unit_inv {B} (c : Completion unit) (f : unit → Completion B) (b : B) :
  (c ≫= f) = Return b → c = Return tt ∧ f tt = Return b.
Proof. destruct c as [[]|e]; [|done]. by intros H. Qed.

Lemma validateNumericAmount_name amount name name' allowZero :
  validateNumericAmount amount name allowZero = Return tt →
  validateNumericAmount amount name' allowZero = Return tt.
Proof. rewrite !validateNumericAmount_ok. done. Qed.

Lemma parseTokenClassKey_throws t e :
  parseTokenClassKey t = Throw e →
  ∃ s, t = TokenString s ∧ e = SdkError (invalidTokenClassKeyError s).
Proof.
  destruct t as [s|k]; [|done]. intros H. exists s. split; [done|].
  simpl in H. destruct (split pipe s) as [|p1 [|p2 [|p3 [|p4 rest]]]];
    try (by injection H as <-).
  destruct (isEmptyString p1 || isEmptyString p2 || isEmptyString p3 || isEmptyString p4);
    [by injection H as <- | done].
Qed.

End CompletionFacts.

Section SingleQuoteProperties.

Variable localeCompare : string → string → Z.
Variable sendQuoteRequest : QuoteExactAmountRequest.t → Completion QuoteExactAmountResponse.t.

Lemma canonicalToken_compare tokenIn tokenOut kin kout :
  parseTokenClassKey tokenIn = Return kin → parseTokenClassKey tokenOut = Return kout →
  canonicalToken tokenIn = true → canonicalToken tokenOut = true →
  compareTokens localeCompare (TokenKey kin) (TokenKey kout)
    = compareTokens localeCompare tokenIn tokenOut.
Proof.
  unfold canonicalToken. intros -> -> Hin Hout.
  apply String.eqb_eq in Hin, Hout. unfold compareTokens. by rewrite Hin, Hout.
Qed.

(** The prices of a quote are the pool's spot prices.  When
    [getSingleQuote] returns a quote for two tokens given in canonical form
    (objects, or strings of exactly four pieces), its [currentPrice] and
    [newPrice] are what [Pools.calculateSpotPrice] returns for the same two
    tokens on the quote's square-root prices (where that function accepts
    them: finite and positive); the price impact is their relative
    difference, and the in and out amounts are not negative. *)
Theorem quote_prices_are_spot_prices (tokenIn tokenOut : Token) (fee : FEE_TIER)
    (amount : BigNumber) (isExactInput : bool) (quote : GetQuoteResult) :
  getSingleQuote localeCompare sendQuoteRequest tokenIn tokenOut fee amount isExactInput
    = Return quote →
  canonicalToken tokenIn = true → canonicalToken tokenOut = true →
  validateNumericAmount (currentPoolSqrtPrice quote) "poolSqrtPrice" false = Return tt →
  validateNumericAmount (newPoolSqrtPrice quote) "poolSqrtPrice" false = Return tt →
  calculateSpotPrice localeCompare tokenIn tokenOut (currentPoolSqrtPrice quote)
    = Return (currentPrice quote) ∧
  calculateSpotPrice localeCompare tokenIn tokenOut (newPoolSqrtPrice quote)
    = Return (newPrice quote) ∧
  priceImpact quote = div (minus (newPrice quote) (currentPrice quote)) (currentPrice quote) ∧
  isNegative (inTokenAmount quote) = false ∧ isNegative (outTokenAmount quote) = false.
Proof.
  intros Hq Hcin Hcout Hcur Hnew. unfold getSingleQuote in Hq.
  apply bind_Return_inv in Hq as (kin & Hin & Hq).
  apply bind_Return_inv in Hq as (kout & Hout & Hq).
  rewrite getTokenOrdering_nonstrict, bind_Return in Hq.
  rewrite (canonicalToken_compare _ _ _ _ Hin Hout Hcin Hcout) in Hq.
  apply bind_Return_inv in Hq as (response & _ & Hq).
  injection Hq as <-. simpl in *.
  unfold calculateSpotPrice. rewrite Hcur, Hnew, !bind_Return.
  rewrite !getTokenOrdering_nonstrict, !bind_Return.
  destruct (compareTokens localeCompare tokenIn tokenOut <? 0); simpl;
    repeat split; try done.
  all: by destruct (QuoteExactAmountResponse.amount0 response),
                   (QuoteExactAmountResponse.amount1 response).
Qed.

(** A malformed token string fails a quote before anything is sent.  With a
    valid amount, a token string that [parseTokenClassKey] rejects makes
    [quoteExactInput] and [quoteExactOutput] throw that
    INVALID_TOKEN_CLASS_KEY error, for one fee tier and for all tiers alike,
    whatever the gateway would have answered and in whatever order the tiers
    settle: the error is not taken for an absent pool. *)
Theorem malformed_token_fails_the_quote (settlesAt : FEE_TIER → nat) (tokenIn tokenOut : Token)
    (amount : BigNumber) (fee : option FEE_TIER) (e : Thrown) :
  validateNumericAmount amount "amountIn" false = Return tt →
  parseTokenClassKey tokenIn = Throw e ∨
    ((∃ k, parseTokenClassKey tokenIn = Return k) ∧ parseTokenClassKey tokenOut = Throw e) →
  quoteExactInput (getSingleQuote localeCompare sendQuoteRequest) settlesAt
      tokenIn tokenOut amount fee = Throw e ∧
  quoteExactOutput (getSingleQuote localeCompare sendQuoteRequest) settlesAt
      tokenIn tokenOut amount fee = Throw e ∧
  isSdkErrorWithCode "INVALID_TOKEN_CLASS_KEY" e = true ∧ isPoolAbsent e = false.
Proof.
  intros Hv Hparse.
  assert (Hreq : ∀ f b,
            getSingleQuote localeCompare sendQuoteRequest tokenIn tokenOut f amount b = Throw e).
  { intros f b. unfold getSingleQuote.
    destruct Hparse as [-> | [[k ->] ->]]; done. }
  assert (He : ∃ s, e = SdkError (invalidTokenClassKeyError s)).
  { destruct Hparse as [H | [_ H]]; apply parseTokenClassKey_throws in H as (s & _ & ->);
      by exists s. }
  destruct He as [s ->].
  assert (Habsent : isPoolAbsent (SdkError (invalidTokenClassKeyError s)) = false) by done.
  split; [|split; [|done]].
  - unfold quoteExactInput. rewrite Hv, bind_Return.
    destruct fee as [f|]; [apply Hreq|].
    unfold getSingleQuoteExactInput, allFees. simpl. rewrite !Hreq. simpl.
    unfold promiseAll. simpl.
    destruct (settlesAt PERCENT_01_00 <? settlesAt PERCENT_00_30)%nat;
      by destruct (_ <? settlesAt PERCENT_00_05)%nat.
  - unfold quoteExactOutput.
    rewrite (validateNumericAmount_name _ _ "amountOut" _ Hv), bind_Return.
    destruct fee as [f|]; [apply Hreq|].
    unfold getSingleQuoteExactOutput, allFees. simpl. rewrite !Hreq. simpl.
    unfold promiseAll. simpl.
    destruct (settlesAt PERCENT_01_00 <? settlesAt PERCENT_00_30)%nat;
      by destruct (_ <? settlesAt PERCENT_00_05)%nat.
Qed.

End SingleQuoteProperties.

Lemma quote_prices_are_spot_prices_witness :
  ∃ quote,
    getSingleQuote codeUnitCompare exampleResponse (TokenString "GALA|Unit|none|none")
      (TokenString "SILK|Unit|none|none") PERCENT_00_30 (bigOfZ 100) true = Return quote ∧
    calculateSpotPrice codeUnitCompare (TokenString "GALA|Unit|none|none")
      (TokenString "SILK|Unit|none|none") (decimal 25 1) = Return (currentPrice quote) ∧
    currentPrice quote = decimal 625 2 ∧ outTokenAmount quote = bigOfZ 45.
Proof.
  destruct (getSingleQuote codeUnitCompare exampleResponse (TokenString "GALA|Unit|none|none")
              (TokenString "SILK|Unit|none|none") PERCENT_00_30 (bigOfZ 100) true)
    as [quote|e] eqn:E; [|vm_compute in E; discriminate E].
  exists quote.
  pose proof E as E'. vm_compute in E'. injection E' as Q.
  assert (C1 : canonicalToken (TokenString "GALA|Unit|none|none") = true).
  { vm_compute. reflexivity. }
  assert (C2 : canonicalToken (TokenString "SILK|Unit|none|none") = true).
  { vm_compute. reflexivity. }
  assert (V1 : validateNumericAmount (currentPoolSqrtPrice quote) "poolSqrtPrice" false
               = Return tt).
  { rewrite <- Q. vm_compute. reflexivity. }
  assert (V2 : validateNumericAmount (newPoolSqrtPrice quote) "poolSqrtPrice" false
               = Return tt).
  { rewrite <- Q. vm_compute. reflexivity. }
  pose proof (quote_prices_are_spot_prices codeUnitCompare exampleResponse _ _ _ _ _ _
                E C1 C2 V1 V2) as (H1 & _).
  split; [reflexivity|]. split.
  - replace (decimal 25 1) with (currentPoolSqrtPrice quote) by (rewrite <- Q; reflexivity).
    exact H1.
  - rewrite <- Q. split; reflexivity.
Defined.

Lemma malformed_token_fails_the_quote_witness :
  quoteExactInput (getSingleQuote codeUnitCompare exampleResponse) (λ _, 0%nat)
      (TokenString "GALA|Unit|none") (TokenString "SILK|Unit|none|none") (bigOfZ 100) None
    = Throw (SdkError (invalidTokenClassKeyError "GALA|Unit|none")).
Proof.
  assert (V : validateNumericAmount (bigOfZ 100) "amountIn" false = Return tt).
  { vm_compute. reflexivity. }
  assert (P : parseTokenClassKey (TokenString "GALA|Unit|none")
              = Throw (SdkError (invalidTokenClassKeyError "GALA|Unit|none"))).
  { vm_compute. reflexivity. }
  pose proof (malformed_token_fails_the_quote codeUnitCompare exampleResponse (λ _, 0%nat)
                (TokenString "GALA|Unit|none") (TokenString "SILK|Unit|none|none")
                (bigOfZ 100) None _ V (or_introl P)) as (H & _).
  exact H.
Defined.

(** ** The swap request *)

Section SwapProperties.

Variable localeCompare : string → string → Z.
Variable trim : string → string.

Lemma times_minus_one_negative x :
  validateNumericAmount x "x" false = Return tt → isNegative (times x (bigOfZ (-1))) = true.
Proof. intros H. apply validateNumericAmount_ok in H as (c & d & -> & _). done. Qed.

(** Whatever the bundler service is, [swap] calls it with the request it
    hands to the recording one. *)
Lemma swap_calls_bundler {R : Type}
    (sendBundlerRequest : string → SwapDto.t → list string → Completion R)
    (walletAddress : string) (tokenIn tokenOut : Token) (fee : Z) (amount : SwapAmount) :
  swap localeCompare trim sendBundlerRequest walletAddress tokenIn tokenOut fee amount
    = (swap localeCompare trim recordCall walletAddress tokenIn tokenOut fee amount
         ≫= λ call, sendBundlerRequest call.1.1 call.1.2 call.2).
Proof.
  unfold swap.
  repeat (lazymatch goal with
          | |- (?c ≫= _) = ((?c ≫= _) ≫= _) =>
              destruct c as [?|?]; [rewrite !bind_Return | reflexivity]
          end).
  reflexivity.
Qed.

(** The direction of a swap request.  When [swap] reaches the bundler, the
    request is a "Swap" whose token0 and token1 are the two tokens in
    canonical order; its [zeroForOne] flag says whether the input token is
    token0, and its price limit is the lower extreme exactly when the input
    token sorts strictly first.  The two agree unless the two tokens have the
    same string form: swapping a token for itself is not refused, and sends
    [zeroForOne = true] with the upper price limit.  The sign of the amount
    tells the kind of swap: positive for an exact input, negative for an
    exact output.  Any other bundler is called with the same request. *)
Theorem swap_request_direction (walletAddress : string) (tokenIn tokenOut : Token) (fee : Z)
    (amount : SwapAmount) (method : string) (dto : SwapDto.t) (instructions : list string) :
  swap localeCompare trim recordCall walletAddress tokenIn tokenOut fee amount
    = Return (method, dto, instructions) →
  let sIn := stringifyTokenClassKey tokenIn "|" in
  let sOut := stringifyTokenClassKey tokenOut "|" in
  let first := localeCompare sIn sOut <? 0 in
  method = "Swap" ∧
  parseTokenClassKey (if first then tokenIn else tokenOut) = Return (SwapDto.token0 dto) ∧
  parseTokenClassKey (if first then tokenOut else tokenIn) = Return (SwapDto.token1 dto) ∧
  SwapDto.zeroForOne dto = first || String.eqb sIn sOut ∧
  SwapDto.sqrtPriceLimit dto = (if first then MIN_SQRT_PRICE_LIMIT else MAX_SQRT_PRICE_LIMIT) ∧
  (sIn ≠ sOut →
     SwapDto.sqrtPriceLimit dto
       = if SwapDto.zeroForOne dto then MIN_SQRT_PRICE_LIMIT else MAX_SQRT_PRICE_LIMIT) ∧
  (sIn = sOut → first = false →
     SwapDto.zeroForOne dto = true ∧ SwapDto.sqrtPriceLimit dto = MAX_SQRT_PRICE_LIMIT) ∧
  isNegative (SwapDto.amount dto)
    = match amount with ExactIn _ _ => false | ExactOut _ _ => true end ∧
  SwapDto.recipient dto = walletAddress ∧ SwapDto.fee dto = fee ∧ 0 ≤ fee ∧
  ∀ (R : Type) (sendBundlerRequest : string → SwapDto.t → list string → Completion R),
    swap localeCompare trim sendBundlerRequest walletAddress tokenIn tokenOut fee amount
      = sendBundlerRequest method dto instructions.
Proof.
  intros H sIn sOut first.
  assert (Hany : ∀ (R : Type) (sendBundlerRequest : string → SwapDto.t → list string → Completion R),
            swap localeCompare trim sendBundlerRequest walletAddress tokenIn tokenOut fee amount
              = sendBundlerRequest method dto instructions).
  { intros R send. by rewrite swap_calls_bundler, H. }
  unfold swap in H.
  apply validation_unit_inv in H as (_ & H).
  apply validation_unit_inv in H as (Hvfee & H).
  assert (Hfee : 0 ≤ fee).
  { unfold validateFee in Hvfee. destruct (Z.ltb_spec fee 0); [done|lia]. }
  apply validation_unit_inv in H as (Hamounts & H).
  rewrite getTokenOrdering_nonstrict, bind_Return in H.
  assert (Hsign : isNegative
            match amount with
            | ExactIn exactIn _ => exactIn
            | ExactOut exactOut _ => times exactOut (bigOfZ (-1))
            end = match amount with ExactIn _ _ => false | ExactOut _ _ => true end).
  { destruct amount as [a m|a m].
    - apply validation_unit_inv in Hamounts as (Ha & _).
      apply validateNumericAmount_ok in Ha as (c & d & -> & _). done.
    - apply validation_unit_inv in Hamounts as (Ha & _).
      apply (times_minus_one_negative a), (validateNumericAmount_name _ _ _ _ Ha). }
  change (compareTokens localeCompare tokenIn tokenOut) with (localeCompare sIn sOut) in H.
  fold first in H.
  destruct first eqn:Hfirst; cbn [token0 token1 zeroForOne] in H.
  - apply bind_Return_inv in H as (k0 & Hk0 & H).
    apply bind_Return_inv in H as (k1 & Hk1 & H).
    unfold recordCall in H. injection H as <- <- <-.
    cbn [SwapDto.token0 SwapDto.token1 SwapDto.zeroForOne SwapDto.sqrtPriceLimit
         SwapDto.amount SwapDto.recipient SwapDto.fee].
    rewrite String.eqb_refl in Hany |- *. repeat split; try done.
  - apply bind_Return_inv in H as (k0 & Hk0 & H).
    apply bind_Return_inv in H as (k1 & Hk1 & H).
    unfold recordCall in H. injection H as <- <- <-.
    cbn [SwapDto.token0 SwapDto.token1 SwapDto.zeroForOne SwapDto.sqrtPriceLimit
         SwapDto.amount SwapDto.recipient SwapDto.fee].
    fold sIn sOut. repeat split; try done.
    + intros Hne. by rewrite (proj2 (String.eqb_neq sIn sOut) Hne).
    + match goal with Heq : sIn = sOut |- _ => rewrite Heq end. apply String.eqb_refl.
Qed.

End SwapProperties.

Lemma swap_request_direction_witness :
  ∃ dto instructions,
    swap codeUnitCompare (λ s, s) recordCall "eth|abc" (TokenString "SILK|Unit|none|none")
      (TokenString "GALA|Unit|none|none") 500 (ExactOut (bigOfZ 45) (Some (bigOfZ 100)))
      = Return ("Swap", dto, instructions) ∧
    SwapDto.zeroForOne dto = false ∧
    SwapDto.sqrtPriceLimit dto = MAX_SQRT_PRICE_LIMIT ∧
    SwapDto.token0 dto = mkClassKey "GALA" "Unit" "none" "none" ∧
    SwapDto.amount dto = bigOfZ (-45).
Proof.
  destruct (swap codeUnitCompare (λ s, s) recordCall "eth|abc" (TokenString "SILK|Unit|none|none")
              (TokenString "GALA|Unit|none|none") 500 (ExactOut (bigOfZ 45) (Some (bigOfZ 100))))
    as [[[method dto] instructions]|e] eqn:E; [|vm_compute in E; discriminate E].
  pose proof (swap_request_direction codeUnitCompare (λ s, s) _ _ _ _ _ _ _ _ E)
    as (Hm & _ & _ & Hz & Hl & _).
  pose proof E as E'. vm_compute in E'. injection E' as Q1 Q2 Q3.
  exists dto, instructions. rewrite Hm. split; [reflexivity|].
  split; [rewrite Hz; vm_compute; reflexivity|].
  split; [rewrite Hl; vm_compute; reflexivity|].
  rewrite <- Q2. split; reflexivity.
Defined.

(** ** Adding liquidity by ticks and by price *)

Section AddLiquidityProperties.

Variable localeCompare : string → string → Z.
Variable trim : string → string.
Variable nearestDouble : bool → N → N → JsNumber.
Variable roundedLogRatio : JsNumber → Z.
Variable defaultWalletAddress : option string.

Abbreviation byTicks := (addLiquidityByTicks localeCompare trim defaultWalletAddress).
Abbreviation byPrice :=
  (addLiquidityByPrice localeCompare trim nearestDouble roundedLogRatio defaultWalletAddress).
Abbreviation ticksFor := (calculateTicksForPrice nearestDouble roundedLogRatio).

Ltac through_binds :=
  repeat (lazymatch goal with
          | |- (?c ≫= _) = ((?c ≫= _) ≫= _) =>
              destruct c as [?|?]; [rewrite !bind_Return | reflexivity]
          | |- (if ?b then _ else _) = ((if ?b then _ else _) ≫= _) =>
              destruct b; [reflexivity|]
          end).

Lemma addLiquidityByPrice_calls_bundler {R : Type}
    (sendBundlerRequest : string → AddLiquidityDto.t → list string → Completion R)
    (args : AddLiquidityByPriceArgs.t) :
  byPrice sendBundlerRequest args
    = (byPrice recordCall args ≫= λ call, sendBundlerRequest call.1.1 call.1.2 call.2).
Proof. unfold addLiquidityByPrice. through_binds. reflexivity. Qed.

Lemma addLiquidityByTicks_calls_bundler {R : Type}
    (sendBundlerRequest : string → AddLiquidityDto.t → list string → Completion R)
    (args : AddLiquidityByTicksArgs.t) :
  byTicks sendBundlerRequest args
    = (byTicks recordCall args ≫= λ call, sendBundlerRequest call.1.1 call.1.2 call.2).
Proof. unfold addLiquidityByTicks. through_binds. reflexivity. Qed.

Lemma strict_ordering_inv {A} (first second : Token) (d1 d2 : A) (o : TokenOrdering A) :
  getTokenOrdering localeCompare first second true d1 d2 = Return o →
  compareTokens localeCompare first second < 0 ∧ o = mkOrdering first second true d1 d2.
Proof.
  unfold getTokenOrdering.
  destruct (Z.ltb_spec (compareTokens localeCompare first second) 0) as [Hlt|Hge]; [|done].
  intros H. by injection H as <-.
Qed.

Lemma calculateTicksForPrice_range price spacing tick :
  ticksFor price spacing = Return tick → -886800 ≤ tick ≤ 886800.
Proof.
  intros E. unfold calculateTicksForPrice in E.
  apply validation_unit_inv in E as (_ & E).
  apply validation_unit_inv in E as (_ & E).
  destruct (toNumber nearestDouble price) as [|[|]|sz|sd m e]; injection E as <-; lia.
Qed.

(** What a call of [addLiquidityByPrice] that reaches the bundler went
    through. *)
Lemma addLiquidityByPrice_inv (args : AddLiquidityByPriceArgs.t) method dto instructions :
  byPrice recordCall args = Return (method, dto, instructions) →
  validateWalletAddress trim
      (nullish (AddLiquidityByPriceArgs.walletAddress args) defaultWalletAddress)
    = Return tt ∧
  validateFee (AddLiquidityByPriceArgs.fee args) = Return tt ∧
  isGreaterThan (AddLiquidityByPriceArgs.minPrice args) (AddLiquidityByPriceArgs.maxPrice args)
    = false ∧
  ∃ k0 k1 tickLower tickUpper,
    parseTokenClassKey (AddLiquidityByPriceArgs.token0 args) = Return k0 ∧
    parseTokenClassKey (AddLiquidityByPriceArgs.token1 args) = Return k1 ∧
    compareTokens localeCompare (TokenKey k0) (TokenKey k1) < 0 ∧
    ticksFor (AddLiquidityByPriceArgs.minPrice args) (AddLiquidityByPriceArgs.tickSpacing args)
      = Return tickLower ∧
    ticksFor (AddLiquidityByPriceArgs.maxPrice args) (AddLiquidityByPriceArgs.tickSpacing args)
      = Return tickUpper ∧
    method = "AddLiquidity" ∧
    dto = AddLiquidityDto.mk (TokenKey k0) (TokenKey k1) (AddLiquidityByPriceArgs.fee args)
            (AddLiquidityByPriceArgs.walletAddress args) tickLower tickUpper
            (AddLiquidityByPriceArgs.amount0Desired args)
            (AddLiquidityByPriceArgs.amount1Desired args)
            (AddLiquidityByPriceArgs.amount0Min args)
            (AddLiquidityByPriceArgs.amount1Min args)
            (AddLiquidityByPriceArgs.positionId args) ∧
    instructions = liquidityInstructions (TokenKey k0) (TokenKey k1)
                     (AddLiquidityByPriceArgs.fee args)
                     (AddLiquidityByPriceArgs.walletAddress args).
Proof.
  intros H. unfold addLiquidityByPrice in H.
  apply validation_unit_inv in H as (Hw & H).
  apply validation_unit_inv in H as (Hfee & H).
  do 7 apply validation_unit_inv in H as (_ & H).
  destruct (isGreaterThan _ _) eqn:Hgt; [done|].
  apply bind_Return_inv in H as (k0 & Hk0 & H).
  apply bind_Return_inv in H as (k1 & Hk1 & H).
  apply bind_Return_inv in H as (o & Ho & H).
  apply strict_ordering_inv in Ho as (Hlt & ->).
  apply bind_Return_inv in H as (tl & Htl & H).
  apply bind_Return_inv in H as (tu & Htu & H).
  unfold recordCall in H. injection H as <- <- <-.
  split; [exact Hw|]. split; [exact Hfee|]. split; [done|].
  exists k0, k1, tl, tu. repeat split; done.
Qed.

Lemma addLiquidityByTicks_inv (args : AddLiquidityByTicksArgs.t) method dto instructions :
  byTicks recordCall args = Return (method, dto, instructions) →
  validateWalletAddress trim
      (nullish (AddLiquidityByTicksArgs.walletAddress args) defaultWalletAddress)
    = Return tt ∧
  validateTickRange (AddLiquidityByTicksArgs.tickLower args)
                    (AddLiquidityByTicksArgs.tickUpper args) = Return tt ∧
  ∃ k0 k1,
    parseTokenClassKey (AddLiquidityByTicksArgs.token0 args) = Return k0 ∧
    parseTokenClassKey (AddLiquidityByTicksArgs.token1 args) = Return k1 ∧
    compareTokens localeCompare (TokenKey k0) (TokenKey k1) < 0 ∧
    method = "AddLiquidity" ∧
    dto = AddLiquidityDto.mk (TokenKey k0) (TokenKey k1) (AddLiquidityByTicksArgs.fee args)
            (AddLiquidityByTicksArgs.walletAddress args)
            (AddLiquidityByTicksArgs.tickLower args) (AddLiquidityByTicksArgs.tickUpper args)
            (AddLiquidityByTicksArgs.amount0Desired args)
            (AddLiquidityByTicksArgs.amount1Desired args)
            (AddLiquidityByTicksArgs.amount0Min args)
            (AddLiquidityByTicksArgs.amount1Min args)
            (AddLiquidityByTicksArgs.positionId args) ∧
    instructions = liquidityInstructions (TokenKey k0) (TokenKey k1)
                     (AddLiquidityByTicksArgs.fee args)
                     (AddLiquidityByTicksArgs.walletAddress args).
Proof.
  intros H. unfold addLiquidityByTicks in H.
  apply validation_unit_inv in H as (Hw & H).
  apply validation_unit_inv in H as (_ & H).
  apply validation_unit_inv in H as (Hrange & H).
  do 4 apply validation_unit_inv in H as (_ & H).
  apply bind_Return_inv in H as (k0 & Hk0 & H).
  apply bind_Return_inv in H as (k1 & Hk1 & H).
  apply bind_Return_inv in H as (o & Ho & H).
  apply strict_ordering_inv in Ho as (Hlt & ->).
  unfold recordCall in H. injection H as <- <- <-.
  split; [exact Hw|]. split; [exact Hrange|].
  exists k0, k1. repeat split; done.
Qed.

(** Adding liquidity by price keeps the caller's order.  When
    [addLiquidityByPrice] reaches the bundler, the two tokens parse and the
    first sorts strictly before the second; the request carries them in that
    order with the four amounts unswapped, its lower tick is the tick of
    [minPrice] and its upper tick the tick of [maxPrice] -- never a negated
    tick -- and both lie within [-886800, 886800].  Any other bundler is
    called with the same request. *)
Theorem add_liquidity_by_price_keeps_order (args : AddLiquidityByPriceArgs.t)
    (method : string) (dto : AddLiquidityDto.t) (instructions : list string) :
  byPrice recordCall args = Return (method, dto, instructions) →
  method = "AddLiquidity" ∧
  (∃ k0 k1,
     parseTokenClassKey (AddLiquidityByPriceArgs.token0 args) = Return k0 ∧
     parseTokenClassKey (AddLiquidityByPriceArgs.token1 args) = Return k1 ∧
     AddLiquidityDto.token0 dto = TokenKey k0 ∧ AddLiquidityDto.token1 dto = TokenKey k1 ∧
     compareTokens localeCompare (TokenKey k0) (TokenKey k1) < 0) ∧
  ticksFor (AddLiquidityByPriceArgs.minPrice args) (AddLiquidityByPriceArgs.tickSpacing args)
    = Return (AddLiquidityDto.tickLower dto) ∧
  ticksFor (AddLiquidityByPriceArgs.maxPrice args) (AddLiquidityByPriceArgs.tickSpacing args)
    = Return (AddLiquidityDto.tickUpper dto) ∧
  -886800 ≤ AddLiquidityDto.tickLower dto ≤ 886800 ∧
  -886800 ≤ AddLiquidityDto.tickUpper dto ≤ 886800 ∧
  AddLiquidityDto.amount0Desired dto = AddLiquidityByPriceArgs.amount0Desired args ∧
  AddLiquidityDto.amount1Desired dto = AddLiquidityByPriceArgs.amount1Desired args ∧
  AddLiquidityDto.amount0Min dto = AddLiquidityByPriceArgs.amount0Min args ∧
  AddLiquidityDto.amount1Min dto = AddLiquidityByPriceArgs.amount1Min args ∧
  ∀ (R : Type) (sendBundlerRequest : string → AddLiquidityDto.t → list string → Completion R),
    byPrice sendBundlerRequest args = sendBundlerRequest method dto instructions.
Proof.
  intros H.
  assert (Hany : ∀ (R : Type)
                   (sendBundlerRequest : string → AddLiquidityDto.t → list string → Completion R),
            byPrice sendBundlerRequest args = sendBundlerRequest method dto instructions).
  { intros R send. by rewrite addLiquidityByPrice_calls_bundler, H. }
  apply addLiquidityByPrice_inv in H
    as (_ & _ & _ & k0 & k1 & tl & tu & Hk0 & Hk1 & Hlt & Htl & Htu & -> & -> & ->).
  cbn [AddLiquidityDto.token0 AddLiquidityDto.token1 AddLiquidityDto.tickLower
       AddLiquidityDto.tickUpper AddLiquidityDto.amount0Desired AddLiquidityDto.amount1Desired
       AddLiquidityDto.amount0Min AddLiquidityDto.amount1Min].
  split; [done|]. split; [by exists k0, k1|].
  split; [done|]. split; [done|].
  split; [by apply (calculateTicksForPrice_range _ _ _ Htl)|].
  split; [by apply (calculateTicksForPrice_range _ _ _ Htu)|].
  repeat split; try done.
Qed.

(** Adding liquidity by price does not check the tick range.  With
    [minPrice = maxPrice], which the price check lets through, a call that
    reaches the bundler sends [tickLower = tickUpper]: a range that
    [validateTickRange] refuses, so that [addLiquidityByTicks] on the very
    ticks, tokens and amounts of the request throws INVALID_TICK_RANGE and
    calls no bundler. *)
Theorem add_liquidity_by_price_sends_an_empty_range (args : AddLiquidityByPriceArgs.t)
    (method : string) (dto : AddLiquidityDto.t) (instructions : list string) :
  byPrice recordCall args = Return (method, dto, instructions) →
  AddLiquidityByPriceArgs.minPrice args = AddLiquidityByPriceArgs.maxPrice args →
  AddLiquidityDto.tickLower dto = AddLiquidityDto.tickUpper dto ∧
  ∃ e : Thrown,
    validateTickRange (AddLiquidityDto.tickLower dto) (AddLiquidityDto.tickUpper dto) = Throw e ∧
    validationType (@Throw unit e) = Some (VStr "INVALID_TICK_RANGE") ∧
    ∀ (R : Type) (sendBundlerRequest : string → AddLiquidityDto.t → list string → Completion R),
      byTicks sendBundlerRequest
        (AddLiquidityByTicksArgs.mk
           (AddLiquidityByPriceArgs.walletAddress args) (AddLiquidityByPriceArgs.positionId args)
           (AddLiquidityByPriceArgs.token0 args) (AddLiquidityByPriceArgs.token1 args)
           (AddLiquidityByPriceArgs.fee args)
           (AddLiquidityDto.tickLower dto) (AddLiquidityDto.tickUpper dto)
           (AddLiquidityByPriceArgs.amount0Desired args)
           (AddLiquidityByPriceArgs.amount1Desired args)
           (AddLiquidityByPriceArgs.amount0Min args) (AddLiquidityByPriceArgs.amount1Min args))
      = Throw e.
Proof.
  intros H Heq.
  apply addLiquidityByPrice_inv in H
    as (Hw & Hfee & _ & k0 & k1 & tl & tu & Hk0 & Hk1 & Hlt & Htl & Htu & -> & -> & ->).
  cbn [AddLiquidityDto.tickLower AddLiquidityDto.tickUpper].
  rewrite Heq, Htu in Htl. injection Htl as ->.
  assert (Hrange : validateTickRange tl tl
            = Throw (validationError "Invalid tick range: tickLower must be less than tickUpper"
               (<["type" := VStr "INVALID_TICK_RANGE"]>
                 (<["tickLower" := VNum tl]> {[ "tickUpper" := VNum tl ]})))).
  { unfold validateTickRange. by rewrite Z.leb_refl. }
  split; [done|]. eexists. split; [exact Hrange|]. split; [done|].
  intros R send. unfold addLiquidityByTicks.
  cbn [AddLiquidityByTicksArgs.walletAddress AddLiquidityByTicksArgs.fee
       AddLiquidityByTicksArgs.tickLower AddLiquidityByTicksArgs.tickUpper].
  rewrite Hw, bind_Return, Hfee, bind_Return, Hrange. done.
Qed.

(** The owner of the request is the argument, not the wallet address in
    use.  Both functions validate [args.walletAddress ??
    options.walletAddress] but build the request from [args.walletAddress]
    alone: a call that relies on the SDK's default wallet address passes the
    validation and reaches the bundler with no owner, and with instructions
    that name the wallet "undefined". *)
Theorem add_liquidity_owner_ignores_default_wallet
    (method : string) (dto : AddLiquidityDto.t) (instructions : list string) :
  (∀ args, byTicks recordCall args = Return (method, dto, instructions) →
     AddLiquidityDto.owner dto = AddLiquidityByTicksArgs.walletAddress args ∧
     (AddLiquidityByTicksArgs.walletAddress args = None →
        validateWalletAddress trim defaultWalletAddress = Return tt ∧
        "$userPosition$undefined" ∈ instructions)) ∧
  (∀ args, byPrice recordCall args = Return (method, dto, instructions) →
     AddLiquidityDto.owner dto = AddLiquidityByPriceArgs.walletAddress args ∧
     (AddLiquidityByPriceArgs.walletAddress args = None →
        validateWalletAddress trim defaultWalletAddress = Return tt ∧
        "$userPosition$undefined" ∈ instructions)).
Proof.
  split; intros args H.
  - apply addLiquidityByTicks_inv in H as (Hw & _ & k0 & k1 & _ & _ & _ & -> & -> & ->).
    split; [done|]. intros Hnone. rewrite Hnone in Hw |- *. split; [exact Hw|].
    unfold liquidityInstructions. apply elem_of_cons. right. apply elem_of_cons. by left.
  - apply addLiquidityByPrice_inv in H
      as (Hw & _ & _ & k0 & k1 & tl & tu & _ & _ & _ & _ & _ & -> & -> & ->).
    split; [done|]. intros Hnone. rewrite Hnone in Hw |- *. split; [exact Hw|].
    unfold liquidityInstructions. apply elem_of_cons. right. apply elem_of_cons. by left.
Qed.

End AddLiquidityProperties.

Lemma add_liquidity_by_price_keeps_order_witness :
  ∃ dto instructions,
    addLiquidityByPrice codeUnitCompare (λ s, s) (λ _ _ _, NumDouble false 5 0) (λ _, 16095)
      None recordCall (exampleByPrice (Some "eth|abc") (decimal 45 1) (decimal 55 1))
      = Return ("AddLiquidity", dto, instructions) ∧
    AddLiquidityDto.token0 dto = TokenKey (mkClassKey "GALA" "Unit" "none" "none") ∧
    AddLiquidityDto.amount0Desired dto = bigOfZ 100.
Proof.
  destruct (addLiquidityByPrice codeUnitCompare (λ s, s) (λ _ _ _, NumDouble false 5 0)
              (λ _, 16095) None recordCall
              (exampleByPrice (Some "eth|abc") (decimal 45 1) (decimal 55 1)))
    as [[[method dto] instructions]|e] eqn:E; [|vm_compute in E; discriminate E].
  pose proof (add_liquidity_by_price_keeps_order codeUnitCompare (λ s, s)
                (λ _ _ _, NumDouble false 5 0) (λ _, 16095) None _ _ _ _ E)
    as (Hm & (k0 & k1 & Hk0 & _ & Ht0 & _) & _ & _ & _ & _ & Ha & _).
  exists dto, instructions. rewrite Hm. split; [reflexivity|]. split.
  - rewrite Ht0. vm_compute in Hk0. by injection Hk0 as <-.
  - rewrite Ha. reflexivity.
Defined.

Lemma add_liquidity_by_price_sends_an_empty_range_witness :
  ∃ dto instructions,
    addLiquidityByPrice codeUnitCompare (λ s, s) (λ _ _ _, NumDouble false 5 0) (λ _, 16095)
      None recordCall (exampleByPrice (Some "eth|abc") (bigOfZ 5) (bigOfZ 5))
      = Return ("AddLiquidity", dto, instructions) ∧
    AddLiquidityDto.tickLower dto = AddLiquidityDto.tickUpper dto ∧
    AddLiquidityDto.tickLower dto = 16000.
Proof.
  destruct (addLiquidityByPrice codeUnitCompare (λ s, s) (λ _ _ _, NumDouble false 5 0)
              (λ _, 16095) None recordCall
              (exampleByPrice (Some "eth|abc") (bigOfZ 5) (bigOfZ 5)))
    as [[[method dto] instructions]|e] eqn:E; [|vm_compute in E; discriminate E].
  pose proof (add_liquidity_by_price_sends_an_empty_range codeUnitCompare (λ s, s)
                (λ _ _ _, NumDouble false 5 0) (λ _, 16095) None _ _ _ _ E eq_refl)
    as (Heq & _).
  pose proof E as E'. vm_compute in E'. injection E' as Q1 Q2 Q3.
  exists dto, instructions. rewrite <- Q1. split; [reflexivity|]. split; [exact Heq|].
  rewrite <- Q2. reflexivity.
Defined.

Lemma add_liquidity_owner_ignores_default_wallet_witness :
  ∃ dto instructions,
    addLiquidityByPrice codeUnitCompare (λ s, s) (λ _ _ _, NumDouble false 5 0) (λ _, 16095)
      (Some "eth|abc") recordCall (exampleByPrice None (decimal 45 1) (decimal 55 1))
      = Return ("AddLiquidity", dto, instructions) ∧
    AddLiquidityDto.owner dto = None ∧ "$userPosition$undefined" ∈ instructions.
Proof.
  destruct (addLiquidityByPrice codeUnitCompare (λ s, s) (λ _ _ _, NumDouble false 5 0)
              (λ _, 16095) (Some "eth|abc") recordCall
              (exampleByPrice None (decimal 45 1) (decimal 55 1)))
    as [[[method dto] instructions]|e] eqn:E; [|vm_compute in E; discriminate E].
  pose proof (proj2 (add_liquidity_owner_ignores_default_wallet codeUnitCompare (λ s, s)
                (λ _ _ _, NumDouble false 5 0) (λ _, 16095) (Some "eth|abc")
                method dto instructions) _ E) as (Ho & Hu).
  pose proof E as E'. vm_compute in E'. injection E' as Q1 Q2 Q3.
  exists dto, instructions. rewrite <- Q1. split; [reflexivity|]. split.
  - rewrite Ho. reflexivity.
  - apply Hu. reflexivity.
Defined.
